(** * LMArena bridge: the request-routing engine of [api_server.py]

    A shallow embedding of the parts of [api_server.py] that the
    specification's testable properties are about: the credential-pool
    rotation, the auto-claude fallback selection, the API-key registry, the
    OpenAI -> LMArena payload translator, the stream parser with its SSE
    formatter, the browser websocket multiplexer and the chat-completions
    handler.

    Python [str] values are sequences of Unicode code points and are
    modelled as [list N]; dictionaries keyed by strings are [gmap]s, except
    where the insertion order is observable (the model catalogue), which is an
    association list.  The process globals of the module live in one record,
    [World], that every effectful function threads. *)

From Stdlib Require Import ZArith NArith Ascii String List Lia Bool.
From stdpp Require Import base option list gmap fin_maps pretty.
Import ListNotations.

Set Warnings "-register-all".
Local Open Scope N_scope.

(** ** Python strings *)

(** Decoding of the UTF-8 bytes of a Rocq string literal into code points;
    only used to write the string constants of the source. *)
Fixpoint utf8_decode (bs : list N) : list N :=
  match bs with
  | [] => []
  | b0 :: r0 =>
    if b0 <? 128 then b0 :: utf8_decode r0
    else match r0 with
    | [] => []
    | b1 :: r1 =>
      if b0 <? 224 then ((b0 - 192) * 64 + (b1 - 128)) :: utf8_decode r1
      else match r1 with
      | [] => []
      | b2 :: r2 =>
        if b0 <? 240
        then ((b0 - 224) * 4096 + (b1 - 128) * 64 + (b2 - 128)) :: utf8_decode r2
        else match r2 with
        | [] => []
        | b3 :: r3 =>
          ((b0 - 240) * 262144 + (b1 - 128) * 4096 + (b2 - 128) * 64 + (b3 - 128))
            :: utf8_decode r3
        end
      end
    end
  end.

Definition chars (s : string) : list N := map N_of_ascii (list_ascii_of_string s).

Definition lit (s : string) : list N := utf8_decode (chars s).

(** [str(n)] / the [{n}] of an f-string, for an integer. *)
Definition str_of_Z (z : Z) : list N := chars (pretty z).
Definition str_of_nat (n : nat) : list N := chars (pretty n).

Fixpoint str_eqb (a b : list N) : bool :=
  match a, b with
  | [], [] => true
  | x :: a', y :: b' => (x =? y) && str_eqb a' b'
  | _, _ => false
  end.

(** [s.startswith(p)] *)
Fixpoint startswith (p s : list N) : bool :=
  match p, s with
  | [], _ => true
  | x :: p', y :: s' => (x =? y) && startswith p' s'
  | _ :: _, [] => false
  end.

(** [p in s] for two strings. *)
Fixpoint str_in (p s : list N) : bool :=
  startswith p s ||
  match s with
  | [] => false
  | _ :: s' => str_in p s'
  end.

(** [str.isspace] on one code point, which is what [str.strip()] removes. *)
Definition py_isspace (c : N) : bool :=
  ((9 <=? c) && (c <=? 13)) || ((28 <=? c) && (c <=? 32)) || (c =? 133) ||
  (c =? 160) || (c =? 5760) || ((8192 <=? c) && (c <=? 8202)) ||
  (c =? 8232) || (c =? 8233) || (c =? 8239) || (c =? 8287) || (c =? 12288).

(** [not s.strip()]: the string is empty or all whitespace. *)
Definition strip_is_empty (s : list N) : bool := forallb py_isspace s.

(** [sep.join(parts)] *)
Fixpoint str_join (sep : list N) (parts : list (list N)) : list N :=
  match parts with
  | [] => []
  | [p] => p
  | p :: rest => p ++ sep ++ str_join sep rest
  end.

(** [s.split(sep)] for a one-character separator. *)
Fixpoint str_split_go (sep : N) (cur : list N) (s : list N) : list (list N) :=
  match s with
  | [] => [rev cur]
  | c :: r => if c =? sep then rev cur :: str_split_go sep [] r
              else str_split_go sep (c :: cur) r
  end.
Definition str_split (sep : N) (s : list N) : list (list N) := str_split_go sep [] s.

(** Truthiness of an optional string ([None] and [""] are falsy). *)
Definition truthy_str (o : option (list N)) : bool :=
  match o with
  | Some (_ :: _) => true
  | _ => false
  end.

(** ** JSON values, as [json.loads] builds them *)

Inductive json :=
| JNull
| JBool (b : bool)
| JInt (z : Z)
| JFloat (lexeme : list N)
| JStr (s : list N)
| JArr (l : list json)
| JObj (l : list (list N * json)).

(** Python truthiness of a decoded JSON value. *)
Definition json_truthy (v : json) : bool :=
  match v with
  | JNull => false
  | JBool b => b
  | JInt z => negb (z =? 0)%Z
  | JFloat _ => true
  | JStr s => negb (str_eqb s [])
  | JArr l => match l with [] => false | _ => true end
  | JObj l => match l with [] => false | _ => true end
  end.

(** [d.get(key)] on a decoded object: a repeated key keeps its last value. *)
Fixpoint obj_get (key : list N) (l : list (list N * json)) : option json :=
  match l with
  | [] => None
  | (k, v) :: rest =>
    match obj_get key rest with
    | Some v' => Some v'
    | None => if str_eqb k key then Some v else None
    end
  end.

Definition is_json_ws (c : N) : bool :=
  (c =? 32) || (c =? 9) || (c =? 10) || (c =? 13).

Fixpoint skip_ws (s : list N) : list N :=
  match s with
  | c :: r => if is_json_ws c then skip_ws r else s
  | [] => []
  end.

Definition hex_val (c : N) : option N :=
  if (48 <=? c) && (c <=? 57) then Some (c - 48)
  else if (97 <=? c) && (c <=? 102) then Some (c - 87)
  else if (65 <=? c) && (c <=? 70) then Some (c - 55)
  else None.

Definition hex4 (s : list N) : option (N * list N) :=
  match s with
  | a :: b :: c :: d :: r =>
    match hex_val a, hex_val b, hex_val c, hex_val d with
    | Some x, Some y, Some z, Some w => Some (((x * 16 + y) * 16 + z) * 16 + w, r)
    | _, _, _, _ => None
    end
  | _ => None
  end.

Definition simple_escape (e : N) : option N :=
  if e =? 34 then Some 34          (* quote *)
  else if e =? 92 then Some 92     (* backslash *)
  else if e =? 47 then Some 47     (* slash *)
  else if e =? 98 then Some 8      (* b *)
  else if e =? 102 then Some 12    (* f *)
  else if e =? 110 then Some 10    (* n *)
  else if e =? 114 then Some 13    (* r *)
  else if e =? 116 then Some 9     (* t *)
  else None.

Definition is_high_surrogate (u : N) : bool := (55296 <=? u) && (u <=? 56319).
Definition is_low_surrogate (u : N) : bool := (56320 <=? u) && (u <=? 57343).
Definition join_surrogates (hi lo : N) : N :=
  65536 + (hi - 55296) * 1024 + (lo - 56320).

Definition prepend (c : N) (o : option (list N * list N)) : option (list N * list N) :=
  match o with
  | Some (t, r) => Some (c :: t, r)
  | None => None
  end.

(** The strict string scanner of the [json] module, started after the
    opening quote: returns the decoded string and what follows the closing
    quote; [None] is a [JSONDecodeError]. *)
Fixpoint scanstring (fuel : nat) (s : list N) : option (list N * list N) :=
  match fuel with
  | O => None
  | S f =>
    match s with
    | [] => None
    | c :: r =>
      if c =? 34 then Some ([], r)
      else if c =? 92 then
        match r with
        | [] => None
        | e :: r' =>
          if e =? 117 then
            match hex4 r' with
            | None => None
            | Some (u, r'') =>
              if is_high_surrogate u && startswith [92; 117] r'' then
                match hex4 (drop 2 r'') with
                | None => None
                | Some (u2, r4) =>
                  if is_low_surrogate u2
                  then prepend (join_surrogates u u2) (scanstring f r4)
                  else prepend u (scanstring f r'')
                end
              else prepend u (scanstring f r'')
            end
          else
            match simple_escape e with
            | Some d => prepend d (scanstring f r')
            | None => None
            end
        end
      else if c <=? 31 then None
      else prepend c (scanstring f r)
    end
  end.

Definition is_digit (c : N) : bool := (48 <=? c) && (c <=? 57).

Fixpoint take_digits (s : list N) : list N * list N :=
  match s with
  | c :: r => if is_digit c then let '(ds, rest) := take_digits r in (c :: ds, rest)
              else ([], s)
  | [] => ([], [])
  end.

Fixpoint digits_value (acc : Z) (ds : list N) : Z :=
  match ds with
  | [] => acc
  | d :: r => digits_value (acc * 10 + Z.of_N (d - 48)) r
  end.

(** The number token of the decoder: an optional minus sign, then 0 or a
    nonzero digit followed by digits, then an optional fraction (a dot and
    at least one digit) and an optional exponent (e or E, an optional sign,
    at least one digit). *)
Definition scan_number (s : list N) : option (json * list N) :=
  let '(neg, s1) := match s with
                    | c :: r => if c =? 45 then (true, r) else (false, s)
                    | [] => (false, s)
                    end in
  match s1 with
  | [] => None
  | c :: r =>
    let int_part :=
      if c =? 48 then Some ([c], r)
      else if is_digit c then let '(ds, rest) := take_digits r in Some (c :: ds, rest)
      else None in
    match int_part with
    | None => None
    | Some (ip, rest) =>
      let '(frac, rest1) :=
        match rest with
        | p :: d :: r' =>
          if (p =? 46) && is_digit d
          then let '(ds, rest') := take_digits (d :: r') in (p :: ds, rest')
          else ([], rest)
        | _ => ([], rest)
        end in
      let '(ex, rest2) :=
        match rest1 with
        | e :: r' =>
          if (e =? 101) || (e =? 69) then
            let '(sign, r'') := match r' with
                                | g :: r3 => if (g =? 45) || (g =? 43) then ([g], r3) else ([], r')
                                | [] => ([], r')
                                end in
            match take_digits r'' with
            | ([], _) => ([], rest1)
            | (ds, rest') => (e :: sign ++ ds, rest')
            end
          else ([], rest1)
        | [] => ([], rest1)
        end in
      match frac, ex with
      | [], [] =>
        let v := digits_value 0 ip in
        Some (JInt (if neg then (- v)%Z else v), rest2)
      | _, _ => Some (JFloat ((if neg then [45] else []) ++ ip ++ frac ++ ex), rest2)
      end
    end
  end.

Definition expect (word : list N) (s : list N) : option (list N) :=
  if startswith word s then Some (drop (length word) s) else None.

(** [scan_once], with the object and array loops of the decoder. *)
Fixpoint parse_value (fuel : nat) (s : list N) {struct fuel} : option (json * list N) :=
  match fuel with
  | O => None
  | S f =>
    match s with
    | [] => None
    | c :: r =>
      if c =? 34 then
        match scanstring (S (length r)) r with
        | Some (t, rest) => Some (JStr t, rest)
        | None => None
        end
      else if c =? 123 then
        let r1 := skip_ws r in
        match r1 with
        | d :: r2 =>
          if d =? 125 then Some (JObj [], r2)
          else if d =? 34 then parse_members f r2 []
          else None
        | [] => None
        end
      else if c =? 91 then
        let r1 := skip_ws r in
        match r1 with
        | d :: r2 => if d =? 93 then Some (JArr [], r2) else parse_elements f r1 []
        | [] => None
        end
      else if startswith (chars "null") s then Some (JNull, drop 4 s)
      else if startswith (chars "true") s then Some (JBool true, drop 4 s)
      else if startswith (chars "false") s then Some (JBool false, drop 5 s)
      else
        match scan_number s with
        | Some res => Some res
        | None =>
          if startswith (chars "NaN") s then Some (JFloat (chars "NaN"), drop 3 s)
          else if startswith (chars "Infinity") s
          then Some (JFloat (chars "Infinity"), drop 8 s)
          else if startswith (chars "-Infinity") s
          then Some (JFloat (chars "-Infinity"), drop 9 s)
          else None
        end
    end
  end
with parse_members (fuel : nat) (s : list N) (acc : list (list N * json)) {struct fuel}
  : option (json * list N) :=
  (* [s] starts right after the opening quote of a property name *)
  match fuel with
  | O => None
  | S f =>
    match scanstring (S (length s)) s with
    | None => None
    | Some (key, rest) =>
      match skip_ws rest with
      | c :: r =>
        if c =? 58 then
          match parse_value f (skip_ws r) with
          | None => None
          | Some (v, rest1) =>
            match skip_ws rest1 with
            | d :: r1 =>
              if d =? 125 then Some (JObj (acc ++ [(key, v)]), r1)
              else if d =? 44 then
                match skip_ws r1 with
                | q :: r2 => if q =? 34 then parse_members f r2 (acc ++ [(key, v)]) else None
                | [] => None
                end
              else None
            | [] => None
            end
          end
        else None
      | [] => None
      end
    end
  end
with parse_elements (fuel : nat) (s : list N) (acc : list json) {struct fuel}
  : option (json * list N) :=
  (* [s] starts at the first character of an element *)
  match fuel with
  | O => None
  | S f =>
    match parse_value f s with
    | None => None
    | Some (v, rest) =>
      match skip_ws rest with
      | d :: r1 =>
        if d =? 93 then Some (JArr (acc ++ [v]), r1)
        else if d =? 44 then parse_elements f (skip_ws r1) (acc ++ [v])
        else None
      | [] => None
      end
    end
  end.

(** [json.loads(s)]: one value, surrounded by optional whitespace. *)
Definition json_loads (s : list N) : option json :=
  match parse_value (S (S (length s))) (skip_ws s) with
  | Some (v, rest) => match skip_ws rest with [] => Some v | _ => None end
  | None => None
  end.

(** ** Data model *)

(** A value of a credential-pool entry: the cursor is an integer, the
    session and message identifiers and the mode tags are strings. *)
Inductive pool_value :=
| VInt (z : Z)
| VStr (s : list N).

(** One entry of [MODEL_ENDPOINT_MAP]: a dictionary (the numbered format
    with [current_index], or the legacy single mapping) or the legacy list
    of mappings. *)
Inductive pool_entry :=
| PoolDict (m : gmap (list N) pool_value)
| PoolList (l : list (gmap (list N) pool_value)).

(** The fields of an API-key record that the server reads or writes
    ([None] is an absent key of the dictionary). *)
Record KeyData := {
  kd_enabled : option bool;
  kd_usage_limit : option Z;
  kd_usage_count : option Z;
  kd_models : list (list N);
  kd_last_used : option Z
}.

(** The keys of [config.jsonc] that the modelled code reads. *)
Record Config := {
  cfg_api_key : option (list N);
  cfg_assistant_prefill_enabled : option bool;
  cfg_tavern_mode_enabled : bool;
  cfg_bypass_enabled : bool;
  cfg_id_updater_last_mode : option (list N);
  cfg_id_updater_battle_target : option (list N);
  cfg_use_default_ids_if_mapping_not_found : option bool;
  cfg_session_id : option (list N);
  cfg_message_id : option (list N);
  cfg_stream_response_timeout_seconds : option Z
}.

(** [CONFIG = {}] *)
Definition empty_config : Config := {|
  cfg_api_key := None;
  cfg_assistant_prefill_enabled := None;
  cfg_tavern_mode_enabled := false;
  cfg_bypass_enabled := false;
  cfg_id_updater_last_mode := None;
  cfg_id_updater_battle_target := None;
  cfg_use_default_ids_if_mapping_not_found := None;
  cfg_session_id := None;
  cfg_message_id := None;
  cfg_stream_response_timeout_seconds := None
|}.

(** OpenAI request messages. *)
Inductive part :=
| PartText (text : option (list N))
| PartImage (url : option (list N)) (detail : option (list N))
| PartOther.

Inductive content :=
| ContentStr (s : list N)
| ContentParts (l : list part)
| ContentNull.

Record message := {
  role : list N;
  msg_content : option content
}.

Record openai_request := {
  req_model : option (list N);
  req_messages : list message;
  req_stream : option bool
}.

(** The upstream payload. *)
Record attachment := {
  att_name : list N;
  att_contentType : list N;
  att_url : list N
}.

Record processed_message := {
  pm_role : list N;
  pm_content : list N;
  pm_attachments : list attachment
}.

Record template := {
  t_role : list N;
  t_content : list N;
  t_attachments : list attachment;
  participantPosition : option (list N)
}.

Record payload := {
  message_templates : list template;
  target_model_id : list N;
  pl_session_id : pool_value;
  pl_message_id : pool_value;
  assistant_prefill : content;
  is_auto_claude : bool
}.

(** What the browser puts on a request queue: a fragment of the upstream
    body, a list of fragments, or a control object; the end marker is the
    string fragment [DONE_MARK]. *)
Record control := {
  rate_limit_detected : bool;
  ctl_model_id : option (list N);
  ctl_error : option json
}.

Inductive frame :=
| FrameStr (s : list N)
| FrameList (l : list (list N))
| FrameDict (d : control).

(** What the server writes on the browser socket. *)
Inductive ws_message :=
| MsgRequest (request_id : list N) (p : payload)
| MsgCommand (command : list N)
| MsgSwitchModel (request_id : list N) (new_session_id new_message_id new_model_id : option (list N)).

(** Effects visible outside the process: the two JSON files that are
    rewritten and the text frames sent to a browser socket. *)
Inductive effect :=
| WriteEndpointMap (pool : gmap (list N) pool_entry)
| WriteApiKeys (keys : gmap (list N) KeyData)
| WsSend (ws : nat) (msg : ws_message).

(** The module globals, the queue objects the channel table points to, the
    clock and identifier sources, and the log of effects (oldest first). *)
Record World := {
  CONFIG : Config;
  config_jsonc : option Config;
  API_KEYS_DATA : gmap (list N) KeyData;
  MODEL_NAME_TO_ID_MAP : list (list N * list N);
  MODEL_ENDPOINT_MAP : gmap (list N) pool_entry;
  AUTO_CLAUDE_DISABLED_MODELS : gmap (list N) Z;
  AUTO_CLAUDE_ACTIVE_REQUESTS : gmap (list N) (list N);
  browser_ws : option nat;
  response_channels : gmap (list N) nat;
  queues : gmap nat (list frame);
  last_activity_time : option Z;
  clock : nat -> Z;
  clock_reads : nat;
  random_draws : nat;
  effects : list effect
}.

Definition set_CONFIG (v : Config) (w : World) : World :=
  {| CONFIG := v; config_jsonc := config_jsonc w; API_KEYS_DATA := API_KEYS_DATA w;
     MODEL_NAME_TO_ID_MAP := MODEL_NAME_TO_ID_MAP w; MODEL_ENDPOINT_MAP := MODEL_ENDPOINT_MAP w;
     AUTO_CLAUDE_DISABLED_MODELS := AUTO_CLAUDE_DISABLED_MODELS w;
     AUTO_CLAUDE_ACTIVE_REQUESTS := AUTO_CLAUDE_ACTIVE_REQUESTS w;
     browser_ws := browser_ws w; response_channels := response_channels w;
     queues := queues w; last_activity_time := last_activity_time w;
     clock := clock w; clock_reads := clock_reads w; random_draws := random_draws w;
     effects := effects w |}.

Definition set_API_KEYS_DATA (v : gmap (list N) KeyData) (w : World) : World :=
  {| CONFIG := CONFIG w; config_jsonc := config_jsonc w; API_KEYS_DATA := v;
     MODEL_NAME_TO_ID_MAP := MODEL_NAME_TO_ID_MAP w; MODEL_ENDPOINT_MAP := MODEL_ENDPOINT_MAP w;
     AUTO_CLAUDE_DISABLED_MODELS := AUTO_CLAUDE_DISABLED_MODELS w;
     AUTO_CLAUDE_ACTIVE_REQUESTS := AUTO_CLAUDE_ACTIVE_REQUESTS w;
     browser_ws := browser_ws w; response_channels := response_channels w;
     queues := queues w; last_activity_time := last_activity_time w;
     clock := clock w; clock_reads := clock_reads w; random_draws := random_draws w;
     effects := effects w |}.

Definition set_MODEL_ENDPOINT_MAP (v : gmap (list N) pool_entry) (w : World) : World :=
  {| CONFIG := CONFIG w; config_jsonc := config_jsonc w; API_KEYS_DATA := API_KEYS_DATA w;
     MODEL_NAME_TO_ID_MAP := MODEL_NAME_TO_ID_MAP w; MODEL_ENDPOINT_MAP := v;
     AUTO_CLAUDE_DISABLED_MODELS := AUTO_CLAUDE_DISABLED_MODELS w;
     AUTO_CLAUDE_ACTIVE_REQUESTS := AUTO_CLAUDE_ACTIVE_REQUESTS w;
     browser_ws := browser_ws w; response_channels := response_channels w;
     queues := queues w; last_activity_time := last_activity_time w;
     clock := clock w; clock_reads := clock_reads w; random_draws := random_draws w;
     effects := effects w |}.

Definition set_AUTO_CLAUDE_DISABLED_MODELS (v : gmap (list N) Z) (w : World) : World :=
  {| CONFIG := CONFIG w; config_jsonc := config_jsonc w; API_KEYS_DATA := API_KEYS_DATA w;
     MODEL_NAME_TO_ID_MAP := MODEL_NAME_TO_ID_MAP w; MODEL_ENDPOINT_MAP := MODEL_ENDPOINT_MAP w;
     AUTO_CLAUDE_DISABLED_MODELS := v;
     AUTO_CLAUDE_ACTIVE_REQUESTS := AUTO_CLAUDE_ACTIVE_REQUESTS w;
     browser_ws := browser_ws w; response_channels := response_channels w;
     queues := queues w; last_activity_time := last_activity_time w;
     clock := clock w; clock_reads := clock_reads w; random_draws := random_draws w;
     effects := effects w |}.

Definition set_AUTO_CLAUDE_ACTIVE_REQUESTS (v : gmap (list N) (list N)) (w : World) : World :=
  {| CONFIG := CONFIG w; config_jsonc := config_jsonc w; API_KEYS_DATA := API_KEYS_DATA w;
     MODEL_NAME_TO_ID_MAP := MODEL_NAME_TO_ID_MAP w; MODEL_ENDPOINT_MAP := MODEL_ENDPOINT_MAP w;
     AUTO_CLAUDE_DISABLED_MODELS := AUTO_CLAUDE_DISABLED_MODELS w;
     AUTO_CLAUDE_ACTIVE_REQUESTS := v;
     browser_ws := browser_ws w; response_channels := response_channels w;
     queues := queues w; last_activity_time := last_activity_time w;
     clock := clock w; clock_reads := clock_reads w; random_draws := random_draws w;
     effects := effects w |}.

Definition set_browser_ws (v : option nat) (w : World) : World :=
  {| CONFIG := CONFIG w; config_jsonc := config_jsonc w; API_KEYS_DATA := API_KEYS_DATA w;
     MODEL_NAME_TO_ID_MAP := MODEL_NAME_TO_ID_MAP w; MODEL_ENDPOINT_MAP := MODEL_ENDPOINT_MAP w;
     AUTO_CLAUDE_DISABLED_MODELS := AUTO_CLAUDE_DISABLED_MODELS w;
     AUTO_CLAUDE_ACTIVE_REQUESTS := AUTO_CLAUDE_ACTIVE_REQUESTS w;
     browser_ws := v; response_channels := response_channels w;
     queues := queues w; last_activity_time := last_activity_time w;
     clock := clock w; clock_reads := clock_reads w; random_draws := random_draws w;
     effects := effects w |}.

Definition set_response_channels (v : gmap (list N) nat) (w : World) : World :=
  {| CONFIG := CONFIG w; config_jsonc := config_jsonc w; API_KEYS_DATA := API_KEYS_DATA w;
     MODEL_NAME_TO_ID_MAP := MODEL_NAME_TO_ID_MAP w; MODEL_ENDPOINT_MAP := MODEL_ENDPOINT_MAP w;
     AUTO_CLAUDE_DISABLED_MODELS := AUTO_CLAUDE_DISABLED_MODELS w;
     AUTO_CLAUDE_ACTIVE_REQUESTS := AUTO_CLAUDE_ACTIVE_REQUESTS w;
     browser_ws := browser_ws w; response_channels := v;
     queues := queues w; last_activity_time := last_activity_time w;
     clock := clock w; clock_reads := clock_reads w; random_draws := random_draws w;
     effects := effects w |}.

Definition set_queues (v : gmap nat (list frame)) (w : World) : World :=
  {| CONFIG := CONFIG w; config_jsonc := config_jsonc w; API_KEYS_DATA := API_KEYS_DATA w;
     MODEL_NAME_TO_ID_MAP := MODEL_NAME_TO_ID_MAP w; MODEL_ENDPOINT_MAP := MODEL_ENDPOINT_MAP w;
     AUTO_CLAUDE_DISABLED_MODELS := AUTO_CLAUDE_DISABLED_MODELS w;
     AUTO_CLAUDE_ACTIVE_REQUESTS := AUTO_CLAUDE_ACTIVE_REQUESTS w;
     browser_ws := browser_ws w; response_channels := response_channels w;
     queues := v; last_activity_time := last_activity_time w;
     clock := clock w; clock_reads := clock_reads w; random_draws := random_draws w;
     effects := effects w |}.

Definition set_last_activity_time (v : option Z) (w : World) : World :=
  {| CONFIG := CONFIG w; config_jsonc := config_jsonc w; API_KEYS_DATA := API_KEYS_DATA w;
     MODEL_NAME_TO_ID_MAP := MODEL_NAME_TO_ID_MAP w; MODEL_ENDPOINT_MAP := MODEL_ENDPOINT_MAP w;
     AUTO_CLAUDE_DISABLED_MODELS := AUTO_CLAUDE_DISABLED_MODELS w;
     AUTO_CLAUDE_ACTIVE_REQUESTS := AUTO_CLAUDE_ACTIVE_REQUESTS w;
     browser_ws := browser_ws w; response_channels := response_channels w;
     queues := queues w; last_activity_time := v;
     clock := clock w; clock_reads := clock_reads w; random_draws := random_draws w;
     effects := effects w |}.

Definition set_clock_reads (v : nat) (w : World) : World :=
  {| CONFIG := CONFIG w; config_jsonc := config_jsonc w; API_KEYS_DATA := API_KEYS_DATA w;
     MODEL_NAME_TO_ID_MAP := MODEL_NAME_TO_ID_MAP w; MODEL_ENDPOINT_MAP := MODEL_ENDPOINT_MAP w;
     AUTO_CLAUDE_DISABLED_MODELS := AUTO_CLAUDE_DISABLED_MODELS w;
     AUTO_CLAUDE_ACTIVE_REQUESTS := AUTO_CLAUDE_ACTIVE_REQUESTS w;
     browser_ws := browser_ws w; response_channels := response_channels w;
     queues := queues w; last_activity_time := last_activity_time w;
     clock := clock w; clock_reads := v; random_draws := random_draws w;
     effects := effects w |}.

Definition set_random_draws (v : nat) (w : World) : World :=
  {| CONFIG := CONFIG w; config_jsonc := config_jsonc w; API_KEYS_DATA := API_KEYS_DATA w;
     MODEL_NAME_TO_ID_MAP := MODEL_NAME_TO_ID_MAP w; MODEL_ENDPOINT_MAP := MODEL_ENDPOINT_MAP w;
     AUTO_CLAUDE_DISABLED_MODELS := AUTO_CLAUDE_DISABLED_MODELS w;
     AUTO_CLAUDE_ACTIVE_REQUESTS := AUTO_CLAUDE_ACTIVE_REQUESTS w;
     browser_ws := browser_ws w; response_channels := response_channels w;
     queues := queues w; last_activity_time := last_activity_time w;
     clock := clock w; clock_reads := clock_reads w; random_draws := v;
     effects := effects w |}.

Definition set_effects (v : list effect) (w : World) : World :=
  {| CONFIG := CONFIG w; config_jsonc := config_jsonc w; API_KEYS_DATA := API_KEYS_DATA w;
     MODEL_NAME_TO_ID_MAP := MODEL_NAME_TO_ID_MAP w; MODEL_ENDPOINT_MAP := MODEL_ENDPOINT_MAP w;
     AUTO_CLAUDE_DISABLED_MODELS := AUTO_CLAUDE_DISABLED_MODELS w;
     AUTO_CLAUDE_ACTIVE_REQUESTS := AUTO_CLAUDE_ACTIVE_REQUESTS w;
     browser_ws := browser_ws w; response_channels := response_channels w;
     queues := queues w; last_activity_time := last_activity_time w;
     clock := clock w; clock_reads := clock_reads w; random_draws := random_draws w;
     effects := v |}.

(** Appends one effect to the log. *)
Definition emit (e : effect) (w : World) : World := set_effects (effects w ++ [e]) w.

(** [datetime.now()]: the next reading of the clock. *)
Definition now (w : World) : Z * World :=
  (clock w (clock_reads w), set_clock_reads (S (clock_reads w)) w).

(** Library functions of the Python runtime that the code calls and whose
    tables are not part of the program. *)
Class PyLib := {
  str_lower : list N -> list N;                     (* str.lower() *)
  guess_extension : list N -> option (list N);      (* mimetypes.guess_extension *)
  uuid4 : nat -> list N;                            (* str(uuid.uuid4()), at draw n *)
  random_choice : nat -> nat -> nat;                (* index picked at draw n in a list of the given length *)
  py_str : json -> list N                           (* str() of a decoded value *)
}.

(** Exceptions that escape the modelled functions. *)
Inductive exn :=
| TypeError
| AttributeError.

Inductive outcome (A : Type) :=
| Return (a : A)
| Raised (e : exn).
Arguments Return {A} a.
Arguments Raised {A} e.

Definition nl : list N := [10].
Definition quote : N := 34.
Definition backslash : N := 92.

(** ** Credential-pool rotation *)

Definition session_key (suffix : list N) : list N := lit "session_id" ++ suffix.
Definition message_key (suffix : list N) : list N := lit "message_id" ++ suffix.

(** The text an f-string gives a pool value. *)
Definition pool_value_str (v : pool_value) : list N :=
  match v with
  | VInt z => str_of_Z z
  | VStr s => s
  end.

Definition pool_value_truthy (v : option pool_value) : bool :=
  match v with
  | Some (VInt z) => negb (z =? 0)%Z
  | Some (VStr (_ :: _)) => true
  | _ => false
  end.

Definition has_pair (model_mapping : gmap (list N) pool_value) (index : nat) : bool :=
  bool_decide (is_Some (model_mapping !! session_key (str_of_nat index))) &&
  bool_decide (is_Some (model_mapping !! message_key (str_of_nat index))).

(** The [while] loop of [get_available_session_count]; every iteration that
    continues has found two more keys of the dictionary, so the number of
    keys bounds the number of iterations. *)
Fixpoint session_count_loop (fuel : nat) (model_mapping : gmap (list N) pool_value)
    (index : nat) : nat :=
  match fuel with
  | O => index
  | S f => if has_pair model_mapping index
           then session_count_loop f model_mapping (S index)
           else index
  end.

Definition get_available_session_count (model_mapping : gmap (list N) pool_value) : nat :=
  session_count_loop (S (size model_mapping)) model_mapping 0.

(** [save_model_endpoint_map]: dumps the pool to model_endpoint_map.json. *)
Definition save_model_endpoint_map (w : World) : World :=
  emit (WriteEndpointMap (MODEL_ENDPOINT_MAP w)) w.

Definition is_VInt (v : option pool_value) : bool :=
  match v with
  | Some (VInt _) => true
  | _ => false
  end.

Definition rotate_model_session (model_name : list N) (w : World) : outcome bool * World :=
  match MODEL_ENDPOINT_MAP w !! model_name with
  | None => (Return false, w)
  | Some (PoolList _) => (Return false, w)
  | Some (PoolDict model_mapping) =>
    match model_mapping !! lit "current_index" with
    | None => (Return false, w)
    | Some current_index =>
      let available_count := get_available_session_count model_mapping in
      if (available_count <=? 1)%nat then (Return false, w)
      else
        match current_index with
        | VStr _ => (Raised TypeError, w)
        | VInt ci =>
          let next_index := ((ci + 1) mod Z.of_nat available_count)%Z in
          let next_session_key := session_key (str_of_Z next_index) in
          let next_message_key := message_key (str_of_Z next_index) in
          if negb (bool_decide (is_Some (model_mapping !! next_session_key))) ||
             negb (bool_decide (is_Some (model_mapping !! next_message_key)))
          then (Return false, w)
          else
            let model_mapping' := <[lit "current_index" := VInt next_index]> model_mapping in
            let w1 := set_MODEL_ENDPOINT_MAP
                        (<[model_name := PoolDict model_mapping']> (MODEL_ENDPOINT_MAP w)) w in
            let w2 := save_model_endpoint_map w1 in
            (* the two log lines take len() of the old and new session ids *)
            if is_VInt (model_mapping' !! session_key (str_of_Z ci)) ||
               is_VInt (model_mapping' !! session_key (str_of_Z next_index))
            then (Raised TypeError, w2)
            else (Return true, w2)
        end
    end
  end.

Definition generate_rotation_message (model_name : list N) (rotation_success : bool) : list N :=
  if rotation_success then
    lit "🔄 **Sistema de Rotación Activado**" ++ nl ++ nl ++
    lit "He detectado que el endpoint actual ha alcanzado su límite de velocidad para el modelo '" ++
    model_name ++
    lit "'. He rotado automáticamente al siguiente endpoint disponible." ++ nl ++ nl ++
    lit "**Por favor, reenvía tu mensaje anterior para continuar con la conversación.**" ++ nl ++ nl ++
    lit "*Este es un mensaje automático del sistema de rotación de Adri, pipipipi.*"
  else
    lit "⚠️ **Límite de Velocidad Detectado**" ++ nl ++ nl ++
    lit "He detectado un límite de velocidad para el modelo '" ++ model_name ++
    lit "', pero no tengo endpoints adicionales configurados para rotar automáticamente." ++ nl ++ nl ++
    lit "**Recomendaciones:**" ++ nl ++
    lit "- Espera unos minutos antes de reintentar" ++ nl ++
    lit "- Considera agregar más session IDs de respaldo para este modelo" ++ nl ++ nl ++
    lit "*Este es un mensaje automático del sistema de adri, kkkkkkkk.*".

Section WithPyLib.
Context `{PyLib}.

(** Returns [(session_id, message_id, mode, battle_target)]. *)
Definition get_current_session_ids (model_name : option (list N)) (w : World)
  : (option pool_value * option pool_value * option pool_value * option pool_value) * World :=
  match model_name ≫= (MODEL_ENDPOINT_MAP w !!.) with
  | None => ((None, None, None, None), w)
  | Some (PoolDict model_mapping) =>
    match model_mapping !! lit "current_index" with
    | Some current_index =>
      let suffix := pool_value_str current_index in
      ((model_mapping !! session_key suffix, model_mapping !! message_key suffix,
        model_mapping !! lit "mode", model_mapping !! lit "battle_target"), w)
    | None =>
      ((model_mapping !! lit "session_id", model_mapping !! lit "message_id",
        model_mapping !! lit "mode", model_mapping !! lit "battle_target"), w)
    end
  | Some (PoolList l) =>
    match l !! random_choice (random_draws w) (length l) with
    | Some selected_mapping =>
      ((selected_mapping !! lit "session_id", selected_mapping !! lit "message_id",
        selected_mapping !! lit "mode", selected_mapping !! lit "battle_target"),
       set_random_draws (S (random_draws w)) w)
    | None => ((None, None, None, None), w)
    end
  end.

End WithPyLib.

(** ** Auto-claude fallback *)

Definition AUTO_CLAUDE_PRIORITY : list (list N) := [
  lit "claude-opus-4-1-20250805-thinking-16k";
  lit "claude-opus-4-1-20250805";
  lit "claude-opus-4-20250514-thinking-16k";
  lit "claude-opus-4-20250514";
  lit "claude-3-7-sonnet-20250219";
  lit "claude-sonnet-4-20250514";
  lit "claude-3-5-sonnet-20241022"
].

(** [name in MODEL_NAME_TO_ID_MAP] and [MODEL_NAME_TO_ID_MAP.get(name)]. *)
Fixpoint catalog_get (name : list N) (catalog : list (list N * list N)) : option (list N) :=
  match catalog with
  | [] => None
  | (k, v) :: rest => if str_eqb k name then Some v else catalog_get name rest
  end.

Definition in_catalog (name : list N) (w : World) : bool :=
  bool_decide (is_Some (catalog_get name (MODEL_NAME_TO_ID_MAP w))).

(** One hour, in the unit of the clock (seconds). *)
Definition one_hour : Z := 3600.

Definition disable_model_for_auto_claude (model_name : list N) (w : World) : World :=
  let '(t, w1) := now w in
  set_AUTO_CLAUDE_DISABLED_MODELS
    (<[model_name := (t + one_hour)%Z]> (AUTO_CLAUDE_DISABLED_MODELS w1)) w1.

Definition is_model_available_for_auto_claude (model_name : list N) (w : World)
  : bool * World :=
  match AUTO_CLAUDE_DISABLED_MODELS w !! model_name with
  | None => (true, w)
  | Some until =>
    let '(t, w1) := now w in
    if (t >? until)%Z
    then (true, set_AUTO_CLAUDE_DISABLED_MODELS
                  (delete model_name (AUTO_CLAUDE_DISABLED_MODELS w1)) w1)
    else (false, w1)
  end.

Definition cleanup_expired_auto_claude_disables (w : World) : World :=
  let '(t, w1) := now w in
  set_AUTO_CLAUDE_DISABLED_MODELS
    (filter (fun kv : list N * Z => ¬ (t > kv.2)%Z) (AUTO_CLAUDE_DISABLED_MODELS w1)) w1.

(** The [for] loop over the priority list. *)
Fixpoint first_available (models : list (list N)) (w : World) : option (list N) * World :=
  match models with
  | [] => (None, w)
  | model :: rest =>
    let '(available, w1) := is_model_available_for_auto_claude model w in
    if available && in_catalog model w1 then (Some model, w1)
    else first_available rest w1
  end.

Definition get_best_available_claude_model (w : World) : list N * World :=
  let w1 := cleanup_expired_auto_claude_disables w in
  match first_available AUTO_CLAUDE_PRIORITY w1 with
  | (Some model, w2) => (model, w2)
  | (None, w2) => (List.last AUTO_CLAUDE_PRIORITY [], w2)
  end.

(** ** API keys *)

Inductive validation :=
| KeyValid (key_data : KeyData)
| KeyInvalid (error : list N).

Definition catalog_names (w : World) : list (list N) := map fst (MODEL_NAME_TO_ID_MAP w).

Definition str_mem (x : list N) (l : list (list N)) : bool := existsb (str_eqb x) l.

Definition validate_api_key (api_key : list N) (model_name : option (list N)) (w : World)
  : validation :=
  if str_eqb api_key [] then KeyInvalid (lit "API key requerida")
  else if truthy_str (cfg_api_key (CONFIG w)) &&
          bool_decide (Some api_key = cfg_api_key (CONFIG w))
  then KeyValid {| kd_enabled := Some true; kd_usage_limit := None; kd_usage_count := None;
                   kd_models := catalog_names w; kd_last_used := None |}
  else
    match API_KEYS_DATA w !! api_key with
    | None => KeyInvalid (lit "API key inválida")
    | Some key_data =>
      if negb (default true (kd_enabled key_data))
      then KeyInvalid (lit "API key deshabilitada")
      else
        let usage_limit := kd_usage_limit key_data in
        let usage_count := default 0%Z (kd_usage_count key_data) in
        if match usage_limit with
           | Some limit => (usage_count >=? limit)%Z
           | None => false
           end
        then KeyInvalid (lit "Límite de usos excedido")
        else
          match model_name with
          | Some (c :: m) =>
            let allowed_models := kd_models key_data in
            if negb (bool_decide (allowed_models = [])) && negb (str_mem (c :: m) allowed_models)
            then KeyInvalid (lit "Modelo '" ++ (c :: m) ++ lit "' no permitido para esta API key")
            else KeyValid key_data
          | _ => KeyValid key_data
          end
    end.

(** [save_api_keys]: dumps the registry to the API-keys file. *)
Definition save_api_keys (w : World) : World := emit (WriteApiKeys (API_KEYS_DATA w)) w.

Definition increment_api_key_usage (api_key : list N) (w : World) : World :=
  if truthy_str (cfg_api_key (CONFIG w)) &&
     bool_decide (Some api_key = cfg_api_key (CONFIG w))
  then w
  else
    match API_KEYS_DATA w !! api_key with
    | None => w
    | Some key_data =>
      let '(t, w1) := now w in
      let key_data' := {| kd_enabled := kd_enabled key_data;
                          kd_usage_limit := kd_usage_limit key_data;
                          kd_usage_count := Some (default 0%Z (kd_usage_count key_data) + 1)%Z;
                          kd_models := kd_models key_data;
                          kd_last_used := Some t |} in
      save_api_keys (set_API_KEYS_DATA (<[api_key := key_data']> (API_KEYS_DATA w1)) w1)
    end.

Definition get_models_for_api_key (api_key : list N) (w : World) : list (list N) :=
  match validate_api_key api_key None w with
  | KeyInvalid _ => []
  | KeyValid key_data =>
    match kd_models key_data with
    | [] => catalog_names w
    | allowed_models => filter (fun model => in_catalog model w) allowed_models
    end
  end.

(** ** Stream parser *)

(** [detect_rate_limit_error] on a string. *)
Definition detect_rate_limit_error (content : list N) : bool :=
  str_in (lit "429") content && str_in (lit "Too Many Requests") content.

(** The greedy body of [text_pattern]: a run of tokens, each either a
    backslash followed by any character but a newline, or one character
    that is neither a quote nor a backslash.  Returns the run and what
    follows it. *)
Fixpoint scan_body (s : list N) : list N * list N :=
  match s with
  | [] => ([], [])
  | c :: r =>
    if c =? backslash then
      match r with
      | [] => ([], s)
      | e :: r' =>
        if e =? 10 then ([], s)
        else let '(b, rest) := scan_body r' in (c :: e :: b, rest)
      end
    else if c =? quote then ([], s)
    else let '(b, rest) := scan_body r in (c :: b, rest)
  end.

Definition is_lane (c : N) : bool := (c =? 97) || (c =? 98).

(** [text_pattern] anchored at the head of [s]: the lane letter, [0:], a
    quote, the body, a quote.  Returns group 1 and the text after the
    match.  The two kinds of token exclude each other and neither starts
    with a quote, so giving tokens back never produces a match and the
    greedy run decides. *)
Definition match_text_at (s : list N) : option (list N * list N) :=
  match s with
  | l :: z :: c :: q :: r =>
    if is_lane l && (z =? 48) && (c =? 58) && (q =? quote) then
      let '(body, rest) := scan_body r in
      match rest with
      | q' :: rest' => if q' =? quote then Some (body, rest') else None
      | [] => None
      end
    else None
  | _ => None
  end.

(** [text_pattern.search(buffer)]: the leftmost match. *)
Fixpoint text_search (s : list N) : option (list N * list N) :=
  match match_text_at s with
  | Some m => Some m
  | None =>
    match s with
    | [] => None
    | _ :: s' => text_search s'
    end
  end.

(** A lazy run of characters followed by [needle]: the shortest prefix of
    [s] that ends with [needle]; the run does not cross a newline unless
    [dotall].  Returns the prefix and what follows it. *)
Fixpoint find_lazy (dotall : bool) (needle : list N) (s : list N) : option (list N * list N) :=
  if startswith needle s then Some (needle, drop (length needle) s)
  else
    match s with
    | [] => None
    | c :: r =>
      if negb dotall && (c =? 10) then None
      else
        match find_lazy dotall needle r with
        | Some (m, rest) => Some (c :: m, rest)
        | None => None
        end
    end.

Definition finishReason_key : list N := [quote] ++ lit "finishReason" ++ [quote].

(** [finish_pattern] anchored at the head of [s]: the lane letter, [d:],
    then group 1, which runs from the brace to the first closing brace after
    the first quoted finishReason, all on one line. *)
Definition match_finish_at (s : list N) : option (list N * list N) :=
  match s with
  | l :: d :: c :: b :: r =>
    if is_lane l && (d =? 100) && (c =? 58) && (b =? 123) then
      match find_lazy false finishReason_key r with
      | None => None
      | Some (m1, r1) =>
        match find_lazy false [125] r1 with
        | None => None
        | Some (m2, r2) => Some (b :: m1 ++ m2, r2)
        end
      end
    else None
  | _ => None
  end.

Fixpoint finish_search (s : list N) : option (list N * list N) :=
  match match_finish_at s with
  | Some m => Some m
  | None =>
    match s with
    | [] => None
    | _ :: s' => finish_search s'
    end
  end.

Fixpoint skip_space (s : list N) : list N * list N :=
  match s with
  | c :: r => if py_isspace c then let '(sp, rest) := skip_space r in (c :: sp, rest)
              else ([], s)
  | [] => ([], [])
  end.

Definition error_key : list N := [quote] ++ lit "error" ++ [quote].

(** [error_pattern] anchored at the head of [s]: a brace, whitespace, the
    quoted word error, then up to the first closing brace (newlines
    included).  Returns group 1. *)
Definition match_error_at (s : list N) : option (list N) :=
  match s with
  | b :: r =>
    if b =? 123 then
      let '(sp, r1) := skip_space r in
      if startswith error_key r1 then
        match find_lazy true [125] (drop (length error_key) r1) with
        | Some (m, _) => Some (b :: sp ++ error_key ++ m)
        | None => None
        end
      else None
    else None
  | [] => None
  end.

Fixpoint error_search (s : list N) : option (list N) :=
  match match_error_at s with
  | Some g => Some g
  | None =>
    match s with
    | [] => None
    | _ :: s' => error_search s'
    end
  end.

(** Case-insensitive literal patterns with wildcards, for the two
    [cloudflare_patterns]. *)
Inductive pat_item :=
| PChar (c : N)
| PAny.

Definition ascii_lower (c : N) : N := if (65 <=? c) && (c <=? 90) then c + 32 else c.

(** The case class of a character under [re.IGNORECASE], as far as the
    ASCII letters are concerned: besides the two cases of a letter, the
    dotted capital I and the dotless i match i, the long s matches s and the
    Kelvin sign matches k. *)
Definition ci_fold (c : N) : N :=
  if (c =? 304) || (c =? 305) then 105
  else if c =? 383 then 115
  else if c =? 8490 then 107
  else ascii_lower c.

Definition pat_item_match (p : pat_item) (c : N) : bool :=
  match p with
  | PChar x => ci_fold x =? ci_fold c
  | PAny => negb (c =? 10)
  end.

Fixpoint match_pat_at (p : list pat_item) (s : list N) : bool :=
  match p, s with
  | [], _ => true
  | x :: p', c :: s' => pat_item_match x c && match_pat_at p' s'
  | _ :: _, [] => false
  end.

Fixpoint pat_search (p : list pat_item) (s : list N) : bool :=
  match_pat_at p s ||
  match s with
  | [] => false
  | _ :: s' => pat_search p s'
  end.

(** A pattern source in which the only special character is the dot. *)
Definition pat_of (src : list N) : list pat_item :=
  map (fun c => if c =? 46 then PAny else PChar c) src.

Definition cloudflare_patterns : list (list pat_item) :=
  [pat_of (lit "<title>Just a moment...</title>");
   pat_of (lit "Enable JavaScript and cookies to continue")].

Definition cloudflare_detected (text : list N) : bool :=
  existsb (fun p => pat_search p text) cloudflare_patterns.

Inductive event :=
| EvContent (text : list N)
| EvFinish (reason : json)
| EvError (data : json).

(** Why [_process_lmarena_stream] stopped reading its queue. *)
Inductive stop :=
| StopDone            (* the [DONE] marker: the break out of the loop *)
| StopRateLimit       (* return after a rotation or fallback notice *)
| StopSwitch          (* return after an auto-claude model switch *)
| StopError           (* return after an error event *)
| StopTimeout         (* the queue gave nothing within the timeout *)
| StopNoChannel       (* no queue registered for the request *)
| StopRaised (e : exn).

Inductive step :=
| Continue (buffer : list N)
| Stop (why : stop).

Definition DONE_MARK : list N := lit "[DONE]".
Definition reason_stop : json := JStr (lit "stop").

Definition fallback_message : list N :=
  lit "🔄 He detectado un límite de velocidad, pero no pude identificar el modelo específico para rotar automáticamente. Por favor, reintenta tu solicitud en unos minutos.".

Definition cloudflare_message : list N :=
  lit "Se detectó la página de verificación humana de Cloudflare. Actualice la página de LMArena en su navegador y complete la verificación manualmente, luego vuelva a intentar la solicitud.".

Definition attachment_too_large_message : list N :=
  lit "Error de carga: El tamaño del adjunto excede el límite del servidor de LMArena (generalmente alrededor de 5 MB). Intente comprimir el archivo o cargar un archivo más pequeño.".

(** The block that follows each of the three rate-limit detections:
    rotate the pool of the model if it is known, and answer with a notice
    and a stop. *)
Definition rate_limit_reply (model_name : option (list N)) (w : World)
  : (list event * step) * World :=
  match model_name with
  | Some (c :: m) =>
    match rotate_model_session (c :: m) w with
    | (Return rotation_success, w1) =>
      (([EvContent (generate_rotation_message (c :: m) rotation_success);
         EvFinish reason_stop], Stop StopRateLimit), w1)
    | (Raised e, w1) => (([], Stop (StopRaised e)), w1)
    end
  | _ => (([EvContent fallback_message; EvFinish reason_stop], Stop StopRateLimit), w)
  end.

(** The browser is asked to reload when a Cloudflare page is seen. *)
Definition send_refresh (w : World) : World :=
  match browser_ws w with
  | Some ws => emit (WsSend ws (MsgCommand (lit "refresh"))) w
  | None => w
  end.

(** The first catalogue name, in insertion order, mapped to [model_id]. *)
Fixpoint name_of_model_id (model_id : list N) (catalog : list (list N * list N))
  : option (list N) :=
  match catalog with
  | [] => None
  | (name, mapped_id) :: rest =>
    if str_eqb mapped_id model_id then Some name else name_of_model_id model_id rest
  end.

(** What one pass of the [while] loop over [text_pattern] found. *)
Inductive text_loop_end :=
| Drained (buffer : list N)
| RateLimited.

(** The [while (match := text_pattern.search(buffer))] loop: the decoded
    fragments yielded, in order, and how the loop ended.  A match is at
    least five characters long, so the buffer shrinks at every turn and its
    length bounds the number of turns. *)
Fixpoint text_loop (fuel : nat) (buffer : list N) : list event * text_loop_end :=
  match fuel with
  | O => ([], Drained buffer)
  | S f =>
    match text_search buffer with
    | None => ([], Drained buffer)
    | Some (group, rest) =>
      match json_loads ([quote] ++ group ++ [quote]) with
      | Some (JStr (c :: t)) =>
        if detect_rate_limit_error (c :: t) then ([], RateLimited)
        else let '(evs, e) := text_loop f rest in (EvContent (c :: t) :: evs, e)
      | _ => text_loop f rest
      end
    end
  end.

Definition sse_warning : list N :=
  nl ++ nl ++ lit "La respuesta fue terminada, posiblemente debido al límite de contexto o a la censura interna del modelo (muy probable).".

(** The chunks of the event stream of one response.  The [id], [created]
    and [model] fields, equal in all chunks of a response, are left out;
    [ChunkFinish] stands for the finish chunk together with the terminator
    line that [format_openai_finish_chunk] appends to it. *)
Inductive sse_chunk :=
| ChunkContent (delta : content)
| ChunkFinish (finish_reason : json).

Definition format_openai_chunk (c : content) : sse_chunk := ChunkContent c.
Definition format_openai_finish_chunk (reason : json) : sse_chunk := ChunkFinish reason.
Definition format_openai_error_chunk (error_message : list N) : sse_chunk :=
  format_openai_chunk (ContentStr (nl ++ nl ++ lit "[Error del Puente LMArena]: " ++ error_message)).

Definition content_truthy (c : content) : bool :=
  match c with
  | ContentStr (_ :: _) => true
  | ContentParts (_ :: _) => true
  | _ => false
  end.

Definition json_is_str (v : json) (s : list N) : bool :=
  match v with
  | JStr t => str_eqb t s
  | _ => false
  end.

Section Parser.
Context `{PyLib}.

(** [str(data)] of an event payload. *)
Definition str_of_data (data : json) : list N :=
  match data with
  | JStr s => s
  | v => py_str v
  end.

Definition frame_text (raw_data : frame) : list N :=
  match raw_data with
  | FrameStr s => s
  | FrameList l => concat l
  | FrameDict _ => []
  end.

(** The part of the loop body for a rate-limit signal of the userscript. *)
Definition on_rate_limit_signal (request_id : list N) (raw_data : control) (w : World)
  : (list event * step) * World :=
  match AUTO_CLAUDE_ACTIVE_REQUESTS w !! request_id with
  | Some (c :: m) =>
    let current_model := c :: m in
    let w1 := disable_model_for_auto_claude current_model w in
    let '(next_model, w2) := get_best_available_claude_model w1 in
    let w3 := set_AUTO_CLAUDE_ACTIVE_REQUESTS
                (<[request_id := next_model]> (AUTO_CLAUDE_ACTIVE_REQUESTS w2)) w2 in
    let notice := EvContent (lit "🔄 **Auto-Claude:** Límite de velocidad detectado para '" ++
                             current_model ++ lit "'. Cambiando a '" ++ next_model ++ lit "'...") in
    let '((new_session_id, new_message_id, _, _), w4) :=
      get_current_session_ids (Some next_model) w3 in
    let new_model_id := catalog_get next_model (MODEL_NAME_TO_ID_MAP w4) in
    match browser_ws w4 with
    | Some ws =>
      (([notice], Stop StopSwitch),
       emit (WsSend ws (MsgSwitchModel request_id (pool_value_str <$> new_session_id)
                          (pool_value_str <$> new_message_id) new_model_id)) w4)
    | None =>
      (([notice;
         EvError (JStr (lit "No se pudo cambiar de modelo automáticamente porque el navegador no está conectado."))],
        Stop StopSwitch), w4)
    end
  | _ =>
    let detected_model_name :=
      match ctl_model_id raw_data with
      | Some (c :: m) => name_of_model_id (c :: m) (MODEL_NAME_TO_ID_MAP w)
      | _ => None
      end in
    match detected_model_name with
    | Some (c :: m) => rate_limit_reply (Some (c :: m)) w
    | _ => (([EvContent fallback_message; EvFinish reason_stop], Stop StopRateLimit), w)
    end
  end.

(** The part of the loop body for a control object with an [error] key. *)
Definition on_error_object (error_msg : json) (w : World) : (list event * step) * World :=
  match error_msg with
  | JStr msg =>
    if str_in (lit "413") msg || str_in (lit "too large") (str_lower msg)
    then (([EvError (JStr attachment_too_large_message)], Stop StopError), w)
    else if cloudflare_detected msg
    then (([EvError (JStr cloudflare_message)], Stop StopError), send_refresh w)
    else (([EvError error_msg], Stop StopError), w)
  | _ => (([EvError error_msg], Stop StopError), w)
  end.

(** The part of the loop body that follows [buffer += ...]. *)
Definition on_text (model_name : option (list N)) (buffer : list N) (w : World)
  : (list event * step) * World :=
  if detect_rate_limit_error buffer then rate_limit_reply model_name w
  else if cloudflare_detected buffer
  then (([EvError (JStr cloudflare_message)], Stop StopError), send_refresh w)
  else
    match error_search buffer ≫= json_loads with
    | Some (JObj error_json) =>
      (([EvError (default (JStr (lit "Error desconocido de LMArena"))
                          (obj_get (lit "error") error_json))], Stop StopError), w)
    | _ =>
      match text_loop (length buffer) buffer with
      | (contents, RateLimited) =>
        let '((evs, st), w1) := rate_limit_reply model_name w in (contents ++ evs, st, w1)
      | (contents, Drained buffer1) =>
        match finish_search buffer1 with
        | None => ((contents, Continue buffer1), w)
        | Some (group, buffer2) =>
          match json_loads group with
          | Some (JObj finish_data) =>
            ((contents ++ [EvFinish (default reason_stop (obj_get (lit "finishReason") finish_data))],
              Continue buffer2), w)
          | _ => ((contents, Continue buffer2), w)
          end
        end
      end
    end.

(** One pass of the [while True] loop on the item [raw_data] of the queue. *)
Definition process_frame (request_id : list N) (model_name : option (list N))
    (buffer : list N) (raw_data : frame) (w : World) : (list event * step) * World :=
  match raw_data with
  | FrameDict d =>
    if rate_limit_detected d then on_rate_limit_signal request_id d w
    else
      match ctl_error d with
      | Some error_msg => on_error_object error_msg w
      | None => (([], Stop (StopRaised TypeError)), w)   (* buffer += dict *)
      end
  | FrameStr s =>
    if str_eqb s DONE_MARK then (([], Stop StopDone), w)
    else on_text model_name (buffer ++ s) w
  | FrameList l => on_text model_name (buffer ++ concat l) w
  end.

(** The [while True] loop, fed with the items its queue delivers in order;
    when they run out the wait times out. *)
Fixpoint parser_loop (request_id : list N) (model_name : option (list N)) (timeout : Z)
    (buffer : list N) (frames : list frame) (w : World) : (list event * stop) * World :=
  match frames with
  | [] =>
    (([EvError (JStr (lit "La respuesta expiró después de " ++ str_of_Z timeout ++
                      lit " segundos."))], StopTimeout), w)
  | raw_data :: rest =>
    match process_frame request_id model_name buffer raw_data w with
    | ((evs, Stop why), w1) => ((evs, why), w1)
    | ((evs, Continue buffer1), w1) =>
      let '((evs', why), w2) := parser_loop request_id model_name timeout buffer1 rest w1 in
      ((evs ++ evs', why), w2)
    end
  end.

(** The [finally] clause of the parser. *)
Definition parser_finally (request_id : list N) (w : World) : World :=
  set_AUTO_CLAUDE_ACTIVE_REQUESTS (delete request_id (AUTO_CLAUDE_ACTIVE_REQUESTS w))
    (set_response_channels (delete request_id (response_channels w)) w).

Definition _process_lmarena_stream (request_id : list N) (model_name : option (list N))
    (frames : list frame) (w : World) : (list event * stop) * World :=
  match response_channels w !! request_id with
  | None =>
    (([EvError (JStr (lit "Error interno del servidor: no se encontró el canal de respuesta."))],
      StopNoChannel), w)
  | Some _ =>
    let timeout := default 360%Z (cfg_stream_response_timeout_seconds (CONFIG w)) in
    let '(res, w1) := parser_loop request_id model_name timeout [] frames w in
    (res, parser_finally request_id w1)
  end.

(** The [async for] loop of [stream_generator] over the events: the chunks
    written, the finish reason recorded so far, and whether an error event
    ended the response. *)
Fixpoint stream_events (finish_reason_to_send : json) (events : list event)
  : list sse_chunk * json * bool :=
  match events with
  | [] => ([], finish_reason_to_send, false)
  | EvContent data :: rest =>
    let '(chunks, reason, errored) := stream_events finish_reason_to_send rest in
    (format_openai_chunk (ContentStr data) :: chunks, reason, errored)
  | EvFinish data :: rest =>
    let '(chunks, reason, errored) := stream_events data rest in
    (if json_is_str data (lit "content-filter")
     then format_openai_chunk (ContentStr sse_warning) :: chunks
     else chunks, reason, errored)
  | EvError data :: _ =>
    ([format_openai_error_chunk (str_of_data data); format_openai_finish_chunk reason_stop],
     finish_reason_to_send, true)
  end.

(** [stream_generator]: the chunks of the response, and the exception that
    cut it short if the parser raised one. *)
Definition stream_generator (request_id model : list N) (assistant_prefill : content)
    (frames : list frame) (w : World) : (list sse_chunk * option exn) * World :=
  let first := if content_truthy assistant_prefill
               then [format_openai_chunk assistant_prefill] else [] in
  let '((events, why), w1) := _process_lmarena_stream request_id (Some model) frames w in
  let '(chunks, finish_reason_to_send, errored) := stream_events reason_stop events in
  if errored then ((first ++ chunks, None), w1)
  else
    match why with
    | StopRaised e => ((first ++ chunks, Some e), w1)
    | _ => ((first ++ chunks ++ [format_openai_finish_chunk finish_reason_to_send], None), w1)
    end.

End Parser.

(** ** Payload translator *)

Definition DEFAULT_MODEL_ID : list N := lit "f44e280a-7914-43ca-a25d-ecfcc5d48d09".

(** [s.lstrip('.')] *)
Fixpoint lstrip_dots (s : list N) : list N :=
  match s with
  | c :: r => if c =? 46 then lstrip_dots r else s
  | [] => []
  end.

Section Translator.
Context `{PyLib}.

(** The attachment built from one [image_url] part whose URL is a data URI;
    [None] when the part is dropped.  [draw] numbers the random draws. *)
Definition attachment_of (url : list N) (original_filename : option (list N)) (draw : nat)
  : option attachment * nat :=
  (* url.split(';')[0].split(':')[1]; the URL starts with data: so both
     indexings succeed *)
  let content_type := default [] (str_split 58 (default [] (head (str_split 59 url))) !! 1%nat) in
  match original_filename with
  | Some (c :: n) =>
    (Some {| att_name := c :: n; att_contentType := content_type; att_url := url |}, draw)
  | _ =>
    let parts := if str_in [47] content_type
                 then str_split 47 content_type
                 else [lit "application"; lit "octet-stream"] in
    match parts with
    | [main_type; sub_type] =>
      let prefix := if str_eqb main_type (lit "image") then lit "image"
                    else if str_eqb main_type (lit "audio") then lit "audio"
                    else lit "file" in
      let file_extension :=
        match guess_extension content_type with
        | Some (c :: e) => lstrip_dots (c :: e)
        | _ => if (length sub_type <? 20)%nat then sub_type else lit "bin"
        end in
      (Some {| att_name := prefix ++ lit "_" ++ uuid4 draw ++ lit "." ++ file_extension;
               att_contentType := content_type; att_url := url |}, S draw)
    | _ => (None, draw)   (* ValueError on unpacking, caught *)
    end
  end.

(** The [for part in content] loop: text parts and attachments, in order. *)
Fixpoint process_parts (parts : list part) (draw : nat)
  : (list (list N) * list attachment) * nat :=
  match parts with
  | [] => (([], []), draw)
  | p :: rest =>
    match p with
    | PartText text =>
      let '((texts, atts), d) := process_parts rest draw in
      ((default [] text :: texts, atts), d)
    | PartImage (Some url) detail =>
      if startswith (lit "data:") url then
        let '(att, d1) := attachment_of url detail draw in
        let '((texts, atts), d2) := process_parts rest d1 in
        ((texts, match att with Some a => a :: atts | None => atts end), d2)
      else process_parts rest draw
    | _ => process_parts rest draw
    end
  end.

Definition _process_openai_message (m : message) (draw : nat) : processed_message * nat :=
  let '((text_content, attachments), d) :=
    match msg_content m with
    | Some (ContentParts parts) =>
      let '((texts, atts), d) := process_parts parts draw in
      ((str_join (nl ++ nl) texts, atts), d)
    | Some (ContentStr s) => ((s, []), draw)
    | _ => (([], []), draw)
    end in
  let text_content :=
    if str_eqb (role m) (lit "user") && strip_is_empty text_content then lit " "
    else if str_eqb (role m) (lit "assistant") && strip_is_empty text_content then []
    else text_content in
  ({| pm_role := role m; pm_content := text_content; pm_attachments := attachments |}, d).

Fixpoint process_messages (messages : list message) (draw : nat)
  : list processed_message * nat :=
  match messages with
  | [] => ([], draw)
  | m :: rest =>
    let '(pm, d1) := _process_openai_message m draw in
    let '(pms, d2) := process_messages rest d1 in
    (pm :: pms, d2)
  end.

Definition normalize_role (m : message) : message :=
  if str_eqb (role m) (lit "developer")
  then {| role := lit "system"; msg_content := msg_content m |}
  else m.

Definition is_system (r : list N) : bool := str_eqb r (lit "system").

(** Step 6 of the translation: the position of one template. *)
Definition assign_position (mode target_participant : list N) (t : template) : template :=
  {| t_role := t_role t; t_content := t_content t; t_attachments := t_attachments t;
     participantPosition :=
       Some (if is_system (t_role t)
             then (if str_eqb mode (lit "battle") then target_participant else lit "b")
             else if str_eqb mode (lit "battle") then target_participant
             else lit "a") |}.

(** The template that bypass mode appends. *)
Definition bypass_template : template :=
  {| t_role := lit "user"; t_content := lit " "; t_attachments := [];
     participantPosition := Some (lit "a") |}.

(** The block of step 1 that deals with a trailing assistant message: the
    messages that go on to the translation, and the prefill. *)
Definition extract_assistant_prefill (assistant_prefill_enabled : bool)
    (messages : list message) : list message * content :=
  let last_is_assistant :=
    match last messages with
    | Some m => str_eqb (role m) (lit "assistant")
    | None => false
    end in
  if assistant_prefill_enabled && last_is_assistant then
    (* messages.pop(); assistant_msg.get("content", "") *)
    (removelast messages,
     match last messages ≫= msg_content with
     | Some c => c
     | None => ContentStr []
     end)
  else if negb assistant_prefill_enabled && last_is_assistant then
    (removelast messages ++
     match last messages with
     | Some m => [{| role := lit "user"; msg_content := msg_content m |}]
     | None => []
     end, ContentStr [])
  else (messages, ContentStr []).

(** The translation from the processing of the messages on (the rest of
    step 1 and steps 2 to 6). *)
Definition build_payload (openai_data : openai_request) (messages : list message)
    (assistant_prefill_content : content)
    (session_id message_id : pool_value) (mode_override battle_target_override : option pool_value)
    (is_auto : bool) (w : World) : outcome payload * World :=
  match assistant_prefill_content with
  | ContentNull => (Raised TypeError, w)   (* the log line slices the prefill *)
  | _ =>
    let '(processed_messages, draws) := process_messages messages (random_draws w) in
    let w1 := set_random_draws draws w in
    (* 2. tavern mode *)
    let processed_messages :=
      if cfg_tavern_mode_enabled (CONFIG w) then
        let system_prompts :=
          map pm_content (filter (fun m => is_system (pm_role m)) processed_messages) in
        let other_messages := filter (fun m => negb (is_system (pm_role m))) processed_messages in
        let merged_system_prompt := str_join (nl ++ nl) system_prompts in
        match merged_system_prompt with
        | [] => other_messages
        | _ => {| pm_role := lit "system"; pm_content := merged_system_prompt;
                  pm_attachments := [] |} :: other_messages
        end
      else processed_messages in
    (* 3. target model *)
    let model_name := default (lit "claude-3-5-sonnet-20241022") (req_model openai_data) in
    let target := default DEFAULT_MODEL_ID (catalog_get model_name (MODEL_NAME_TO_ID_MAP w)) in
    (* 4. templates *)
    let templates :=
      map (fun m => {| t_role := pm_role m; t_content := pm_content m;
                       t_attachments := pm_attachments m; participantPosition := None |})
          processed_messages in
    (* 5. bypass mode *)
    let templates :=
      if cfg_bypass_enabled (CONFIG w) then templates ++ [bypass_template] else templates in
    (* 6. participant positions; a mode that is not a string is no battle *)
    let mode :=
      if pool_value_truthy mode_override then default (VStr []) mode_override
      else VStr (default (lit "direct_chat") (cfg_id_updater_last_mode (CONFIG w))) in
    let target_participant :=
      if pool_value_truthy battle_target_override then default (VStr []) battle_target_override
      else VStr (default (lit "A") (cfg_id_updater_battle_target (CONFIG w))) in
    match target_participant with
    | VInt _ => (Raised AttributeError, w1)   (* int has no lower() *)
    | VStr tp =>
      let mode_str := match mode with VStr s => s | VInt _ => [] end in
      (Return {| message_templates := map (assign_position mode_str (str_lower tp)) templates;
                 target_model_id := target;
                 pl_session_id := session_id;
                 pl_message_id := message_id;
                 assistant_prefill := assistant_prefill_content;
                 is_auto_claude := is_auto |}, w1)
    end
  end.

Definition convert_openai_to_lmarena_payload (openai_data : openai_request)
    (session_id message_id : pool_value) (mode_override battle_target_override : option pool_value)
    (is_auto : bool) (w : World) : outcome payload * World :=
  (* 1. roles, prefill *)
  let messages := map normalize_role (req_messages openai_data) in
  let assistant_prefill_enabled := default true (cfg_assistant_prefill_enabled (CONFIG w)) in
  let '(messages, assistant_prefill_content) :=
    extract_assistant_prefill assistant_prefill_enabled messages in
  build_payload openai_data messages assistant_prefill_content
    session_id message_id mode_override battle_target_override is_auto w.

End Translator.

(** ** Multiplexer: the browser websocket *)

(** What the loop of [websocket_endpoint] reads from the socket. *)
Record ws_inbound := {
  in_request_id : option (list N);
  in_data : option frame
}.

Definition disconnect_sentinel : frame :=
  FrameDict {| rate_limit_detected := false; ctl_model_id := None;
               ctl_error := Some (JStr (lit "El navegador se desconectó durante la operación")) |}.

(** [queue.put(item)] on the queue object [q]. *)
Definition queue_put (q : nat) (item : frame) (qs : gmap nat (list frame))
  : gmap nat (list frame) :=
  alter (fun items => items ++ [item]) q qs.

(** The head of [websocket_endpoint]: the new socket takes the slot, with a
    warning in the log when a socket was already there. *)
Definition websocket_accept (websocket : nat) (w : World) : World :=
  set_browser_ws (Some websocket) w.

(** One pass of the receive loop. *)
Definition websocket_receive (message : ws_inbound) (w : World) : World :=
  match in_request_id message, in_data message with
  | Some (c :: r), Some data =>
    match response_channels w !! (c :: r) with
    | Some q => set_queues (queue_put q data (queues w)) w
    | None => w
    end
  | _, _ => w
  end.

(** The [finally] clause, run when the handler of a socket ends. *)
Definition websocket_finally (w : World) : World :=
  let w1 := set_browser_ws None w in
  let qs := foldr (fun q acc => queue_put q disconnect_sentinel acc) (queues w1)
                  (map snd (map_to_list (response_channels w1))) in
  set_response_channels ∅ (set_queues qs w1).

(** ** Request orchestrator *)

Record http_request := {
  authorization : option (list N);
  body : option openai_request
}.

Inductive response :=
| HTTPException (status_code : nat) (detail : list N)
| HTTPExceptionOf (status_code : nat) (e : exn)     (* detail=str(e) *)
| UnhandledException (e : exn)
| JSONResponse (status_code : nat) (message : list N)
| ModelList (ids : list (list N))
| StreamingResponse (request_id model : list N) (prefill : content)
| NonStreamingResponse (request_id model : list N) (prefill : content).

(** [load_config]: [CONFIG] becomes what config.jsonc holds, or the empty
    dictionary when the file is missing or does not parse. *)
Definition load_config (w : World) : World :=
  set_CONFIG (default empty_config (config_jsonc w)) w.

(** [get_api_key_from_header]; [None] is its HTTPException. *)
Definition get_api_key_from_header (request : http_request) : option (list N) :=
  match authorization request with
  | Some auth_header =>
    if startswith (lit "Bearer ") auth_header
    then str_split 32 auth_header !! 1%nat
    else None
  | None => None
  end.

Definition keys_configured (w : World) : bool :=
  truthy_str (cfg_api_key (CONFIG w)) || negb (bool_decide (API_KEYS_DATA w = ∅)).

Definition browser_not_connected : list N :=
  lit "El cliente del script de Tampermonkey no está conectado. Asegúrese de que la página de LMArena esté abierta y el script activado.".

Definition no_key_provided : list N :=
  lit "No se proporcionó una clave de API. Por favor, proporciónela en la cabecera de Autorización en formato 'Bearer SU_CLAVE'.".

Definition invalid_ids : list N :=
  lit "El ID de sesión o el ID de mensaje finalmente determinados son inválidos. Verifique la configuración en 'model_endpoint_map.json' y 'config.jsonc', o ejecute `id_updater.py` para actualizar los valores por defecto.".

Definition is_VStr_with (p : list N) (v : option pool_value) : bool :=
  match v with
  | Some (VStr s) => str_in p s
  | _ => false
  end.

Section Orchestrator.
Context `{PyLib}.

(** The handler from the browser check to the response, for an
    authenticated call. *)
Definition dispatch (openai_req : openai_request) (w : World) : response * World :=
  match browser_ws w with
  | None => (HTTPException 503 browser_not_connected, w)
  | Some ws =>
    let request_id := uuid4 (random_draws w) in
    let w := set_random_draws (S (random_draws w)) w in
    let '(model_name, is_auto, w) :=
      if bool_decide (req_model openai_req = Some (lit "auto-claude")) then
        let '(model, w1) := get_best_available_claude_model w in
        (Some model, true,
         set_AUTO_CLAUDE_ACTIVE_REQUESTS (<[request_id := model]> (AUTO_CLAUDE_ACTIVE_REQUESTS w1)) w1)
      else (req_model openai_req, false, w) in
    let '((session_id, message_id, mode_override, battle_target_override), w) :=
      get_current_session_ids model_name w in
    let resolved :=
      if negb (pool_value_truthy session_id) then
        if default true (cfg_use_default_ids_if_mapping_not_found (CONFIG w))
        then inr (VStr <$> cfg_session_id (CONFIG w), VStr <$> cfg_message_id (CONFIG w), None, None)
        else inl (HTTPException 400
                    (lit "El modelo '" ++ default (lit "None") model_name ++
                     lit "' no tiene un ID de sesión independiente configurado. Agregue un mapeo válido en 'model_endpoint_map.json' o habilite 'use_default_ids_if_mapping_not_found' en 'config.jsonc'."))
      else if is_VInt session_id then inl (UnhandledException TypeError)   (* the log line slices it *)
      else inr (session_id, message_id, mode_override, battle_target_override) in
    match resolved with
    | inl err => (err, w)
    | inr (session_id, message_id, mode_override, battle_target_override) =>
      if negb (pool_value_truthy session_id) || negb (pool_value_truthy message_id) ||
         is_VStr_with (lit "YOUR_") session_id
      then (HTTPException 400 invalid_ids, w)
      else if is_VInt message_id then (UnhandledException TypeError, w)
      else if is_VStr_with (lit "YOUR_") message_id then (HTTPException 400 invalid_ids, w)
      else
        let q := fresh (dom (queues w)) in
        let w := set_response_channels (<[request_id := q]> (response_channels w))
                   (set_queues (<[q := []]> (queues w)) w) in
        match convert_openai_to_lmarena_payload openai_req
                (default (VStr []) session_id) (default (VStr []) message_id)
                mode_override battle_target_override is_auto w with
        | (Raised e, w1) =>
          (HTTPExceptionOf 500 e,
           set_response_channels (delete request_id (response_channels w1)) w1)
        | (Return lmarena_payload, w1) =>
          let w2 := emit (WsSend ws (MsgRequest request_id lmarena_payload)) w1 in
          let model := match model_name with
                       | Some (c :: m) => c :: m
                       | _ => lit "default_model"
                       end in
          if default true (req_stream openai_req)
          then (StreamingResponse request_id model (assistant_prefill lmarena_payload), w2)
          else (NonStreamingResponse request_id model (assistant_prefill lmarena_payload), w2)
        end
    end
  end.

Definition chat_completions (request : http_request) (w : World) : response * World :=
  let '(t, w) := now w in
  let w := set_last_activity_time (Some t) w in
  let w := load_config w in
  match body request with
  | None => (HTTPException 400 (lit "Cuerpo de la solicitud JSON inválido"), w)
  | Some openai_req =>
    if keys_configured w then
      match get_api_key_from_header request with
      | None => (HTTPException 401 no_key_provided, w)
      | Some provided_key =>
        match validate_api_key provided_key (req_model openai_req) w with
        | KeyInvalid error => (HTTPException 401 error, w)
        | KeyValid _ => dispatch openai_req (increment_api_key_usage provided_key w)
        end
      end
    else dispatch openai_req w
  end.

Definition get_models (request : http_request) (w : World) : response * World :=
  match MODEL_NAME_TO_ID_MAP w with
  | [] => (JSONResponse 404 (lit "La lista de modelos está vacía o no se encontró 'models.json'."), w)
  | _ =>
    if keys_configured w then
      match get_api_key_from_header request with
      | None => (HTTPException 401 (lit "API key requerida para acceder a la lista de modelos."), w)
      | Some [] => (ModelList (catalog_names w), w)
      | Some api_key =>
        match get_models_for_api_key api_key w with
        | [] =>
          match validate_api_key api_key None w with
          | KeyInvalid error => (HTTPException 401 error, w)
          | KeyValid _ => (ModelList [], w)
          end
        | allowed_models => (ModelList allowed_models, w)
        end
      end
    else (ModelList (catalog_names w), w)
  end.

(** [non_stream_response]: the aggregated body, or the error response. *)
Inductive full_response :=
| Completion (content_text : list content) (finish_reason : json)
| BridgeError (status_code : nat) (data : json)
| Propagated (e : exn).

Fixpoint aggregate_events (finish_reason : json) (events : list event)
  : list content * json * option json :=
  match events with
  | [] => ([], finish_reason, None)
  | EvContent data :: rest =>
    let '(parts, reason, err) := aggregate_events finish_reason rest in
    (ContentStr data :: parts, reason, err)
  | EvFinish data :: rest =>
    let '(parts, reason, err) := aggregate_events data rest in
    (if json_is_str data (lit "content-filter") then ContentStr sse_warning :: parts else parts,
     reason, err)
  | EvError data :: _ => ([], finish_reason, Some data)
  end.

Definition non_stream_response (request_id model : list N) (assistant_prefill : content)
    (frames : list frame) (w : World) : full_response * World :=
  let first := if content_truthy assistant_prefill then [assistant_prefill] else [] in
  let '((events, why), w1) := _process_lmarena_stream request_id (Some model) frames w in
  match aggregate_events reason_stop events with
  | (_, _, Some data) =>
    (BridgeError (if str_in (lit "El tamaño del adjunto excede") (str_of_data data) then 413 else 500)%nat
                 data, w1)
  | (parts, reason, None) =>
    match why, assistant_prefill with
    | StopRaised e, _ => (Propagated e, w1)
    | _, ContentParts (_ :: _) => (Propagated TypeError, w1)   (* join of a list *)
    | _, _ => (Completion (first ++ parts) reason, w1)
    end
  end.

End Orchestrator.

(** ** A runtime and a world for the examples *)

Definition example_lib : PyLib := {|
  str_lower := map ascii_lower;
  guess_extension := fun _ => None;
  uuid4 := fun n => lit "request-" ++ str_of_nat n;
  random_choice := fun _ _ => 0%nat;
  py_str := fun _ => lit "<value>"
|}.

Definition empty_world : World := {|
  CONFIG := empty_config;
  config_jsonc := None;
  API_KEYS_DATA := ∅;
  MODEL_NAME_TO_ID_MAP := [];
  MODEL_ENDPOINT_MAP := ∅;
  AUTO_CLAUDE_DISABLED_MODELS := ∅;
  AUTO_CLAUDE_ACTIVE_REQUESTS := ∅;
  browser_ws := None;
  response_channels := ∅;
  queues := ∅;
  last_activity_time := None;
  clock := fun _ => 0%Z;
  clock_reads := 0;
  random_draws := 0;
  effects := []
|}.

(** Writes a wire text with apostrophes in the place of double quotes. *)
Definition wire (s : string) : list N :=
  map (fun c => if c =? 39 then quote else c) (lit s).

(** ** Vocabulary of the properties *)

(** The mapping holds exactly [n] numbered pairs of string identifiers:
    pairs 0 to n-1 are there and pair n is not. *)
Definition numbered_pairs (m : gmap (list N) pool_value) (n : nat) : Prop :=
  (forall i, (i < n)%nat ->
     exists s t, m !! session_key (str_of_nat i) = Some (VStr s) /\
                 m !! message_key (str_of_nat i) = Some (VStr t)) /\
  has_pair m n = false.

(** The hint that the user-facing notice gives when nothing was rotated. *)
Definition add_endpoints_hint : list N :=
  lit "Considera agregar más session IDs de respaldo para este modelo".

(** The pool of scenario 3 of the specification: two pairs, cursor at 0. *)
Definition opus : list N := lit "claude-opus-4-20250514".

Definition two_pairs : gmap (list N) pool_value :=
  <[lit "current_index" := VInt 0]>
  (<[lit "session_id0" := VStr (lit "session-zero")]>
  (<[lit "message_id0" := VStr (lit "message-zero")]>
  (<[lit "session_id1" := VStr (lit "session-one")]>
  (<[lit "message_id1" := VStr (lit "message-one")]>
  (<[lit "mode" := VStr (lit "direct_chat")]> ∅))))).

Definition rotation_world : World :=
  set_MODEL_ENDPOINT_MAP {[ opus := PoolDict two_pairs ]} empty_world.

(** A world in which the seven models of the priority list are in the
    catalogue and all cooling down until time 100, read at time 50. *)
Definition cooled_world : World :=
  set_AUTO_CLAUDE_DISABLED_MODELS
    (list_to_map (map (fun m => (m, 100%Z)) AUTO_CLAUDE_PRIORITY))
    {| CONFIG := empty_config; config_jsonc := None; API_KEYS_DATA := ∅;
       MODEL_NAME_TO_ID_MAP := map (fun m => (m, lit "id-of-" ++ m)) AUTO_CLAUDE_PRIORITY;
       MODEL_ENDPOINT_MAP := ∅; AUTO_CLAUDE_DISABLED_MODELS := ∅;
       AUTO_CLAUDE_ACTIVE_REQUESTS := ∅; browser_ws := None; response_channels := ∅;
       queues := ∅; last_activity_time := None; clock := fun _ => 50%Z;
       clock_reads := 0; random_draws := 0; effects := [] |}.

(** The same catalogue and cooldowns, read at time 200. *)
Definition expired_world : World :=
  {| CONFIG := empty_config; config_jsonc := None; API_KEYS_DATA := ∅;
     MODEL_NAME_TO_ID_MAP := MODEL_NAME_TO_ID_MAP cooled_world;
     MODEL_ENDPOINT_MAP := ∅;
     AUTO_CLAUDE_DISABLED_MODELS := AUTO_CLAUDE_DISABLED_MODELS cooled_world;
     AUTO_CLAUDE_ACTIVE_REQUESTS := ∅; browser_ws := None; response_channels := ∅;
     queues := ∅; last_activity_time := None; clock := fun _ => 200%Z;
     clock_reads := 0; random_draws := 0; effects := [] |}.

Definition sonnet35 : list N := lit "claude-3-5-sonnet-20241022".


(** The cooldown of a model lasts through the selection started in [w]:
    no reading of the clock from now on is later than its expiry. *)
Definition cooling (w : World) (until : Z) : Prop :=
  forall k, (clock_reads w <= k)%nat -> (clock w k <= until)%Z.

(** The cooldown has run out: every reading from now on is later than
    the expiry. *)
Definition expired (w : World) (until : Z) : Prop :=
  forall k, (clock_reads w <= k)%nat -> (clock w k > until)%Z.

(** The claim that a cooling model is never what the selection returns. *)
Definition cooling_model_never_returned : Prop :=
  forall (w : World) (m : list N) (until : Z),
    AUTO_CLAUDE_DISABLED_MODELS w !! m = Some until -> cooling w until ->
    fst (get_best_available_claude_model w) <> m.


(** The world in which [chat_completions] examines a request: the
    activity time has been stamped and the configuration reloaded. *)
Definition entered (w : World) : World :=
  load_config (set_last_activity_time (Some (fst (now w))) (snd (now w))).

(** The call went through to the browser. *)
Definition dispatched (r : response) : Prop :=
  match r with
  | StreamingResponse _ _ _ | NonStreamingResponse _ _ _ => True
  | _ => False
  end.

(** The record of a key after one use at time [t]. *)
Definition used_once (key_data : KeyData) (t : Z) : KeyData :=
  {| kd_enabled := kd_enabled key_data;
     kd_usage_limit := kd_usage_limit key_data;
     kd_usage_count := Some (default 0%Z (kd_usage_count key_data) + 1)%Z;
     kd_models := kd_models key_data;
     kd_last_used := Some t |}.

(** The claim that an empty browser slot answers 503 whatever the bearer. *)
Definition empty_slot_always_503 : Prop :=
  forall (lib : PyLib) (request : http_request) (w : World),
    browser_ws w = None ->
    exists detail w', chat_completions request w = (HTTPException 503 detail, w').

(** A world whose configuration file sets a global key, with no browser. *)
Definition keyed_world : World :=
  {| CONFIG := empty_config;
     config_jsonc := Some {| cfg_api_key := Some (lit "sk-global");
                             cfg_assistant_prefill_enabled := None;
                             cfg_tavern_mode_enabled := false;
                             cfg_bypass_enabled := false;
                             cfg_id_updater_last_mode := None;
                             cfg_id_updater_battle_target := None;
                             cfg_use_default_ids_if_mapping_not_found := None;
                             cfg_session_id := Some (lit "session-global");
                             cfg_message_id := Some (lit "message-global");
                             cfg_stream_response_timeout_seconds := None |};
     API_KEYS_DATA := {[ lit "sk-managed" :=
                           {| kd_enabled := Some true; kd_usage_limit := Some 2%Z;
                              kd_usage_count := Some 1%Z; kd_models := [];
                              kd_last_used := None |} ]};
     MODEL_NAME_TO_ID_MAP := [(sonnet35, lit "id-sonnet")];
     MODEL_ENDPOINT_MAP := ∅; AUTO_CLAUDE_DISABLED_MODELS := ∅;
     AUTO_CLAUDE_ACTIVE_REQUESTS := ∅; browser_ws := None; response_channels := ∅;
     queues := ∅; last_activity_time := None; clock := fun _ => 7%Z;
     clock_reads := 0; random_draws := 0; effects := [] |}.

Definition hi_request : openai_request :=
  {| req_model := Some sonnet35;
     req_messages := [{| role := lit "user"; msg_content := Some (ContentStr (lit "hi")) |}];
     req_stream := Some true |}.


(** The claim that a socket taking the place of another one clears the slot
    and leaves the sentinel on every registered queue. *)
Definition replacement_notifies_channels : Prop :=
  forall (w : World) (old new : nat) (rid : list N) (q : nat),
    browser_ws w = Some old -> response_channels w !! rid = Some q ->
    let w' := websocket_accept new w in
    browser_ws w' = None /\
    exists items, queues w' !! q = Some (items ++ [disconnect_sentinel]).

(** One request in flight on socket 1, its queue still empty. *)
Definition connected_world : World :=
  set_browser_ws (Some 1%nat)
    (set_response_channels {[ lit "request-0" := 0%nat ]}
       (set_queues {[ 0%nat := [] ]} empty_world)).


(** The chunks of a streamed response. *)
Definition chunks_of (r : (list sse_chunk * option exn) * World) : list sse_chunk :=
  fst (fst r).


(** A world with one registered request, [request-0]. *)
Definition streaming_world : World :=
  set_response_channels {[ lit "request-0" := 0%nat ]}
    (set_queues {[ 0%nat := [] ]} empty_world).

(** The mode and the target that step 6 of the translation works with. *)
Definition effective_mode (mode_override : option pool_value) (w : World) : list N :=
  if pool_value_truthy mode_override
  then match mode_override with Some (VStr s) => s | _ => [] end
  else default (lit "direct_chat") (cfg_id_updater_last_mode (CONFIG w)).

Definition effective_target (battle_target_override : option pool_value) (w : World)
  : pool_value :=
  if pool_value_truthy battle_target_override then default (VStr []) battle_target_override
  else VStr (default (lit "A") (cfg_id_updater_battle_target (CONFIG w))).

(** Bypass mode on, battle mode with target B, as id_updater leaves it in
    the configuration. *)
Definition battle_b_config : Config :=
  {| cfg_api_key := None;
     cfg_assistant_prefill_enabled := None;
     cfg_tavern_mode_enabled := false;
     cfg_bypass_enabled := true;
     cfg_id_updater_last_mode := Some (lit "battle");
     cfg_id_updater_battle_target := Some (lit "B");
     cfg_use_default_ids_if_mapping_not_found := None;
     cfg_session_id := Some (lit "session-global");
     cfg_message_id := Some (lit "message-global");
     cfg_stream_response_timeout_seconds := None |}.

Definition battle_b_world : World := set_CONFIG battle_b_config empty_world.

(** The sentinel turn with a given position. *)
Definition sentinel_at (pos : list N) : template :=
  {| t_role := lit "user"; t_content := lit " "; t_attachments := [];
     participantPosition := Some pos |}.


(** The finish reason recorded last among the events, [reason] when there
    is none. *)
Fixpoint last_finish (reason : json) (events : list event) : json :=
  match events with
  | [] => reason
  | EvFinish r :: rest => last_finish r rest
  | _ :: rest => last_finish reason rest
  end.

Definition is_error_event (e : event) : bool :=
  match e with
  | EvError _ => true
  | _ => false
  end.

(** The checks of the loop body that end the parser on a text buffer: the
    rate-limit markers in the buffer or in a decoded fragment, a Cloudflare
    page, an error object that decodes. *)
Definition text_stops (buffer : list N) : bool :=
  detect_rate_limit_error buffer || cloudflare_detected buffer ||
  match error_search buffer ≫= json_loads with
  | Some (JObj _) => true
  | _ => false
  end ||
  match text_loop (length buffer) buffer with
  | (_, RateLimited) => true
  | _ => false
  end.

(** The claim that the closing chunk of every streamed response carries the
    finish reason recorded last. *)
Definition final_chunk_always_last_recorded : Prop :=
  forall (lib : PyLib) (rid model : list N) (prefill : content) (frames : list frame)
         (w : World) (r : json),
    last (chunks_of (stream_generator rid model prefill frames w)) = Some (ChunkFinish r) ->
    r = last_finish reason_stop (fst (fst (_process_lmarena_stream rid (Some model) frames w))).

Definition error_frame (msg : list N) : frame :=
  FrameDict {| rate_limit_detected := false; ctl_model_id := None;
               ctl_error := Some (JStr msg) |}.


(** *** The shape of a content stream on the wire *)

(** A content line: the lane letter and the JSON-encoded fragment that
    stands between the quotes. *)
Record content_line := {
  lane : N;
  encoded : list N
}.

(** [e] is a run of body tokens of [text_pattern] from end to end. *)
Definition is_body (e : list N) : bool :=
  match snd (scan_body e) with
  | [] => true
  | _ => false
  end.

Definition valid_line (l : content_line) : Prop :=
  is_lane (lane l) = true /\ is_body (encoded l) = true.

Definition render_line (l : content_line) : list N :=
  lane l :: [48; 58; quote] ++ encoded l ++ [quote].

(** The upstream body: the lines, each followed by a newline. *)
Definition wire_of (lines : list content_line) : list N :=
  flat_map (fun l => render_line l ++ nl) lines.

(** The text a line carries: its fragment decoded by the JSON string
    rules, nothing when it does not decode. *)
Definition decoded (l : content_line) : list N :=
  match json_loads ([quote] ++ encoded l ++ [quote]) with
  | Some (JStr t) => t
  | _ => []
  end.

Definition decoded_text (lines : list content_line) : list N :=
  flat_map decoded lines.

(** The content events of the lines: one for each line whose text is not
    empty. *)
Definition content_events (lines : list content_line) : list event :=
  flat_map (fun l => match decoded l with
                     | [] => []
                     | t => [EvContent t]
                     end) lines.

(** A string or a list of strings that is not the end marker. *)
Definition is_text_frame (f : frame) : bool :=
  match f with
  | FrameStr s => negb (str_eqb s DONE_MARK)
  | FrameList _ => true
  | FrameDict _ => false
  end.

(** What the buffer holds once all the lines have been consumed: the
    newline after the last one. *)
Definition leftover (lines : list content_line) : list N :=
  match lines with
  | [] => []
  | _ => nl
  end.

(** The text of a delta, for the concatenation of a response. *)
Definition delta_text (c : sse_chunk) : list N :=
  match c with
  | ChunkContent (ContentStr s) => s
  | _ => []
  end.

Definition response_text (chunks : list sse_chunk) : list N := flat_map delta_text chunks.

(** The parser reads [buffer] as a finish frame with reason [reason] and as
    nothing else. *)
Definition reads_as_finish (buffer : list N) (reason : json) : Prop :=
  text_stops buffer = false /\ text_search buffer = None /\
  exists group rest finish_data,
    finish_search buffer = Some (group, rest) /\
    json_loads group = Some (JObj finish_data) /\
    default reason_stop (obj_get (lit "finishReason") finish_data) = reason.

(** The places of a wire text, as an automaton: at the start of a line,
    inside its four-character head, between body tokens, after the backslash
    of an escape, after the closing quote.  With [closing] off the closing
    quote is not accepted: the text then ends inside a line. *)
Inductive place := AtLine | AfterLane | AfterZero | AfterColon | InBody | InEscape | AfterClose.

Definition wire_step (closing : bool) (st : place) (c : N) : option place :=
  match st with
  | AtLine => if is_lane c then Some AfterLane else None
  | AfterLane => if c =? 48 then Some AfterZero else None
  | AfterZero => if c =? 58 then Some AfterColon else None
  | AfterColon => if c =? quote then Some InBody else None
  | InBody => if c =? backslash then Some InEscape
              else if c =? quote then (if closing then Some AfterClose else None)
              else Some InBody
  | InEscape => if c =? 10 then None else Some InBody
  | AfterClose => if c =? 10 then Some AtLine else None
  end.

Fixpoint wire_run (closing : bool) (st : place) (s : list N) : option place :=
  match s with
  | [] => Some st
  | c :: r =>
    match wire_step closing st c with
    | Some st' => wire_run closing st' r
    | None => None
    end
  end.

(** The claim that the deltas of a content stream always concatenate to its
    decoded text. *)
Definition content_always_concatenates : Prop :=
  forall (lib : PyLib) (lines : list content_line) (frames : list frame)
         (rid model : list N) (w : World) (q : nat),
    Forall valid_line lines ->
    forallb is_text_frame frames = true ->
    flat_map frame_text frames = wire_of lines ->
    response_channels w !! rid = Some q ->
    response_text (chunks_of (stream_generator rid model (ContentStr [])
                                (frames ++ [FrameStr DONE_MARK]) w))
    = decoded_text lines.

(** How a response ends: with a finish frame [f] and the end marker, or
    with the end marker alone. *)
Definition closing_frames (fin : option (list N)) : list frame :=
  match fin with
  | Some f => [FrameStr f; FrameStr DONE_MARK]
  | None => [FrameStr DONE_MARK]
  end.

(** The finish reason [reason] that the ending [fin] of a response records
    after the lines [lines]: the one of the finish frame, read with what is
    left of the lines in the buffer; stop when there is no finish frame. *)
Definition closes_with (lines : list content_line) (fin : option (list N)) (reason : json)
  : Prop :=
  match fin with
  | Some f => str_eqb f DONE_MARK = false /\ reads_as_finish (leftover lines ++ f) reason
  | None => reason = reason_stop
  end.


(** ** id_updater.py: adding identifiers to the pool *)

(** [get_next_index_for_model]: the first index without a numbered pair,
    by the same loop as [get_available_session_count]. *)
Definition get_next_index_for_model (model_data : gmap (list N) pool_value) : nat :=
  session_count_loop (S (size model_data)) model_data 0.

(** [add_ids_to_model]: the index returned and the map as the call leaves
    it.  On a legacy list entry the membership tests of the loop are false
    and the first item assignment raises. *)
Definition add_ids_to_model (model_map : gmap (list N) pool_entry) (model_name : list N)
    (session_id message_id mode : pool_value) : outcome nat * gmap (list N) pool_entry :=
  match model_map !! model_name with
  | None =>
    (Return 0%nat,
     <[model_name := PoolDict (<[lit "session_id0" := session_id]>
                              (<[lit "message_id0" := message_id]>
                              (<[lit "mode" := mode]>
                              (<[lit "current_index" := VInt 0]> ∅))))]> model_map)
  | Some (PoolDict model_data) =>
    let next_index := get_next_index_for_model model_data in
    let model_data :=
      <[lit "mode" := mode]>
      (<[message_key (str_of_nat next_index) := message_id]>
      (<[session_key (str_of_nat next_index) := session_id]> model_data)) in
    (Return next_index, <[model_name := PoolDict model_data]> model_map)
  | Some (PoolList _) => (Raised TypeError, model_map)
  end.

(** ** api_server.py: the pool file at start-up *)


(** ** Administration panel *)

Record AdminSession := {
  created_at : Z;
  expires_at : Z
}.

(** The state that only the administration panel uses: the two keys of
    [CONFIG] that it reads, and [ADMIN_SESSIONS]. *)
Record AdminState := {
  cfg_admin_enabled : option bool;
  cfg_admin_password : option (list N);
  ADMIN_SESSIONS : gmap (list N) AdminSession
}.

Definition set_ADMIN_SESSIONS (v : gmap (list N) AdminSession) (st : AdminState) : AdminState :=
  {| cfg_admin_enabled := cfg_admin_enabled st;
     cfg_admin_password := cfg_admin_password st;
     ADMIN_SESSIONS := v |}.

(** Eight hours, in the unit of the clock (seconds). *)
Definition eight_hours : Z := 28800.

Definition verify_admin_password (password : list N) (st : AdminState) : bool :=
  match cfg_admin_password st with
  | Some (c :: p) => str_eqb password (c :: p)
  | _ => false
  end.

(** The two readings of the clock are those of the two entries of the
    dictionary, in order. *)
Definition create_admin_session (token : list N) (st : AdminState) (w : World)
  : AdminState * World :=
  let '(t1, w1) := now w in
  let '(t2, w2) := now w1 in
  (set_ADMIN_SESSIONS
     (<[token := {| created_at := t1; expires_at := (t2 + eight_hours)%Z |}]>
        (ADMIN_SESSIONS st)) st, w2).

Definition validate_admin_token (token : list N) (st : AdminState) (w : World)
  : bool * AdminState * World :=
  match token with
  | [] => (false, st, w)
  | _ =>
    match ADMIN_SESSIONS st !! token with
    | None => (false, st, w)
    | Some session =>
      let '(t, w1) := now w in
      if (t >? expires_at session)%Z
      then (false, set_ADMIN_SESSIONS (delete token (ADMIN_SESSIONS st)) st, w1)
      else (true, st, w1)
    end
  end.

Definition cleanup_expired_admin_sessions (st : AdminState) (w : World) : AdminState * World :=
  let '(t, w1) := now w in
  (set_ADMIN_SESSIONS
     (filter (fun kv : list N * AdminSession => ¬ (t > expires_at kv.2)%Z) (ADMIN_SESSIONS st))
     st, w1).

(** What the endpoints of the panel answer. *)
Inductive admin_response :=
| AdminDenied (status_code : nat) (detail : list N)        (* HTTPException *)
| AdminError (status_code : nat) (error : list N)          (* JSONResponse with an error *)
| AdminMessage (message : list N)                          (* JSONResponse with a message *)
| LoginOk (token : list N) (expires_in : Z).

(** [get_admin_token], the dependency of every endpoint under /admin/api:
    [credentials] is the bearer token of the request, if it has one. *)
Definition get_admin_token (credentials : option (list N)) (st : AdminState) (w : World)
  : (admin_response + list N) * AdminState * World :=
  match credentials with
  | None => (inl (AdminDenied 401 (lit "Token de autorización requerido")), st, w)
  | Some token =>
    let '(ok, st1, w1) := validate_admin_token token st w in
    if ok then (inr token, st1, w1)
    else (inl (AdminDenied 401 (lit "Token de administrador inválido o expirado")), st1, w1)
  end.

(** [admin_login].  [request_json] is [None] for a body that is not JSON,
    and otherwise the [password] of the object, a string when present;
    [token] is what [generate_admin_token] draws in this call. *)
Definition admin_login (request_json : option (option (list N))) (token : list N)
    (st : AdminState) (w : World) : admin_response * AdminState * World :=
  if negb (default true (cfg_admin_enabled st))
  then (AdminDenied 404 (lit "Panel de administración deshabilitado"), st, w)
  else
    match request_json with
    | None => (AdminError 400 (lit "JSON inválido"), st, w)
    | Some password =>
      if negb (truthy_str password)
      then (AdminError 400 (lit "Contraseña requerida"), st, w)
      else if negb (verify_admin_password (default [] password) st)
      then (AdminError 401 (lit "Contraseña incorrecta"), st, w)
      else
        let '(st1, w1) := cleanup_expired_admin_sessions st w in
        let '(st2, w2) := create_admin_session token st1 w1 in
        (LoginOk token 28800, st2, w2)
    end.

Definition toggle_api_key (key_id : list N) (credentials : option (list N))
    (st : AdminState) (w : World) : admin_response * AdminState * World :=
  match get_admin_token credentials st w with
  | (inl denied, st1, w1) => (denied, st1, w1)
  | (inr _, st1, w1) =>
    match API_KEYS_DATA w1 !! key_id with
    | None => (AdminError 404 (lit "API key no encontrada"), st1, w1)
    | Some key_data =>
      let current_status := default true (kd_enabled key_data) in
      let key_data' := {| kd_enabled := Some (negb current_status);
                          kd_usage_limit := kd_usage_limit key_data;
                          kd_usage_count := kd_usage_count key_data;
                          kd_models := kd_models key_data;
                          kd_last_used := kd_last_used key_data |} in
      let w2 := save_api_keys (set_API_KEYS_DATA (<[key_id := key_data']> (API_KEYS_DATA w1)) w1) in
      let new_status := if negb current_status then lit "habilitada" else lit "deshabilitada" in
      (AdminMessage (lit "API key " ++ new_status ++ lit " exitosamente"), st1, w2)
    end
  end.

Definition delete_api_key (key_id : list N) (credentials : option (list N))
    (st : AdminState) (w : World) : admin_response * AdminState * World :=
  match get_admin_token credentials st w with
  | (inl denied, st1, w1) => (denied, st1, w1)
  | (inr _, st1, w1) =>
    match API_KEYS_DATA w1 !! key_id with
    | None => (AdminError 404 (lit "API key no encontrada"), st1, w1)
    | Some _ =>
      let w2 := save_api_keys (set_API_KEYS_DATA (delete key_id (API_KEYS_DATA w1)) w1) in
      (AdminMessage (lit "API key eliminada exitosamente"), st1, w2)
    end
  end.

(** [l[start:stop]] for integers of either sign. *)
Definition slice_index (len i : Z) : Z :=
  if (i <? 0)%Z then Z.max 0 (len + i) else Z.min len i.

Definition py_slice {A : Type} (l : list A) (start stop : Z) : list A :=
  let len := Z.of_nat (length l) in
  let a := slice_index len start in
  let b := slice_index len stop in
  take (Z.to_nat (b - a)) (drop (Z.to_nat a) l).

(** The body of the answer of [get_api_keys_paginated]. *)
Record page_of (A : Type) := {
  page_keys : list A;
  current_page : Z;
  total_pages : Z;
  total_keys : Z;
  keys_per_page : Z;
  has_next : bool;
  has_prev : bool
}.
Arguments page_keys {A} p.
Arguments current_page {A} p.
Arguments total_pages {A} p.
Arguments total_keys {A} p.
Arguments keys_per_page {A} p.
Arguments has_next {A} p.
Arguments has_prev {A} p.

(** The pagination block of [get_api_keys_paginated], on the keys that
    passed the filters; [None] is the division by zero, answered 500. *)
Definition paginate {A : Type} (filtered_keys : list A) (page limit : Z) : option (page_of A) :=
  if (limit =? 0)%Z then None
  else
    let total_keys := Z.of_nat (length filtered_keys) in
    let total_pages := ((total_keys + limit - 1) / limit)%Z in
    let start_index := ((page - 1) * limit)%Z in
    let end_index := (start_index + limit)%Z in
    Some {| page_keys := py_slice filtered_keys start_index end_index;
            current_page := page;
            total_pages := total_pages;
            total_keys := total_keys;
            keys_per_page := limit;
            has_next := (page <? total_pages)%Z;
            has_prev := (page >? 1)%Z |}.

(** ** external_client_server.py: the parser of the external client *)

Module External.

(** The [while] loop over [text_pattern], without the rate-limit check of
    the main server. *)
Fixpoint text_loop (fuel : nat) (buffer : list N) : list event * list N :=
  match fuel with
  | O => ([], buffer)
  | S f =>
    match text_search buffer with
    | None => ([], buffer)
    | Some (group, rest) =>
      match json_loads ([quote] ++ group ++ [quote]) with
      | Some (JStr (c :: t)) =>
        let '(evs, b) := text_loop f rest in (EvContent (c :: t) :: evs, b)
      | _ => text_loop f rest
      end
    end
  end.

(** The part of the loop body that follows [buffer += ...]. *)
Definition on_text (buffer : list N) : list event * step :=
  match error_search buffer ≫= json_loads with
  | Some (JObj error_json) =>
    ([EvError (default (JStr (lit "Error desconocido de LMArena"))
                       (obj_get (lit "error") error_json))], Stop StopError)
  | _ =>
    let '(contents, buffer1) := text_loop (length buffer) buffer in
    match finish_search buffer1 with
    | None => (contents, Continue buffer1)
    | Some (group, buffer2) =>
      match json_loads group with
      | Some (JObj finish_data) =>
        (contents ++ [EvFinish (default reason_stop (obj_get (lit "finishReason") finish_data))],
         Continue buffer2)
      | _ => (contents, Continue buffer2)
      end
    end
  end.

Definition process_frame (buffer : list N) (raw_data : frame) : list event * step :=
  match raw_data with
  | FrameDict d =>
    match ctl_error d with
    | Some error_msg => ([EvError error_msg], Stop StopError)
    | None => ([], Stop (StopRaised TypeError))   (* buffer += dict *)
    end
  | FrameStr s =>
    if str_eqb s DONE_MARK then ([], Stop StopDone)
    else on_text (buffer ++ s)
  | FrameList l => on_text (buffer ++ concat l)
  end.

Fixpoint parser_loop (timeout : Z) (buffer : list N) (frames : list frame)
  : list event * stop :=
  match frames with
  | [] =>
    ([EvError (JStr (lit "La respuesta expiró después de " ++ str_of_Z timeout ++
                     lit " segundos."))], StopTimeout)
  | raw_data :: rest =>
    match process_frame buffer raw_data with
    | (evs, Stop why) => (evs, why)
    | (evs, Continue buffer1) =>
      let '(evs', why) := parser_loop timeout buffer1 rest in (evs ++ evs', why)
    end
  end.

Definition _process_lmarena_stream (request_id : list N) (frames : list frame) (w : World)
  : (list event * stop) * World :=
  match response_channels w !! request_id with
  | None =>
    (([EvError (JStr (lit "Error interno del servidor: no se encontró el canal de respuesta."))],
      StopNoChannel), w)
  | Some _ =>
    let timeout := default 360%Z (cfg_stream_response_timeout_seconds (CONFIG w)) in
    (parser_loop timeout [] frames,
     set_response_channels (delete request_id (response_channels w)) w)
  end.

Section Streamer.
Context `{PyLib}.

(** The [async for] loop of [stream_generator]: a finish event is only
    recorded, and an error event ends the response. *)
Fixpoint stream_events (finish_reason_to_send : json) (events : list event)
  : list sse_chunk * json * bool :=
  match events with
  | [] => ([], finish_reason_to_send, false)
  | EvContent data :: rest =>
    let '(chunks, reason, errored) := stream_events finish_reason_to_send rest in
    (format_openai_chunk (ContentStr data) :: chunks, reason, errored)
  | EvFinish data :: rest => stream_events data rest
  | EvError data :: _ =>
    ([format_openai_chunk
        (ContentStr (nl ++ nl ++ lit "[Error del Cliente Externo]: " ++ str_of_data data));
      format_openai_finish_chunk reason_stop],
     finish_reason_to_send, true)
  end.

Definition stream_generator (request_id model : list N) (frames : list frame) (w : World)
  : (list sse_chunk * option exn) * World :=
  let '((events, why), w1) := _process_lmarena_stream request_id frames w in
  let '(chunks, finish_reason_to_send, errored) := stream_events reason_stop events in
  if errored then ((chunks, None), w1)
  else
    match why with
    | StopRaised e => ((chunks, Some e), w1)
    | _ => ((chunks ++ [format_openai_finish_chunk finish_reason_to_send], None), w1)
    end.

End Streamer.

End External.

(** ** Vocabulary of the further properties *)

(** [k] rotations in a row: their results, oldest first, and the world
    they leave. *)
Fixpoint rotate_times (k : nat) (model_name : list N) (w : World)
  : list (outcome bool) * World :=
  match k with
  | O => ([], w)
  | S k' =>
    let '(r, w1) := rotate_model_session model_name w in
    let '(rs, w2) := rotate_times k' model_name w1 in
    (r :: rs, w2)
  end.

(** The pool entry [m] holds a pair at every index below [n] and none at
    [n]. *)
Definition pairs_up_to (m : gmap (list N) pool_value) (n : nat) : Prop :=
  (forall i, (i < n)%nat -> has_pair m i = true) /\ has_pair m n = false.

(** ["".join(full_content)] for parts that are strings. *)
Definition joined (parts : list content) : list N :=
  flat_map (fun c => match c with
                     | ContentStr s => s
                     | _ => []
                     end) parts.

(** The items that the messages [msgs] carry for the request [rid], in the
    order of arrival. *)
Definition addressed_to (rid : list N) (msgs : list ws_inbound) : list frame :=
  flat_map (fun m => match in_request_id m, in_data m with
                     | Some r, Some data => if bool_decide (r = rid) then [data] else []
                     | _, _ => []
                     end) msgs.

(** The receive loop run on the messages [msgs]. *)
Definition receive_all (msgs : list ws_inbound) (w : World) : World :=
  foldl (fun w m => websocket_receive m w) w msgs.

(** Every counter of the registry is within the limit of its key. *)
Definition within_limits (w : World) : Prop :=
  forall key kd limit,
    API_KEYS_DATA w !! key = Some kd -> kd_usage_limit kd = Some limit ->
    (default 0 (kd_usage_count kd) <= limit)%Z.

(** The pages with numbers [1] to [n] of a listing. *)
Definition pages_upto {A : Type} (filtered_keys : list A) (limit : Z) (n : nat) : list A :=
  flat_map (fun p => match paginate filtered_keys (Z.of_nat p) limit with
                     | Some pg => page_keys pg
                     | None => []
                     end) (seq 1 n).


(** The bearer [token] names a session of the panel that has not expired
    at the next reading of the clock. *)
Definition session_valid (token : list N) (st : AdminState) (w : World) : Prop :=
  token <> [] /\
  exists session, ADMIN_SESSIONS st !! token = Some session /\
                  (clock w (clock_reads w) <= expires_at session)%Z.

(** A state of the panel with the password [hunter2] and no session. *)
Definition admin_state : AdminState :=
  {| cfg_admin_enabled := None;
     cfg_admin_password := Some (lit "hunter2");
     ADMIN_SESSIONS := ∅ |}.

(** The panel with one session, [tok], open until time 100. *)
Definition admin_session_state : AdminState :=
  {| cfg_admin_enabled := None;
     cfg_admin_password := Some (lit "hunter2");
     ADMIN_SESSIONS := {[ lit "tok" := {| created_at := 0; expires_at := 100 |} ]} |}.


(** A step that leaves the channel table and the queues as they were. *)
Definition same_channels (w w' : World) : Prop :=
  response_channels w' = response_channels w /\ queues w' = queues w.

(** The notice of a model switch. *)
Definition switch_notice (current_model next_model : list N) : list N :=
  lit "🔄 **Auto-Claude:** Límite de velocidad detectado para '" ++
  current_model ++ lit "'. Cambiando a '" ++ next_model ++ lit "'...".

(** The rate-limit signal of the userscript. *)
Definition rate_limit_signal (model_id : option (list N)) : frame :=
  FrameDict {| rate_limit_detected := true; ctl_model_id := model_id; ctl_error := None |}.

(** An auto-claude request in flight on socket 1, served by the first
    model of the priority list, with the whole list in the catalogue. *)
Definition auto_claude_world : World :=
  {| CONFIG := empty_config; config_jsonc := None; API_KEYS_DATA := ∅;
     MODEL_NAME_TO_ID_MAP := map (fun m => (m, lit "id-of-" ++ m)) AUTO_CLAUDE_PRIORITY;
     MODEL_ENDPOINT_MAP := ∅; AUTO_CLAUDE_DISABLED_MODELS := ∅;
     AUTO_CLAUDE_ACTIVE_REQUESTS :=
       {[ lit "request-0" := lit "claude-opus-4-1-20250805-thinking-16k" ]};
     browser_ws := Some 1%nat;
     response_channels := {[ lit "request-0" := 0%nat ]};
     queues := {[ 0%nat := [] ]}; last_activity_time := None; clock := fun _ => 50%Z;
     clock_reads := 0; random_draws := 0; effects := [] |}.


(* ===== Properties ===== *)
(** * Properties *)

(** ** Strings *)

Lemma chars_inj (a b : string) : chars a = chars b -> a = b.
Proof.
  unfold chars. intros Heq.
  assert (Hl : list_ascii_of_string a = list_ascii_of_string b).
  { revert Heq. generalize (list_ascii_of_string a) (list_ascii_of_string b).
    induction l as [|x l IH]; intros [|y l']; simpl; intros Heq; try discriminate; auto.
    injection Heq as Hxy Hrest. f_equal; [|by apply IH].
    rewrite <- (ascii_N_embedding x), <- (ascii_N_embedding y). by rewrite Hxy. }
  rewrite <- (string_of_list_ascii_of_string a), <- (string_of_list_ascii_of_string b).
  by rewrite Hl.
Qed.

Lemma str_of_nat_inj (i j : nat) : str_of_nat i = str_of_nat j -> i = j.
Proof. intros Heq. apply chars_inj in Heq. by apply (inj pretty) in Heq. Qed.

Lemma str_of_Z_of_nat (n : nat) : str_of_Z (Z.of_nat n) = str_of_nat n.
Proof.
  unfold str_of_Z, str_of_nat. f_equal.
  unfold pretty at 2, pretty_nat. unfold pretty at 1, pretty_Z.
  by destruct n as [|n].
Qed.

Lemma str_eqb_eq (a b : list N) : str_eqb a b = true <-> a = b.
Proof.
  revert b. induction a as [|x a IH]; intros [|y b]; simpl; split; try done.
  - rewrite andb_true_iff, N.eqb_eq, IH. by intros [-> ->].
  - intros [= -> ->]. rewrite N.eqb_refl. by apply IH.
Qed.

Lemma str_eqb_refl (a : list N) : str_eqb a a = true.
Proof. by apply str_eqb_eq. Qed.

Lemma startswith_app (p s : list N) : startswith p (p ++ s) = true.
Proof. induction p as [|x p IH]; simpl; [done|]. by rewrite N.eqb_refl. Qed.

Lemma startswith_spec (p s : list N) : startswith p s = true <-> exists t, s = p ++ t.
Proof.
  split.
  - revert s. induction p as [|x p IH]; intros s; simpl; [by exists s|].
    destruct s as [|y s]; [done|]. rewrite andb_true_iff, N.eqb_eq.
    intros [-> Hp]. destruct (IH _ Hp) as [t ->]. by exists t.
  - intros [t ->]. apply startswith_app.
Qed.

Lemma str_in_spec (p s : list N) : str_in p s = true <-> exists a b, s = a ++ p ++ b.
Proof.
  split.
  - induction s as [|c s IH]; simpl; rewrite orb_true_iff.
    + intros [Hp|]; [|done]. apply startswith_spec in Hp as [t Ht]. by exists [], t.
    + intros [Hp|Hin].
      * apply startswith_spec in Hp as [t Ht]. by exists [], t.
      * destruct (IH Hin) as (a & b & ->). by exists (c :: a), b.
  - intros (a & b & ->). induction a as [|c a IH]; simpl.
    + destruct (p ++ b) eqn:E; simpl; rewrite <- E, startswith_app; done.
    + by rewrite IH, orb_true_r.
Qed.

Lemma str_in_app_r (p a b : list N) : str_in p b = true -> str_in p (a ++ b) = true.
Proof.
  rewrite !str_in_spec. intros (x & y & ->). exists (a ++ x), y. by rewrite <- app_assoc.
Qed.

Lemma str_in_app_l (p a b : list N) : str_in p a = true -> str_in p (a ++ b) = true.
Proof.
  rewrite !str_in_spec. intros (x & y & ->). exists x, (y ++ b). by rewrite <- !app_assoc.
Qed.

(** ** Credential-pool rotation *)

Lemma session_key_inj (i j : nat) :
  session_key (str_of_nat i) = session_key (str_of_nat j) -> i = j.
Proof. unfold session_key. intros Heq. apply app_inv_head in Heq. by apply str_of_nat_inj. Qed.

(** The numbered session keys of a mapping are distinct keys of it, so a
    mapping holds at most as many pairs as it has keys. *)
Lemma pairs_bounded_by_size (m : gmap (list N) pool_value) (n : nat) :
  (forall i, (i < n)%nat -> has_pair m i = true) -> (n <= size m)%nat.
Proof.
  intros Hall.
  set (keys := (fun i => session_key (str_of_nat i)) <$> seq 0 n).
  assert (Hnd : NoDup keys).
  { apply NoDup_fmap_2_strong; [|apply NoDup_seq].
    intros i j _ _. apply session_key_inj. }
  assert (Hsub : (list_to_set keys : gset (list N)) ⊆ dom m).
  { intros k Hk. apply elem_of_list_to_set, list_elem_of_fmap in Hk as (i & -> & Hi).
    apply elem_of_seq in Hi. apply elem_of_dom.
    specialize (Hall i ltac:(lia)). unfold has_pair in Hall.
    apply andb_true_iff in Hall as [Hs _]. by apply bool_decide_eq_true in Hs. }
  apply subseteq_size in Hsub.
  rewrite size_list_to_set, size_dom in Hsub by done.
  unfold keys in Hsub. by rewrite length_fmap, length_seq in Hsub.
Qed.

Lemma session_count_loop_spec (m : gmap (list N) pool_value) (n : nat) :
  (forall i, (i < n)%nat -> has_pair m i = true) -> has_pair m n = false ->
  forall fuel index, (index <= n)%nat -> (n - index < fuel)%nat ->
  session_count_loop fuel m index = n.
Proof.
  intros Hlt Hn. induction fuel as [|fuel IH]; intros index Hle Hfuel; [lia|].
  simpl. destruct (decide (index = n)) as [->|Hne].
  - by rewrite Hn.
  - rewrite Hlt by lia. apply IH; lia.
Qed.

(** The loop counts the pairs: it returns the first index without one. *)
Lemma get_available_session_count_spec (m : gmap (list N) pool_value) (n : nat) :
  (forall i, (i < n)%nat -> has_pair m i = true) -> has_pair m n = false ->
  get_available_session_count m = n.
Proof.
  intros Hlt Hn. apply session_count_loop_spec; try done; [lia|].
  pose proof (pairs_bounded_by_size m n Hlt). lia.
Qed.

Lemma current_index_not_session_key (x : list N) : lit "current_index" <> session_key x.
Proof. unfold session_key. intros Heq. vm_compute in Heq. discriminate. Qed.

Lemma numbered_pairs_has_pair (m : gmap (list N) pool_value) (n i : nat) :
  numbered_pairs m n -> (i < n)%nat -> has_pair m i = true.
Proof.
  intros [Hp _] Hi. destruct (Hp i Hi) as (s & t & Hs & Ht).
  unfold has_pair. rewrite Hs, Ht. by rewrite !bool_decide_eq_true_2 by eauto.
Qed.

Lemma numbered_pairs_count (m : gmap (list N) pool_value) (n : nat) :
  numbered_pairs m n -> get_available_session_count m = n.
Proof.
  intros Hn. apply get_available_session_count_spec; [|apply Hn].
  intros i Hi. by eapply numbered_pairs_has_pair.
Qed.

Lemma hint_in_notice (model : list N) :
  str_in add_endpoints_hint (generate_rotation_message model false) = true.
Proof.
  unfold generate_rotation_message.
  do 12 apply str_in_app_r. apply str_in_app_l. by vm_compute.
Qed.

(** C1.  For a model whose pool entry has an integer [current_index] and
    [n] numbered pairs: with [n >= 2] a rate-limit-triggered rotation sets
    [current_index] to [(old + 1) mod n], writes the pool to
    model_endpoint_map.json at once and changes nothing else, and the caller
    gets the rotation notice; with a single pair nothing is rotated and
    nothing is written, and the caller gets the notice that carries the hint
    to add more session ids. *)
Theorem rotation_advances_or_hints (w : World) (model : list N)
    (m : gmap (list N) pool_value) (old : Z) (n : nat) :
  model <> [] ->
  MODEL_ENDPOINT_MAP w !! model = Some (PoolDict m) ->
  m !! lit "current_index" = Some (VInt old) ->
  numbered_pairs m n ->
  is_VInt (m !! session_key (str_of_Z old)) = false ->
  ((2 <= n)%nat ->
     let next := ((old + 1) mod Z.of_nat n)%Z in
     let pool' := <[model := PoolDict (<[lit "current_index" := VInt next]> m)]>
                    (MODEL_ENDPOINT_MAP w) in
     let w' := save_model_endpoint_map (set_MODEL_ENDPOINT_MAP pool' w) in
     rotate_model_session model w = (Return true, w') /\
     MODEL_ENDPOINT_MAP w' = pool' /\
     effects w' = effects w ++ [WriteEndpointMap pool'] /\
     rate_limit_reply (Some model) w =
       (([EvContent (generate_rotation_message model true); EvFinish reason_stop],
         Stop StopRateLimit), w')) /\
  (n = 1%nat ->
     rotate_model_session model w = (Return false, w) /\
     rate_limit_reply (Some model) w =
       (([EvContent (generate_rotation_message model false); EvFinish reason_stop],
         Stop StopRateLimit), w) /\
     str_in add_endpoints_hint (generate_rotation_message model false) = true).
Proof.
  intros Hmodel Hentry Hci Hpairs Hold.
  pose proof (numbered_pairs_count m n Hpairs) as Hcount.
  split.
  - intros Hn next pool' w'.
    assert (Hrot : rotate_model_session model w = (Return true, w')).
    { unfold rotate_model_session. rewrite Hentry, Hci, Hcount.
      destruct (n <=? 1)%nat eqn:Hle; [apply Nat.leb_le in Hle; lia|].
      fold next.
      assert (Hrange : (0 <= next < Z.of_nat n)%Z) by (apply Z.mod_pos_bound; lia).
      assert (Hnext : str_of_Z next = str_of_nat (Z.to_nat next)).
      { rewrite <- str_of_Z_of_nat. f_equal. lia. }
      destruct Hpairs as [Hp _].
      destruct (Hp (Z.to_nat next) ltac:(lia)) as (s & t & Hs & Ht).
      rewrite Hnext, Hs, Ht.
      rewrite !bool_decide_eq_true_2 by eauto. simpl.
      rewrite !lookup_insert_ne by apply current_index_not_session_key.
      rewrite Hold, Hs. reflexivity. }
    split; [done|]. split; [done|]. split; [done|].
    unfold rate_limit_reply. destruct model as [|c model']; [done|]. by rewrite Hrot.
  - intros ->.
    assert (Hrot : rotate_model_session model w = (Return false, w)).
    { unfold rotate_model_session. by rewrite Hentry, Hci, Hcount. }
    split; [done|]. split; [|apply hint_in_notice].
    unfold rate_limit_reply. destruct model as [|c model']; [done|]. by rewrite Hrot.
Qed.

Lemma two_pairs_numbered : numbered_pairs two_pairs 2.
Proof.
  split; [|by vm_compute].
  intros i Hi. destruct i as [|[|i]]; [| |lia].
  - exists (lit "session-zero"), (lit "message-zero"). split; by vm_compute.
  - exists (lit "session-one"), (lit "message-one"). split; by vm_compute.
Qed.

(** The rotation of scenario 3: the cursor goes from 0 to 1 and the pool is
    written once. *)
Lemma rotation_advances_or_hints_witness :
  fst (rotate_model_session opus rotation_world) = Return true /\
  MODEL_ENDPOINT_MAP (snd (rotate_model_session opus rotation_world)) !! opus =
    Some (PoolDict (<[lit "current_index" := VInt 1]> two_pairs)) /\
  length (effects (snd (rotate_model_session opus rotation_world))) = 1%nat.
Proof.
  destruct (rotation_advances_or_hints rotation_world opus two_pairs 0 2) as [H2 _].
  - discriminate.
  - reflexivity.
  - reflexivity.
  - exact two_pairs_numbered.
  - reflexivity.
  - destruct (H2 ltac:(lia)) as (Hrot & Hpool & Heff & _).
    rewrite Hrot. cbn [fst snd]. split; [reflexivity|]. split.
    + rewrite Hpool. rewrite lookup_insert_eq. reflexivity.
    + rewrite Heff. reflexivity.
Defined.

(** ** Auto-claude selection *)

Arguments lit : simpl never.
Arguments AUTO_CLAUDE_PRIORITY : simpl never.

Lemma is_available_keeps_cooling (m p : list N) (until : Z) (w : World) :
  AUTO_CLAUDE_DISABLED_MODELS w !! m = Some until -> cooling w until ->
  let r := is_model_available_for_auto_claude p w in
  AUTO_CLAUDE_DISABLED_MODELS (snd r) !! m = Some until /\ cooling (snd r) until /\
  (p = m -> fst r = false).
Proof.
  intros Hm Hcool. unfold is_model_available_for_auto_claude.
  destruct (AUTO_CLAUDE_DISABLED_MODELS w !! p) as [u|] eqn:Hp; simpl.
  - destruct (decide (p = m)) as [->|Hne].
    + rewrite Hm in Hp. injection Hp as <-.
      pose proof (Hcool (clock_reads w) ltac:(lia)) as Hle.
      destruct (clock w (clock_reads w) >? until)%Z eqn:Hgt; [lia|]. simpl.
      split; [done|]. split; [|done]. intros k Hk. apply Hcool. simpl in Hk. lia.
    + destruct (clock w (clock_reads w) >? u)%Z; simpl.
      * rewrite lookup_delete_ne by done. split; [done|]. split; [|done].
        intros k Hk. apply Hcool. simpl in Hk. lia.
      * split; [done|]. split; [|done]. intros k Hk. apply Hcool. simpl in Hk. lia.
  - split; [done|]. split; [done|]. intros ->. by rewrite Hm in Hp.
Qed.

(** The loop over the priority list never picks a model whose cooldown
    lasts through the selection. *)
Lemma first_available_skips_cooling (m : list N) (until : Z) (models : list (list N)) :
  forall w, AUTO_CLAUDE_DISABLED_MODELS w !! m = Some until -> cooling w until ->
  fst (first_available models w) <> Some m.
Proof.
  induction models as [|p models IH]; intros w Hm Hcool; simpl; [done|].
  pose proof (is_available_keeps_cooling m p until w Hm Hcool) as (Hm1 & Hcool1 & Hp).
  destruct (is_model_available_for_auto_claude p w) as [a w1]. simpl in *.
  destruct (a && in_catalog p w1) eqn:Hsel; simpl.
  - intros [= ->]. rewrite Hp in Hsel by done. done.
  - by apply IH.
Qed.

Lemma cleanup_keeps_cooling (m : list N) (until : Z) (w : World) :
  AUTO_CLAUDE_DISABLED_MODELS w !! m = Some until -> cooling w until ->
  let w1 := cleanup_expired_auto_claude_disables w in
  AUTO_CLAUDE_DISABLED_MODELS w1 !! m = Some until /\ cooling w1 until.
Proof.
  intros Hm Hcool. unfold cleanup_expired_auto_claude_disables. simpl. split.
  - apply map_lookup_filter_Some. split; [done|]. simpl.
    pose proof (Hcool (clock_reads w) ltac:(lia)). lia.
  - intros k Hk. apply Hcool. simpl in Hk. lia.
Qed.

Lemma cleanup_removes_expired (m : list N) (until : Z) (w : World) :
  AUTO_CLAUDE_DISABLED_MODELS w !! m = Some until -> expired w until ->
  AUTO_CLAUDE_DISABLED_MODELS (cleanup_expired_auto_claude_disables w) !! m = None.
Proof.
  intros Hm Hexp. unfold cleanup_expired_auto_claude_disables. simpl.
  apply map_lookup_filter_None. right. intros u Hu. rewrite Hm in Hu. injection Hu as <-.
  simpl. pose proof (Hexp (clock_reads w) ltac:(lia)). lia.
Qed.

Lemma is_available_keeps_free (m p : list N) (w : World) :
  AUTO_CLAUDE_DISABLED_MODELS w !! m = None ->
  let r := is_model_available_for_auto_claude p w in
  AUTO_CLAUDE_DISABLED_MODELS (snd r) !! m = None /\
  MODEL_NAME_TO_ID_MAP (snd r) = MODEL_NAME_TO_ID_MAP w /\
  (p = m -> r = (true, w)).
Proof.
  intros Hm. unfold is_model_available_for_auto_claude.
  destruct (AUTO_CLAUDE_DISABLED_MODELS w !! p) as [u|] eqn:Hp; simpl.
  - destruct (clock w (clock_reads w) >? u)%Z; simpl.
    + split; [|split; [done|]].
      * destruct (decide (p = m)) as [->|Hne];
          [apply lookup_delete_eq|by rewrite lookup_delete_ne].
      * intros ->. by rewrite Hm in Hp.
    + split; [done|]. split; [done|]. intros ->. by rewrite Hm in Hp.
  - done.
Qed.

Lemma first_available_keeps_free (m : list N) (models : list (list N)) :
  forall w, AUTO_CLAUDE_DISABLED_MODELS w !! m = None ->
  AUTO_CLAUDE_DISABLED_MODELS (snd (first_available models w)) !! m = None.
Proof.
  induction models as [|p models IH]; intros w Hm; simpl; [done|].
  pose proof (is_available_keeps_free m p w Hm) as (Hm1 & _ & _).
  destruct (is_model_available_for_auto_claude p w) as [a w1]. cbn [fst snd] in *.
  destruct (a && in_catalog p w1); [done|]. by apply IH.
Qed.

(** A model that is in no cooldown and is in the catalogue stops the loop:
    the pick is that model or one placed before it. *)
Lemma first_available_reaches_free (m : list N) (pre post : list (list N)) :
  forall w, AUTO_CLAUDE_DISABLED_MODELS w !! m = None -> in_catalog m w = true ->
  exists r, fst (first_available (pre ++ m :: post) w) = Some r /\ (r = m \/ r ∈ pre) /\
            AUTO_CLAUDE_DISABLED_MODELS (snd (first_available (pre ++ m :: post) w)) !! m = None.
Proof.
  induction pre as [|p pre IH]; intros w Hm Hcat; simpl.
  - pose proof (is_available_keeps_free m m w Hm) as (_ & _ & Heq).
    rewrite Heq by done. rewrite Hcat. simpl. exists m. auto.
  - pose proof (is_available_keeps_free m p w Hm) as (Hm1 & Hcat1 & _).
    destruct (is_model_available_for_auto_claude p w) as [a w1]. simpl in *.
    destruct (a && in_catalog p w1) eqn:Hsel; simpl.
    + exists p. split; [done|]. split; [right; left|done].
    + destruct (IH w1 Hm1) as (r & Hr & Hor & Hfree).
      { unfold in_catalog in *. by rewrite Hcat1. }
      exists r. split; [done|]. split; [|done].
      destruct Hor as [->|Hin]; [by left|right; by right].
Qed.

(** C5, the claim as stated fails: with every priority model cooling down,
    the selection returns the last one although its expiry is in the
    future. *)
Lemma cooling_model_returned_as_fallback : ~ cooling_model_never_returned.
Proof.
  intros Hclaim.
  apply (Hclaim cooled_world sonnet35 100%Z).
  - by vm_compute.
  - intros k _. simpl. lia.
  - by vm_compute.
Qed.

(** C5, amended.  A model whose cooldown lasts through a selection is never
    picked by the walk over the priority list, so the selection returns it
    only as the forced fallback, the last entry of the list, when the walk
    found no eligible model.  A model whose cooldown has run out loses its
    entry at that selection and is eligible again: if it is in the catalogue
    and on the list, the selection returns it or a model placed before it. *)
Theorem cooldown_respected_except_fallback (w : World) (m : list N) (until : Z) :
  AUTO_CLAUDE_DISABLED_MODELS w !! m = Some until ->
  (cooling w until ->
     fst (first_available AUTO_CLAUDE_PRIORITY (cleanup_expired_auto_claude_disables w)) <> Some m /\
     (fst (get_best_available_claude_model w) = m ->
        m = sonnet35 /\
        fst (first_available AUTO_CLAUDE_PRIORITY (cleanup_expired_auto_claude_disables w)) = None)) /\
  (expired w until ->
     AUTO_CLAUDE_DISABLED_MODELS (snd (get_best_available_claude_model w)) !! m = None /\
     (forall pre post, AUTO_CLAUDE_PRIORITY = pre ++ m :: post -> in_catalog m w = true ->
        fst (get_best_available_claude_model w) = m \/
        fst (get_best_available_claude_model w) ∈ pre)).
Proof.
  intros Hm. split.
  - intros Hcool.
    destruct (cleanup_keeps_cooling m until w Hm Hcool) as [Hm1 Hcool1].
    pose proof (first_available_skips_cooling m until AUTO_CLAUDE_PRIORITY _ Hm1 Hcool1) as Hskip.
    split; [done|].
    unfold get_best_available_claude_model.
    destruct (first_available AUTO_CLAUDE_PRIORITY (cleanup_expired_auto_claude_disables w))
      as [[r|] w2]; cbn [fst snd] in *.
    + intros ->. done.
    + intros <-. split; [by vm_compute|done].
  - intros Hexp.
    pose proof (cleanup_removes_expired m until w Hm Hexp) as Hfree.
    split.
    + unfold get_best_available_claude_model.
      pose proof (first_available_keeps_free m AUTO_CLAUDE_PRIORITY _ Hfree) as Hkeep.
      destruct (first_available AUTO_CLAUDE_PRIORITY (cleanup_expired_auto_claude_disables w))
        as [[r|] w2]; exact Hkeep.
    + intros pre post Hlist Hcat. unfold get_best_available_claude_model. rewrite Hlist.
      destruct (first_available_reaches_free m pre post
                  (cleanup_expired_auto_claude_disables w) Hfree) as (r & Hr & Hor & _).
      { unfold in_catalog in *. exact Hcat. }
      destruct (first_available (pre ++ m :: post) (cleanup_expired_auto_claude_disables w))
        as [[r'|] w2]; cbn [fst snd] in *; [|done].
      injection Hr as ->. done.
Qed.

(** The two halves at concrete worlds: while the seven models cool down the
    walk picks none of them, and once their cooldowns have run out the first
    of the list is selected and its entry is gone. *)
Lemma cooldown_respected_except_fallback_witness :
  fst (first_available AUTO_CLAUDE_PRIORITY (cleanup_expired_auto_claude_disables cooled_world))
    <> Some sonnet35 /\
  AUTO_CLAUDE_DISABLED_MODELS (snd (get_best_available_claude_model expired_world)) !! sonnet35
    = None.
Proof.
  split.
  - destruct (cooldown_respected_except_fallback cooled_world sonnet35 100%Z) as [Hcool _].
    + reflexivity.
    + apply Hcool. intros k _. simpl. lia.
  - destruct (cooldown_respected_except_fallback expired_world sonnet35 100%Z) as [_ Hexp].
    + reflexivity.
    + apply Hexp. intros k _. simpl. lia.
Defined.

(** ** Request orchestrator *)

(** What a step leaves alone when it touches neither the key registry, the
    configuration, the browser slot nor the outside world. *)
Definition quiet (w w' : World) : Prop :=
  API_KEYS_DATA w' = API_KEYS_DATA w /\ effects w' = effects w /\
  browser_ws w' = browser_ws w /\ CONFIG w' = CONFIG w.

Lemma quiet_refl (w : World) : quiet w w.
Proof. by repeat split. Qed.

Lemma quiet_trans (w1 w2 w3 : World) : quiet w1 w2 -> quiet w2 w3 -> quiet w1 w3.
Proof.
  intros (A1 & B1 & C1 & D1) (A2 & B2 & C2 & D2).
  repeat split; congruence.
Qed.

Lemma is_available_quiet (p : list N) (w : World) :
  quiet w (snd (is_model_available_for_auto_claude p w)).
Proof.
  unfold is_model_available_for_auto_claude.
  destruct (AUTO_CLAUDE_DISABLED_MODELS w !! p) as [u|]; [|apply quiet_refl].
  simpl. destruct (clock w (clock_reads w) >? u)%Z; by repeat split.
Qed.

Lemma first_available_quiet (models : list (list N)) :
  forall w, quiet w (snd (first_available models w)).
Proof.
  induction models as [|p models IH]; intros w; simpl; [apply quiet_refl|].
  pose proof (is_available_quiet p w) as Hq.
  destruct (is_model_available_for_auto_claude p w) as [a w1]. cbn [snd] in Hq.
  destruct (a && in_catalog p w1); [done|].
  eapply quiet_trans; [exact Hq|apply IH].
Qed.

Lemma get_best_quiet (w : World) : quiet w (snd (get_best_available_claude_model w)).
Proof.
  unfold get_best_available_claude_model.
  pose proof (first_available_quiet AUTO_CLAUDE_PRIORITY
                (cleanup_expired_auto_claude_disables w)) as Hq.
  assert (Hc : quiet w (cleanup_expired_auto_claude_disables w)) by by repeat split.
  destruct (first_available AUTO_CLAUDE_PRIORITY (cleanup_expired_auto_claude_disables w))
    as [[r|] w2]; cbn [snd] in *; by eapply quiet_trans.
Qed.

Section OrchestratorProperties.
Context `{PyLib}.

Lemma get_current_session_ids_quiet (model_name : option (list N)) (w : World) :
  quiet w (snd (get_current_session_ids model_name w)).
Proof.
  unfold get_current_session_ids.
  destruct (model_name ≫= (MODEL_ENDPOINT_MAP w !!.)) as [[m|l]|]; [| |apply quiet_refl].
  - destruct (m !! lit "current_index"); apply quiet_refl.
  - destruct (l !! random_choice (random_draws w) (length l)); [|apply quiet_refl].
    by repeat split.
Qed.

Lemma convert_quiet (req : openai_request) (s m : pool_value) (mo bo : option pool_value)
    (a : bool) (w : World) :
  quiet w (snd (convert_openai_to_lmarena_payload req s m mo bo a w)).
Proof.
  unfold convert_openai_to_lmarena_payload, build_payload.
  repeat (case_match; try apply quiet_refl; try by repeat split).
Qed.

(** The handler after authentication never touches the key registry, and
    writes to the outside world only to send the translated payload of a
    dispatched call. *)
Lemma dispatch_effects (req : openai_request) (w : World) :
  API_KEYS_DATA (snd (dispatch req w)) = API_KEYS_DATA w /\
  ((dispatched (fst (dispatch req w)) /\
    exists ws rid p, browser_ws w = Some ws /\
      effects (snd (dispatch req w)) = effects w ++ [WsSend ws (MsgRequest rid p)]) \/
   (~ dispatched (fst (dispatch req w)) /\ effects (snd (dispatch req w)) = effects w)).
Proof.
  unfold dispatch.
  destruct (browser_ws w) as [ws|] eqn:Hws; [|split; [done|right; by split; [intros []|]]].
  set (w0 := set_random_draws (S (random_draws w)) w).
  assert (Hq0 : quiet w w0) by by repeat split.
  set (sel := if bool_decide (req_model req = Some (lit "auto-claude")) then _ else _).
  assert (Hq1 : quiet w (snd sel)).
  { unfold sel. case_bool_decide; [|done].
    pose proof (get_best_quiet w0) as Hb.
    destruct (get_best_available_claude_model w0) as [model w1]. cbn [snd] in *.
    eapply quiet_trans; [exact Hq0|]. eapply quiet_trans; [exact Hb|]. by repeat split. }
  destruct sel as [[model_name is_auto] w1]. cbn [snd] in Hq1.
  pose proof (get_current_session_ids_quiet model_name w1) as Hq2.
  destruct (get_current_session_ids model_name w1) as [[[[sid mid] mo] bo] w2].
  cbn [snd] in Hq2.
  assert (Hq : quiet w w2) by by eapply quiet_trans.
  destruct Hq as (Hk & He & _ & _).
  repeat case_match; simplify_eq; cbn [fst snd];
    try (split; [done|right; split; [intros []|done]]).
  all: match goal with
       | Hc : convert_openai_to_lmarena_payload ?a ?b ?c ?d ?e ?f ?g = (_, ?w') |- _ =>
         pose proof (convert_quiet a b c d e f g) as (Hk' & He' & _ & _);
         rewrite Hc in Hk', He'; cbn in Hk', He'
       end.
  all: unfold emit; cbn.
  all: try (split; [by rewrite Hk'|right; split; [intros []|by rewrite He']]).
  all: split; [by rewrite Hk'|left; split; [done|]].
  all: eexists _, _, _; split; [done|]; cbn; by rewrite He', He.
Qed.

Lemma chat_completions_eq (request : http_request) (w : World) :
  chat_completions request w =
  match body request with
  | None => (HTTPException 400 (lit "Cuerpo de la solicitud JSON inválido"), entered w)
  | Some openai_req =>
    if keys_configured (entered w) then
      match get_api_key_from_header request with
      | None => (HTTPException 401 no_key_provided, entered w)
      | Some provided_key =>
        match validate_api_key provided_key (req_model openai_req) (entered w) with
        | KeyInvalid error => (HTTPException 401 error, entered w)
        | KeyValid _ =>
          dispatch openai_req (increment_api_key_usage provided_key (entered w))
        end
      end
    else dispatch openai_req (entered w)
  end.
Proof. reflexivity. Qed.

Lemma increment_browser_ws (key : list N) (w : World) :
  browser_ws (increment_api_key_usage key w) = browser_ws w.
Proof.
  unfold increment_api_key_usage.
  destruct (_ && _); [done|]. by destruct (API_KEYS_DATA w !! key).
Qed.

Lemma dispatch_empty_slot (req : openai_request) (w : World) :
  browser_ws w = None -> dispatch req w = (HTTPException 503 browser_not_connected, w).
Proof. intros Hws. unfold dispatch. by rewrite Hws. Qed.

(** C6, amended.  With the browser slot empty a chat-completions call is
    answered 503 only once the body has been parsed and the bearer
    accepted (or when no key is configured at all); a missing or invalid
    bearer is answered 401 and an unparsable body 400, slot empty or not. *)
Theorem empty_slot_503_only_after_authentication (request : http_request) (w : World) :
  browser_ws w = None ->
  (forall req, body request = Some req ->
     (keys_configured (entered w) = false \/
      exists key kd, get_api_key_from_header request = Some key /\
                     validate_api_key key (req_model req) (entered w) = KeyValid kd) ->
     fst (chat_completions request w) = HTTPException 503 browser_not_connected) /\
  (forall req, body request = Some req -> keys_configured (entered w) = true ->
     (get_api_key_from_header request = None \/
      exists key error, get_api_key_from_header request = Some key /\
                        validate_api_key key (req_model req) (entered w) = KeyInvalid error) ->
     exists detail, fst (chat_completions request w) = HTTPException 401 detail) /\
  (body request = None ->
     exists detail, fst (chat_completions request w) = HTTPException 400 detail).
Proof.
  intros Hws. rewrite chat_completions_eq.
  assert (Hent : browser_ws (entered w) = None) by done.
  split; [|split].
  - intros req -> [Hno|(key & kd & -> & ->)].
    + rewrite Hno. by rewrite dispatch_empty_slot.
    + destruct (keys_configured (entered w)).
      * rewrite dispatch_empty_slot; [done|]. by rewrite increment_browser_ws.
      * by rewrite dispatch_empty_slot.
  - intros req -> -> [->|(key & error & -> & ->)]; by eexists.
  - intros ->. by eexists.
Qed.

Lemma registry_key_configures (key : list N) (kd : KeyData) (w : World) :
  API_KEYS_DATA w !! key = Some kd -> keys_configured w = true.
Proof.
  intros Hk. unfold keys_configured. apply orb_true_iff. right.
  apply negb_true_iff, bool_decide_eq_false. intros Hempty.
  by rewrite Hempty, lookup_empty in Hk.
Qed.

Lemma not_global (key : list N) (w : World) :
  cfg_api_key (CONFIG w) <> Some key ->
  truthy_str (cfg_api_key (CONFIG w)) && bool_decide (Some key = cfg_api_key (CONFIG w)) = false.
Proof.
  intros Hne. apply andb_false_iff. right. by apply bool_decide_eq_false.
Qed.

(** A managed key that validates yields its own record. *)
Lemma validate_managed (key : list N) (model : option (list N)) (kd kd0 : KeyData) (w : World) :
  API_KEYS_DATA w !! key = Some kd -> cfg_api_key (CONFIG w) <> Some key ->
  validate_api_key key model w = KeyValid kd0 -> kd0 = kd.
Proof.
  intros Hk Hne. unfold validate_api_key. rewrite (not_global key w Hne), Hk.
  repeat case_match; congruence.
Qed.

Lemma increment_managed (key : list N) (kd : KeyData) (w : World) :
  API_KEYS_DATA w !! key = Some kd -> cfg_api_key (CONFIG w) <> Some key ->
  let w' := increment_api_key_usage key w in
  API_KEYS_DATA w' = <[key := used_once kd (clock w (clock_reads w))]> (API_KEYS_DATA w) /\
  effects w' = effects w ++ [WriteApiKeys (API_KEYS_DATA w')] /\
  browser_ws w' = browser_ws w.
Proof.
  intros Hk Hne. unfold increment_api_key_usage. by rewrite (not_global key w Hne), Hk.
Qed.

(** C7.  A chat-completions call that goes through to the browser with a
    managed key has first validated the key, then counted the use, then
    run the rest of the handler, where the payload is translated and sent:
    the counter of that key goes up by exactly one and the registry is
    written before the payload leaves.  The models endpoint leaves the world,
    and so every counter, as it was. *)
Theorem usage_counted_once_per_dispatch :
  (forall (request : http_request) (w : World) (req : openai_request) (key : list N)
          (kd : KeyData),
     body request = Some req ->
     get_api_key_from_header request = Some key ->
     API_KEYS_DATA w !! key = Some kd ->
     cfg_api_key (CONFIG (entered w)) <> Some key ->
     dispatched (fst (chat_completions request w)) ->
     let w' := snd (chat_completions request w) in
     validate_api_key key (req_model req) (entered w) = KeyValid kd /\
     chat_completions request w = dispatch req (increment_api_key_usage key (entered w)) /\
     API_KEYS_DATA w' = <[key := used_once kd (clock w (S (clock_reads w)))]> (API_KEYS_DATA w) /\
     exists ws rid p,
       effects w' = effects w ++ [WriteApiKeys (API_KEYS_DATA w'); WsSend ws (MsgRequest rid p)]) /\
  (forall (request : http_request) (w : World), snd (get_models request w) = w).
Proof.
  split.
  - intros request w req key kd Hbody Hkey Hk Hne Hdisp w'.
    assert (Hk' : API_KEYS_DATA (entered w) !! key = Some kd) by done.
    subst w'. rewrite chat_completions_eq in *. rewrite Hbody, Hkey in *.
    rewrite (registry_key_configures key kd _ Hk') in *.
    destruct (validate_api_key key (req_model req) (entered w)) as [kd0|error] eqn:Hval;
      [|destruct Hdisp].
    pose proof (validate_managed _ _ _ _ _ Hk' Hne Hval) as ->.
    split; [done|]. split; [done|].
    destruct (increment_managed key kd (entered w) Hk' Hne) as (Hreg & Heff & _).
    destruct (dispatch_effects req (increment_api_key_usage key (entered w)))
      as [Hsame [[_ (ws & rid & p & _ & Hsend)]|[Hnot _]]]; [|done].
    split.
    + rewrite Hsame, Hreg. done.
    + exists ws, rid, p. rewrite Hsend, Heff, Hsame, <- app_assoc. done.
  - intros request w. unfold get_models. repeat case_match; done.
Qed.

(** C10.  A managed key whose usage count has reached its limit does not
    validate; a chat-completions call bearing it is answered 401, and
    neither the registry nor the outside world changes. *)
Theorem exhausted_key_rejected (request : http_request) (w : World) (req : openai_request)
    (key : list N) (kd : KeyData) (limit : Z) :
  API_KEYS_DATA w !! key = Some kd ->
  cfg_api_key (CONFIG (entered w)) <> Some key ->
  kd_usage_limit kd = Some limit ->
  (limit <= default 0 (kd_usage_count kd))%Z ->
  body request = Some req ->
  get_api_key_from_header request = Some key ->
  (exists error, validate_api_key key (req_model req) (entered w) = KeyInvalid error) /\
  (exists error, fst (chat_completions request w) = HTTPException 401 error) /\
  API_KEYS_DATA (snd (chat_completions request w)) = API_KEYS_DATA w /\
  effects (snd (chat_completions request w)) = effects w.
Proof.
  intros Hk Hne Hlimit Hreached Hbody Hkey.
  assert (Hk' : API_KEYS_DATA (entered w) !! key = Some kd) by done.
  assert (Hval : exists error,
             validate_api_key key (req_model req) (entered w) = KeyInvalid error).
  { unfold validate_api_key. rewrite (not_global key _ Hne), Hk', Hlimit.
    destruct (str_eqb key []); [by eexists|].
    destruct (negb (default true (kd_enabled kd))); [by eexists|].
    destruct (default 0%Z (kd_usage_count kd) >=? limit)%Z eqn:Hge; [by eexists|lia]. }
  split; [done|]. destruct Hval as [error Hval].
  rewrite chat_completions_eq, Hbody, Hkey, (registry_key_configures key kd _ Hk'), Hval.
  split; [by eexists|]. done.
Qed.

End OrchestratorProperties.

Section OrchestratorExamples.
#[local] Existing Instance example_lib.

(** C6, the claim as stated fails: no browser is connected, a key is
    configured, the call carries no bearer, and the answer is 401. *)
Lemma empty_slot_answers_401_first : ~ empty_slot_always_503.
Proof.
  intros Hclaim.
  destruct (Hclaim example_lib {| authorization := None; body := Some hi_request |} keyed_world)
    as (detail & w' & Hresp); [done|].
  vm_compute in Hresp. discriminate.
Qed.

Lemma empty_slot_503_only_after_authentication_witness :
  fst (chat_completions {| authorization := Some (lit "Bearer sk-global");
                           body := Some hi_request |} keyed_world)
    = HTTPException 503 browser_not_connected.
Proof.
  destruct (empty_slot_503_only_after_authentication
              {| authorization := Some (lit "Bearer sk-global"); body := Some hi_request |}
              keyed_world) as (H503 & _ & _).
  - reflexivity.
  - apply (H503 hi_request); [reflexivity|].
    right. eexists _, _. split; vm_compute; reflexivity.
Defined.

Lemma usage_counted_once_per_dispatch_witness :
  kd_usage_count <$>
    (API_KEYS_DATA (snd (chat_completions
                           {| authorization := Some (lit "Bearer sk-managed");
                              body := Some hi_request |}
                           (set_browser_ws (Some 3%nat) keyed_world))) !! lit "sk-managed")
  = Some (Some 2%Z).
Proof.
  destruct usage_counted_once_per_dispatch as [Hcount _].
  destruct (Hcount {| authorization := Some (lit "Bearer sk-managed"); body := Some hi_request |}
                   (set_browser_ws (Some 3%nat) keyed_world) hi_request (lit "sk-managed")
                   {| kd_enabled := Some true; kd_usage_limit := Some 2%Z;
                      kd_usage_count := Some 1%Z; kd_models := [];
                      kd_last_used := None |})
    as (_ & _ & Hreg & _).
  - reflexivity.
  - by vm_compute.
  - by vm_compute.
  - by vm_compute.
  - by vm_compute.
  - rewrite Hreg, lookup_insert_eq. reflexivity.
Defined.

(** The registry of [keyed_world] with the managed key used up. *)
Lemma exhausted_key_rejected_witness :
  exists error,
    fst (chat_completions {| authorization := Some (lit "Bearer sk-managed");
                             body := Some hi_request |}
           (set_API_KEYS_DATA
              {[ lit "sk-managed" := {| kd_enabled := Some true; kd_usage_limit := Some 2%Z;
                                        kd_usage_count := Some 2%Z; kd_models := [];
                                        kd_last_used := None |} ]}
              (set_browser_ws (Some 3%nat) keyed_world)))
    = HTTPException 401 error.
Proof.
  eapply (exhausted_key_rejected _ _ hi_request (lit "sk-managed")
            {| kd_enabled := Some true; kd_usage_limit := Some 2%Z;
               kd_usage_count := Some 2%Z; kd_models := []; kd_last_used := None |} 2%Z).
  - by vm_compute.
  - by vm_compute.
  - reflexivity.
  - simpl. lia.
  - reflexivity.
  - by vm_compute.
Defined.

End OrchestratorExamples.

(** ** Multiplexer *)

Lemma broadcast_lookup (qs : list nat) (heap : gmap nat (list frame)) (q : nat) :
  foldr (fun q acc => queue_put q disconnect_sentinel acc) heap qs !! q =
  (fun items => items ++ replicate (length (filter (fun x => x = q) qs)) disconnect_sentinel)
    <$> heap !! q.
Proof.
  induction qs as [|q0 qs IH]; simpl.
  - destruct (heap !! q); simpl; [|done]. by rewrite app_nil_r.
  - unfold queue_put at 1. rewrite lookup_alter, filter_cons.
    destruct (decide (q0 = q)) as [->|Hne]; simpl; [|apply IH].
    rewrite IH. destruct (heap !! q); simpl; [|done].
    f_equal. rewrite <- app_assoc. f_equal. symmetry. apply replicate_cons_app.
Qed.

(** C9, the claim as stated fails for a replacement: the new socket only
    takes the slot; no queue is told and the slot is not cleared. *)
Lemma replacement_leaves_channels_untold : ~ replacement_notifies_channels.
Proof.
  intros Hclaim.
  destruct (Hclaim connected_world 1%nat 2%nat (lit "request-0") 0%nat) as [Hslot _];
    [reflexivity|reflexivity|].
  discriminate.
Qed.

(** C9, amended.  When the handler of a socket ends (the connection is
    lost, or a replaced connection finally closes), the slot is cleared, every
    queue registered in the channel table has the disconnect sentinel at its
    end, and the table is empty.  A new connection that replaces an old one
    only takes the slot: table and queues are as before. *)
Theorem disconnect_notifies_every_channel (w : World) :
  (browser_ws (websocket_finally w) = None /\
   response_channels (websocket_finally w) = ∅ /\
   forall rid q items,
     response_channels w !! rid = Some q -> queues w !! q = Some items ->
     exists n, (1 <= n)%nat /\
       queues (websocket_finally w) !! q = Some (items ++ replicate n disconnect_sentinel)) /\
  (forall new,
     browser_ws (websocket_accept new w) = Some new /\
     response_channels (websocket_accept new w) = response_channels w /\
     queues (websocket_accept new w) = queues w).
Proof.
  split; [|done]. split; [done|]. split; [done|].
  intros rid q items Hrid Hq. unfold websocket_finally. cbn.
  rewrite broadcast_lookup, Hq. cbn.
  eexists. split; [|reflexivity].
  assert (Hin : q ∈ (map snd (map_to_list (response_channels w)))).
  { apply list_elem_of_fmap. exists (rid, q). split; [done|]. by apply elem_of_map_to_list. }
  assert (Hf : q ∈ filter (fun x => x = q) (map snd (map_to_list (response_channels w)))).
  { by apply list_elem_of_filter. }
  destruct (filter _ _); [by apply elem_of_nil in Hf|simpl; lia].
Qed.

(** The request in flight of [connected_world] gets exactly the sentinel
    when its socket is lost. *)
Lemma disconnect_notifies_every_channel_witness :
  exists n, (1 <= n)%nat /\
    queues (websocket_finally connected_world) !! 0%nat =
    Some ([] ++ replicate n disconnect_sentinel).
Proof.
  destruct (disconnect_notifies_every_channel connected_world) as [(_ & _ & Hall) _].
  apply (Hall (lit "request-0") 0%nat []); reflexivity.
Defined.

(** ** Payload translator *)

Section TranslatorProperties.
Context `{PyLib}.

Lemma assign_position_sentinel (mode target : list N) :
  assign_position mode target bypass_template =
  sentinel_at (if str_eqb mode (lit "battle") then target else lit "a").
Proof. unfold assign_position, sentinel_at. simpl. by destruct (str_eqb mode _). Qed.

(** The last template of a translation in bypass mode is the sentinel user
    turn, and its position is what step 6 gives any user turn: the lowered
    battle target in battle mode, a otherwise. *)
Lemma bypass_sentinel_last (req : openai_request) (sid mid : pool_value)
    (mo bo : option pool_value) (a : bool) (w w' : World) (p : payload) :
  cfg_bypass_enabled (CONFIG w) = true ->
  convert_openai_to_lmarena_payload req sid mid mo bo a w = (Return p, w') ->
  exists tp, effective_target bo w = VStr tp /\
    last (message_templates p) =
    Some (sentinel_at (if str_eqb (effective_mode mo w) (lit "battle")
                       then str_lower tp else lit "a")).
Proof.
  intros Hbypass. unfold convert_openai_to_lmarena_payload.
  destruct (extract_assistant_prefill _ _) as [messages prefill].
  unfold build_payload. rewrite Hbypass. fold (effective_target bo w).
  destruct prefill; try discriminate;
    destruct (process_messages messages (random_draws w)) as [pms draws];
    destruct (effective_target bo w) as [z|tp]; try discriminate;
    intros [= <- <-]; exists tp; (split; [done|]); cbn [message_templates];
    rewrite map_app; cbn [map]; rewrite last_snoc, assign_position_sentinel;
    unfold effective_mode; destruct mo as [[z'|[|c s']]|]; cbn; try done;
    by destruct (z' =? 0)%Z.
Qed.

End TranslatorProperties.

Section TranslatorExamples.
#[local] Existing Instance example_lib.

(** C8 at the failing input: bypass mode on, battle mode with target B.
    The request of one user turn is translated into that turn and the
    sentinel, and the sentinel, last, has position b. *)
Lemma bypass_sentinel_takes_target_b :
  (message_templates <$>
     match fst (convert_openai_to_lmarena_payload hi_request
                  (VStr (lit "session-global")) (VStr (lit "message-global"))
                  None None false battle_b_world) with
     | Return p => Some p
     | Raised _ => None
     end)
  = Some [ {| t_role := lit "user"; t_content := lit "hi"; t_attachments := [];
              participantPosition := Some (lit "b") |};
           sentinel_at (lit "b") ].
Proof. by vm_compute. Qed.

End TranslatorExamples.

(** ** Assistant prefill *)





Section PrefillProperties.
Context `{PyLib}.






End PrefillProperties.

Section PrefillExamples.
#[local] Existing Instance example_lib.



End PrefillExamples.

(** ** Finish frames and the end of a stream *)

Section FinishProperties.
Context `{PyLib}.

Lemma stream_events_no_error (events : list event) :
  forall reason, existsb is_error_event events = false ->
  exists chunks, stream_events reason events = (chunks, last_finish reason events, false).
Proof.
  induction events as [|e events IH]; intros reason Hno; simpl; [by eexists|].
  destruct e as [data|data|data]; simpl in Hno; [| |done].
  - destruct (IH reason Hno) as [chunks ->]. by eexists.
  - destruct (IH data Hno) as [chunks ->]. by eexists.
Qed.

Lemma stream_events_error (events : list event) :
  forall reason, existsb is_error_event events = true ->
  exists chunks r, stream_events reason events =
                   (chunks ++ [format_openai_finish_chunk reason_stop], r, true).
Proof.
  induction events as [|e events IH]; intros reason Hyes; simpl in *; [done|].
  destruct e as [data|data|data]; simpl in Hyes.
  - destruct (IH reason Hyes) as (chunks & r & ->). by eexists (_ :: _), _.
  - destruct (IH data Hyes) as (chunks & r & ->).
    destruct (json_is_str data _); [by eexists (_ :: _), _|by eexists _, _].
  - by eexists [_], _.
Qed.

Lemma parser_loop_done_in_frames (rid : list N) (model_name : option (list N)) (timeout : Z)
    (frames : list frame) :
  forall buffer w,
  snd (fst (parser_loop rid model_name timeout buffer frames w)) = StopDone ->
  FrameStr DONE_MARK ∈ frames.
Proof.
  induction frames as [|raw frames IH]; intros buffer w; simpl; [done|].
  destruct (process_frame rid model_name buffer raw w) as [[evs [b1|why]] w1] eqn:Hstep.
  - specialize (IH b1 w1).
    destruct (parser_loop rid model_name timeout b1 frames w1) as [[evs' why] w2].
    cbn in *. intros Hd. apply elem_of_cons. right. by apply IH.
  - cbn. intros ->. apply elem_of_cons. left.
    destruct raw as [s|l|d]; simpl in Hstep.
    + destruct (str_eqb s DONE_MARK) eqn:Hs; [apply str_eqb_eq in Hs; by subst|].
      unfold on_text in Hstep. unfold rate_limit_reply in Hstep.
      repeat case_match; simplify_eq.
    + unfold on_text in Hstep. unfold rate_limit_reply in Hstep.
      repeat case_match; simplify_eq.
    + unfold on_rate_limit_signal, on_error_object, rate_limit_reply in Hstep.
      repeat case_match; simplify_eq.
Qed.

(** C3, amended.  A finish frame never ends the parsing: on a text buffer
    that trips none of the checks for a rate limit, a Cloudflare page or an
    error object, the step goes on to the next item of the queue and leaves
    the world alone, and when the finish pattern matched and decoded, the
    finish reason is the last event of the step.  The loop is left with
    [StopDone] only on reading the end marker.  The closing chunk of a
    response whose events hold no error carries the finish reason recorded
    last, stop when none was; a response ended by an error event closes with
    stop. *)
Theorem finish_recorded_not_terminal :
  (forall (model_name : option (list N)) (buffer : list N) (w : World),
     text_stops buffer = false ->
     exists evs buffer',
       on_text model_name buffer w = ((evs, Continue buffer'), w) /\
       forall contents b1 group b2 finish_data,
         text_loop (length buffer) buffer = (contents, Drained b1) ->
         finish_search b1 = Some (group, b2) ->
         json_loads group = Some (JObj finish_data) ->
         buffer' = b2 /\
         evs = contents ++
               [EvFinish (default reason_stop (obj_get (lit "finishReason") finish_data))]) /\
  (forall (rid : list N) (model_name : option (list N)) (timeout : Z) (buffer : list N)
          (frames : list frame) (w : World),
     (snd (fst (parser_loop rid model_name timeout buffer frames w)) = StopDone ->
      FrameStr DONE_MARK ∈ frames) /\
     (forall raw evs buffer1 w1,
        process_frame rid model_name buffer raw w = ((evs, Continue buffer1), w1) ->
        parser_loop rid model_name timeout buffer (raw :: frames) w =
        let '((evs', why), w2) := parser_loop rid model_name timeout buffer1 frames w1 in
        ((evs ++ evs', why), w2))) /\
  (forall (rid model : list N) (prefill : content) (frames : list frame) (w : World),
     let events := fst (fst (_process_lmarena_stream rid (Some model) frames w)) in
     let why := snd (fst (_process_lmarena_stream rid (Some model) frames w)) in
     (existsb is_error_event events = false -> (forall e, why <> StopRaised e) ->
      last (chunks_of (stream_generator rid model prefill frames w)) =
      Some (ChunkFinish (last_finish reason_stop events))) /\
     (existsb is_error_event events = true ->
      last (chunks_of (stream_generator rid model prefill frames w)) =
      Some (ChunkFinish reason_stop))).
Proof.
  split; [|split].
  - intros model_name buffer w Hstops. unfold text_stops in Hstops.
    apply orb_false_iff in Hstops as [Hstops Hloop].
    apply orb_false_iff in Hstops as [Hstops Herr].
    apply orb_false_iff in Hstops as [Hrate Hcf].
    unfold on_text. rewrite Hrate, Hcf.
    destruct (text_loop (length buffer) buffer) as [contents [b1|]] eqn:Htl; [|done].
    assert (Hgo : exists evs buffer',
               match finish_search b1 with
               | Some (group, buffer2) =>
                 match json_loads group with
                 | Some (JObj finish_data) =>
                   ((contents ++ [EvFinish (default reason_stop
                                              (obj_get (lit "finishReason") finish_data))],
                     Continue buffer2), w)
                 | _ => ((contents, Continue buffer2), w)
                 end
               | None => ((contents, Continue b1), w)
               end = ((evs, Continue buffer'), w) /\
               forall contents0 b0 group b2 finish_data,
                 (contents, Drained b1) = (contents0, Drained b0) ->
                 finish_search b0 = Some (group, b2) ->
                 json_loads group = Some (JObj finish_data) ->
                 buffer' = b2 /\
                 evs = contents0 ++
                   [EvFinish (default reason_stop (obj_get (lit "finishReason") finish_data))]).
    { destruct (finish_search b1) as [[group buffer2]|] eqn:Hfs.
      - destruct (json_loads group) as [[| | | | | |fd]|] eqn:Hj;
          eexists _, _; (split; [reflexivity|]);
          intros ? ? ? ? ? [= <- <-] Hfs' Hj'; rewrite Hfs in Hfs';
          injection Hfs' as <- <-; rewrite Hj in Hj'; try discriminate.
        by injection Hj' as <-.
      - eexists _, _. split; [reflexivity|]. intros ? ? ? ? ? [= <- <-] Hfs'.
        by rewrite Hfs in Hfs'. }
    destruct (error_search buffer ≫= json_loads) as [[| | | | | |o]|]; try done.
  - intros rid model_name timeout buffer frames w. split.
    + apply parser_loop_done_in_frames.
    + intros raw evs buffer1 w1 Hstep. simpl. by rewrite Hstep.
  - intros rid model prefill frames w events why. subst events why.
    unfold chunks_of, stream_generator.
    destruct (_process_lmarena_stream rid (Some model) frames w) as [[events why] w1].
    cbn [fst snd]. split.
    + intros Hno Hwhy. destruct (stream_events_no_error events reason_stop Hno) as [chunks ->].
      destruct why; cbn [fst]; try by rewrite !app_assoc, last_snoc.
      by destruct (Hwhy e).
    + intros Hyes. destruct (stream_events_error events reason_stop Hyes) as (chunks & r & ->).
      cbn [fst]. by rewrite app_assoc, last_snoc.
Qed.

End FinishProperties.

Section FinishExamples.
#[local] Existing Instance example_lib.

(** C3, the claim as stated fails for its last part: a finish frame records
    length, the connection is then lost, and the response closes with
    stop. *)
Lemma error_closes_with_stop : ~ final_chunk_always_last_recorded.
Proof.
  intros Hclaim.
  specialize (Hclaim example_lib (lit "request-0") sonnet35 (ContentStr [])
                [FrameStr (wire "ad:{'finishReason':'length'}");
                 error_frame (lit "El navegador se desconectó durante la operación")]
                streaming_world reason_stop).
  vm_compute in Hclaim. specialize (Hclaim eq_refl). discriminate.
Qed.

(** The frames of scenario 1 with a content frame after the finish frame:
    the text that follows the finish frame is still delivered, and the
    closing chunk carries the recorded reason. *)
Lemma finish_recorded_not_terminal_witness :
  chunks_of (stream_generator (lit "request-0") sonnet35 (ContentStr [])
               [FrameStr (wire "a0:'Hel'"); FrameStr (wire "ad:{'finishReason':'length'}");
                FrameStr (wire "a0:'lo'"); FrameStr DONE_MARK] streaming_world)
  = [ChunkContent (ContentStr (lit "Hel")); ChunkContent (ContentStr (lit "lo"));
     ChunkFinish (JStr (lit "length"))] /\
  exists evs buffer',
    on_text (Some sonnet35) (wire "ad:{'finishReason':'length'}") streaming_world
    = ((evs, Continue buffer'), streaming_world).
Proof.
  split; [by vm_compute|].
  destruct (@finish_recorded_not_terminal example_lib) as (Hstep & _ & _).
  destruct (Hstep (Some sonnet35) (wire "ad:{'finishReason':'length'}") streaming_world)
    as (evs & b' & Heq & _); [by vm_compute|].
  by exists evs, b'.
Defined.

End FinishExamples.

(** ** The content stream *)

Lemma list_ind2 (P : list N -> Prop) :
  P [] -> (forall c, P [c]) -> (forall c d r, P r -> P (d :: r) -> P (c :: d :: r)) ->
  forall l, P l.
Proof.
  intros Hnil Hone Hstep l.
  assert (Hboth : P l /\ forall c, P (c :: l)).
  { induction l as [|d r [IH1 IH2]]; [by split|]. split; [apply IH2|].
    intros c. by apply Hstep. }
  apply Hboth.
Qed.

Lemma scan_body_plain (c : N) (r : list N) :
  (c =? backslash) = false -> (c =? quote) = false ->
  scan_body (c :: r) = let '(b, rest) := scan_body r in (c :: b, rest).
Proof. intros Hc Hq. cbn [scan_body]. by rewrite Hc, Hq. Qed.

Lemma scan_body_escape (d : N) (r : list N) :
  (d =? 10) = false ->
  scan_body (backslash :: d :: r) = let '(b, rest) := scan_body r in (backslash :: d :: b, rest).
Proof. intros Hd. cbn [scan_body]. by rewrite Hd. Qed.

(** What [is_body] says of a text, token by token. *)
Lemma is_body_cons (c : N) (r : list N) :
  is_body (c :: r) = true ->
  (c = backslash /\ exists d r', r = d :: r' /\ (d =? 10) = false /\ is_body r' = true) \/
  ((c =? backslash) = false /\ (c =? quote) = false /\ is_body r = true).
Proof.
  unfold is_body. destruct (c =? backslash) eqn:Hc.
  - apply N.eqb_eq in Hc as ->. destruct r as [|d r']; [done|].
    destruct (d =? 10) eqn:Hd; [cbn; by rewrite Hd|].
    rewrite scan_body_escape by done. intros Hb. left. split; [done|].
    exists d, r'. repeat split; try done. by destruct (scan_body r').
  - destruct (c =? quote) eqn:Hq; [cbn; by rewrite Hc, Hq|].
    rewrite scan_body_plain by done. intros Hb. right. repeat split; try done.
    by destruct (scan_body r).
Qed.

(** The scan of the body stops at the quote that follows a run of tokens. *)
Lemma scan_body_closed (e : list N) :
  is_body e = true -> forall rest, scan_body (e ++ quote :: rest) = (e, quote :: rest).
Proof.
  induction e as [|c|c d r IHr IHdr] using list_ind2; intros Hb rest.
  - done.
  - apply is_body_cons in Hb as [(-> & d & r' & ? & _)|(Hc & Hq & _)]; [done|].
    cbn [app]. by rewrite scan_body_plain.
  - apply is_body_cons in Hb as [(-> & d' & r' & [= <- <-] & Hd & Hr)|(Hc & Hq & Hdr)].
    + cbn [app]. rewrite scan_body_escape by done. by rewrite (IHr Hr).
    + change ((c :: d :: r) ++ quote :: rest) with (c :: ((d :: r) ++ quote :: rest)).
      rewrite scan_body_plain by done. by rewrite (IHdr Hdr).
Qed.

Lemma match_text_at_line (l : content_line) (rest : list N) :
  valid_line l -> match_text_at (render_line l ++ rest) = Some (encoded l, rest).
Proof.
  intros [Hlane Hbody]. unfold render_line. cbn [app]. rewrite <- app_assoc. cbn [app].
  unfold match_text_at. rewrite Hlane. cbn.
  by rewrite (scan_body_closed _ Hbody).
Qed.

(** The leftmost match in a buffer that starts with a whole line, with or
    without the newline left by the line before, is that line. *)
Lemma text_search_line (l : content_line) (rest : list N) :
  valid_line l ->
  text_search (render_line l ++ rest) = Some (encoded l, rest) /\
  text_search (nl ++ render_line l ++ rest) = Some (encoded l, rest).
Proof.
  intros Hv. pose proof (match_text_at_line l rest Hv) as Hm.
  assert (H1 : text_search (render_line l ++ rest) = Some (encoded l, rest)).
  { unfold render_line in *. cbn [app] in *. cbn [text_search]. by rewrite Hm. }
  split; [done|]. cbn [app nl text_search]. cbn. exact H1.
Qed.

(** *** The automaton of the wire *)

Lemma wire_run_app (closing : bool) (a b : list N) :
  forall st, wire_run closing st (a ++ b) = wire_run closing st a ≫= fun st' => wire_run closing st' b.
Proof.
  induction a as [|c a IH]; intros st; simpl; [done|].
  destruct (wire_step closing st c); [apply IH|done].
Qed.

Lemma wire_run_prefix (closing : bool) (a b : list N) (st : place) :
  is_Some (wire_run closing st (a ++ b)) -> is_Some (wire_run closing st a).
Proof. rewrite wire_run_app. destruct (wire_run closing st a); [by eexists|by intros [? ?]]. Qed.

Lemma wire_step_open_closed (st st' : place) (c : N) :
  wire_step false st c = Some st' -> wire_step true st c = Some st'.
Proof. destruct st; simpl; repeat case_match; congruence. Qed.

Lemma wire_run_open_closed (s : list N) :
  forall st, is_Some (wire_run false st s) -> is_Some (wire_run true st s).
Proof.
  induction s as [|c s IH]; intros st; simpl; [done|].
  destruct (wire_step false st c) as [st'|] eqn:Hs; [|by intros [? ?]].
  rewrite (wire_step_open_closed _ _ _ Hs). apply IH.
Qed.

(** A run of body tokens is read from [InBody] back to [InBody], closing
    quotes or not. *)
Lemma wire_run_body (closing : bool) (e : list N) :
  is_body e = true -> wire_run closing InBody e = Some InBody.
Proof.
  induction e as [|c|c d r IHr IHdr] using list_ind2; intros Hb.
  - done.
  - apply is_body_cons in Hb as [(-> & d & r' & ? & _)|(Hc & Hq & _)]; [done|].
    cbn. by rewrite Hc, Hq.
  - apply is_body_cons in Hb as [(-> & d' & r' & [= <- <-] & Hd & Hr)|(Hc & Hq & Hdr)].
    + cbn [wire_run wire_step]. cbn. rewrite Hd. by apply IHr.
    + change (wire_run closing InBody (c :: d :: r))
        with (match wire_step closing InBody c with
              | Some st' => wire_run closing st' (d :: r)
              | None => None
              end).
      cbn [wire_step]. rewrite Hc, Hq. by apply IHdr.
Qed.

Lemma wire_run_line (l : content_line) :
  valid_line l ->
  wire_run true AtLine (render_line l ++ nl) = Some AtLine /\
  wire_run false AtLine (lane l :: [48; 58; quote] ++ encoded l) = Some InBody.
Proof.
  intros [Hlane Hbody]. unfold render_line. split.
  - cbn [app]. rewrite <- !app_assoc. cbn [wire_run wire_step]. rewrite Hlane. cbn.
    rewrite wire_run_app, (wire_run_body true _ Hbody). done.
  - cbn [app wire_run wire_step]. rewrite Hlane. cbn. by apply wire_run_body.
Qed.

Lemma wire_run_wire (lines : list content_line) :
  Forall valid_line lines -> wire_run true AtLine (wire_of lines) = Some AtLine.
Proof.
  induction 1 as [|l lines Hl _ IH]; [done|].
  unfold wire_of in *. cbn [flat_map]. rewrite wire_run_app.
  destruct (wire_run_line l Hl) as [-> _]. exact IH.
Qed.

Lemma is_lane_cases (c : N) : is_lane c = true -> c = 97 \/ c = 98.
Proof.
  unfold is_lane. rewrite orb_true_iff, !N.eqb_eq. tauto.
Qed.

Lemma wire_run_cons (closing : bool) (st : place) (c : N) (r : list N) :
  is_Some (wire_run closing st (c :: r)) ->
  exists st', wire_step closing st c = Some st' /\ is_Some (wire_run closing st' r).
Proof.
  simpl. destruct (wire_step closing st c) as [st'|]; [by exists st'|by intros [? ?]].
Qed.

(** In a text that ends inside a line the scan of the body never stops at
    a quote. *)
Lemma scan_body_open (r : list N) :
  is_Some (wire_run false InBody r) ->
  match snd (scan_body r) with
  | q :: _ => (q =? quote) = false
  | [] => True
  end.
Proof.
  induction r as [|c|c d r IHr IHdr] using list_ind2; intros Hrun.
  - done.
  - cbn. destruct (c =? backslash) eqn:Hc; [by apply N.eqb_eq in Hc as ->|].
    destruct (c =? quote) eqn:Hq; [|done].
    cbn in Hrun. rewrite Hc, Hq in Hrun. by destruct Hrun.
  - apply wire_run_cons in Hrun as (st' & Hstep & Hrun). cbn in Hstep.
    destruct (c =? backslash) eqn:Hc.
    + apply N.eqb_eq in Hc as ->. injection Hstep as <-.
      apply wire_run_cons in Hrun as (st'' & Hstep & Hrun). cbn in Hstep.
      destruct (d =? 10) eqn:Hd; [done|]. injection Hstep as <-.
      rewrite scan_body_escape by done. specialize (IHr Hrun).
      by destruct (scan_body r).
    + destruct (c =? quote) eqn:Hq; [done|]. injection Hstep as <-.
      rewrite scan_body_plain by done. specialize (IHdr Hrun).
      by destruct (scan_body (d :: r)).
Qed.

Lemma match_text_at_open (st : place) (s : list N) :
  is_Some (wire_run false st s) -> match_text_at s = None.
Proof.
  intros Hrun. unfold match_text_at.
  destruct s as [|l [|z [|c [|q r]]]]; try done.
  destruct (is_lane l) eqn:Hl; [|done].
  destruct (z =? 48) eqn:Hz; [|done]. destruct (c =? 58) eqn:Hc; [|done].
  destruct (q =? quote) eqn:Hq; [|done]. cbn.
  apply N.eqb_eq in Hz as ->. apply N.eqb_eq in Hc as ->. apply N.eqb_eq in Hq as ->.
  assert (Hbody : is_Some (wire_run false InBody r)).
  { apply is_lane_cases in Hl as [-> | ->]; destruct st; cbn in Hrun;
      try done; by destruct Hrun. }
  pose proof (scan_body_open r Hbody) as Hopen.
  destruct (scan_body r) as [b [|q' rest]]; [done|]. cbn in Hopen. by rewrite Hopen.
Qed.

(** No content line is found in a text that ends inside a line. *)
Lemma text_search_open (s : list N) :
  forall st, is_Some (wire_run false st s) -> text_search s = None.
Proof.
  induction s as [|c s IH]; intros st Hrun; [done|].
  cbn [text_search]. rewrite (match_text_at_open st) by done.
  apply wire_run_cons in Hrun as (st' & _ & Hrun). by apply (IH st').
Qed.

Lemma isspace_plain (c : N) :
  py_isspace c = true -> (c =? backslash) = false /\ (c =? quote) = false.
Proof.
  intros Hsp. split; apply N.eqb_neq; intros ->; by vm_compute in Hsp.
Qed.

Lemma skip_space_run (r : list N) :
  is_Some (wire_run true InBody r) -> is_Some (wire_run true InBody (snd (skip_space r))).
Proof.
  induction r as [|c r IH]; intros Hrun; [done|].
  cbn [skip_space]. destruct (py_isspace c) eqn:Hsp; [|done].
  apply wire_run_cons in Hrun as (st' & Hstep & Hrun).
  destruct (isspace_plain c Hsp) as [Hc Hq]. cbn in Hstep. rewrite Hc, Hq in Hstep.
  injection Hstep as <-. specialize (IH Hrun). by destruct (skip_space r).
Qed.

Lemma match_error_at_wire (st : place) (s : list N) :
  is_Some (wire_run true st s) -> match_error_at s = None.
Proof.
  intros Hrun. unfold match_error_at. destruct s as [|b r]; [done|].
  destruct (b =? 123) eqn:Hb; [|done]. apply N.eqb_eq in Hb as ->.
  assert (Hbody : is_Some (wire_run true InBody r)).
  { destruct st; cbn in Hrun; try done; by destruct Hrun. }
  apply skip_space_run in Hbody. destruct (skip_space r) as [sp r1]. cbn [snd] in Hbody.
  destruct (startswith error_key r1) eqn:Hst; [|done].
  apply startswith_spec in Hst as [t ->]. vm_compute in Hbody. by destruct Hbody.
Qed.

(** No error object is found in the text of a content stream. *)
Lemma error_search_wire (s : list N) :
  forall st, is_Some (wire_run true st s) -> error_search s = None.
Proof.
  induction s as [|c s IH]; intros st Hrun; [done|].
  cbn [error_search]. rewrite (match_error_at_wire st) by done.
  apply wire_run_cons in Hrun as (st' & _ & Hrun). by apply (IH st').
Qed.

Lemma find_lazy_cons (dotall : bool) (needle : list N) (c : N) (r : list N) :
  find_lazy dotall needle (c :: r) =
  if startswith needle (c :: r) then Some (needle, drop (length needle) (c :: r))
  else if negb dotall && (c =? 10) then None
  else match find_lazy dotall needle r with
       | Some (m, rest) => Some (c :: m, rest)
       | None => None
       end.
Proof. done. Qed.

Lemma find_finish_key_wire (r : list N) :
  forall st m1 r1, is_Some (wire_run true st r) ->
  find_lazy false finishReason_key r = Some (m1, r1) ->
  find_lazy false [125] r1 = None.
Proof.
  induction r as [|c r IH]; intros st m1 r1 Hrun; [done|].
  rewrite find_lazy_cons. destruct (startswith finishReason_key (c :: r)) eqn:Hst.
  - apply startswith_spec in Hst as [t Ht]. rewrite Ht in Hrun |- *.
    rewrite drop_app_length. intros [= <- <-].
    assert (Hclose : is_Some (wire_run true AfterClose t)).
    { destruct st; vm_compute in Hrun; try (by destruct Hrun); exact Hrun. }
    destruct t as [|x t]; [done|]. cbn in Hclose.
    destruct (x =? 10) eqn:Hx; [|by destruct Hclose].
    apply N.eqb_eq in Hx as ->. done.
  - destruct (c =? 10) eqn:Hc; [done|]. cbn [negb andb].
    destruct (find_lazy false finishReason_key r) as [[m rest]|] eqn:Hf; [|done].
    intros [= <- <-]. apply wire_run_cons in Hrun as (st' & _ & Hrun).
    by apply (IH st' m rest).
Qed.

Lemma match_finish_at_wire (st : place) (s : list N) :
  is_Some (wire_run true st s) -> match_finish_at s = None.
Proof.
  intros Hrun. unfold match_finish_at.
  destruct s as [|l [|d [|c [|b r]]]]; try done.
  destruct (is_lane l) eqn:Hl; [|done].
  destruct (d =? 100) eqn:Hd; [|done]. destruct (c =? 58) eqn:Hc; [|done].
  destruct (b =? 123) eqn:Hb; [|done]. cbn [andb].
  apply N.eqb_eq in Hd as ->. apply N.eqb_eq in Hc as ->. apply N.eqb_eq in Hb as ->.
  assert (Hbody : is_Some (wire_run true InBody r)).
  { apply is_lane_cases in Hl as [-> | ->]; destruct st; cbn in Hrun;
      try done; by destruct Hrun. }
  destruct (find_lazy false finishReason_key r) as [[m1 r1]|] eqn:Hf; [|done].
  by rewrite (find_finish_key_wire r InBody m1 r1 Hbody Hf).
Qed.

(** No finish frame is found in the text of a content stream. *)
Lemma finish_search_wire (s : list N) :
  forall st, is_Some (wire_run true st s) -> finish_search s = None.
Proof.
  induction s as [|c s IH]; intros st Hrun; [done|].
  cbn [finish_search]. rewrite (match_finish_at_wire st) by done.
  apply wire_run_cons in Hrun as (st' & _ & Hrun). by apply (IH st').
Qed.

(** *** Markers found in a part of a text are found in the whole *)

Lemma detect_rate_limit_infix (pre sub post : list N) :
  detect_rate_limit_error (pre ++ sub ++ post) = false ->
  detect_rate_limit_error sub = false.
Proof.
  unfold detect_rate_limit_error. intros Hw.
  destruct (str_in (lit "429") sub) eqn:H1; [|done].
  destruct (str_in (lit "Too Many Requests") sub) eqn:H2; [|done].
  rewrite (str_in_app_r _ pre), (str_in_app_r _ pre) in Hw; try by apply str_in_app_l.
  done.
Qed.

Lemma match_pat_at_app (p : list pat_item) (s post : list N) :
  match_pat_at p s = true -> match_pat_at p (s ++ post) = true.
Proof.
  revert s. induction p as [|x p IH]; intros s; [done|].
  destruct s as [|c s]; [done|]. simpl. rewrite !andb_true_iff. intros [? ?]. auto.
Qed.

Lemma pat_search_cons (p : list pat_item) (c : N) (s : list N) :
  pat_search p (c :: s) = match_pat_at p (c :: s) || pat_search p s.
Proof. done. Qed.

Lemma pat_search_infix (p : list pat_item) (pre sub post : list N) :
  pat_search p sub = true -> pat_search p (pre ++ sub ++ post) = true.
Proof.
  intros Hsub.
  assert (Hpost : pat_search p (sub ++ post) = true).
  { induction sub as [|c sub IH].
    - destruct p; [by destruct post|done].
    - rewrite pat_search_cons in Hsub. apply orb_true_iff in Hsub as [Hm|Hs].
      + change ((c :: sub) ++ post) with (c :: (sub ++ post)). rewrite pat_search_cons.
        change (c :: (sub ++ post)) with ((c :: sub) ++ post).
        by rewrite (match_pat_at_app p (c :: sub) post Hm).
      + change ((c :: sub) ++ post) with (c :: (sub ++ post)). rewrite pat_search_cons.
        by rewrite (IH Hs), orb_true_r. }
  induction pre as [|c pre IH]; [done|].
  change ((c :: pre) ++ sub ++ post) with (c :: (pre ++ sub ++ post)).
  rewrite pat_search_cons. by rewrite IH, orb_true_r.
Qed.

Lemma cloudflare_infix (pre sub post : list N) :
  cloudflare_detected (pre ++ sub ++ post) = false -> cloudflare_detected sub = false.
Proof.
  unfold cloudflare_detected. intros Hw.
  destruct (existsb _ cloudflare_patterns) eqn:Hsub in |- *; [|done].
  apply existsb_exists in Hsub as (p & Hin & Hp).
  assert (Hyes : existsb (fun p => pat_search p (pre ++ sub ++ post)) cloudflare_patterns = true).
  { apply existsb_exists. exists p. split; [done|]. by apply pat_search_infix. }
  congruence.
Qed.

(** *** The lines a buffer holds *)

Lemma wire_of_cons (l : content_line) (lines : list content_line) :
  wire_of (l :: lines) = render_line l ++ nl ++ wire_of lines.
Proof. unfold wire_of. cbn [flat_map]. by rewrite <- app_assoc. Qed.

Lemma wire_of_app (a b : list content_line) : wire_of (a ++ b) = wire_of a ++ wire_of b.
Proof. apply flat_map_app. Qed.

Lemma content_events_app (a b : list content_line) :
  content_events (a ++ b) = content_events a ++ content_events b.
Proof. apply flat_map_app. Qed.

Lemma leftover_snoc (cons : list content_line) (l : content_line) :
  leftover (cons ++ [l]) = nl.
Proof. by destruct cons. Qed.

Lemma leftover_cases (cons : list content_line) : leftover cons = [] \/ leftover cons = nl.
Proof. destruct cons; [by left|by right]. Qed.

(** A buffer that is a prefix of what is left of a wire text is read by
    the automaton. *)
Lemma tail_prefix_run (cons rem : list content_line) (b u : list N) :
  Forall valid_line rem ->
  b ++ u = leftover cons ++ wire_of rem ->
  exists st, is_Some (wire_run true st b).
Proof.
  intros Hv Hb. pose proof (wire_run_wire rem Hv) as Hrun.
  destruct (leftover_cases cons) as [Hj|Hj]; rewrite Hj in Hb.
  - exists AtLine. apply (wire_run_prefix true b u). cbn [app] in Hb. by rewrite Hb, Hrun.
  - exists AfterClose. apply (wire_run_prefix true b u). rewrite Hb. cbn. by rewrite Hrun.
Qed.

(** A buffer that ends inside the first line that is left holds no
    complete line. *)
Lemma open_prefix_run (cons : list content_line) (l : content_line) (b k : list N) :
  valid_line l -> k <> [] ->
  b ++ k = leftover cons ++ render_line l ->
  exists st, is_Some (wire_run false st b).
Proof.
  intros Hv Hk Hb. destruct k as [|x k _] using rev_ind; [done|].
  unfold render_line in Hb.
  change (lane l :: [48; 58; quote] ++ encoded l ++ [quote])
    with ((lane l :: [48; 58; quote]) ++ encoded l ++ [quote]) in Hb.
  rewrite !app_assoc in Hb. apply app_inj_tail in Hb as [Hb _].
  rewrite <- !app_assoc in Hb.
  destruct (wire_run_line l Hv) as [_ Hrun].
  destruct (leftover_cases cons) as [Hj|Hj]; rewrite Hj in Hb.
  - exists AtLine. apply (wire_run_prefix false b k). rewrite Hb. cbn [app] in *.
    by rewrite Hrun.
  - exists AfterClose. apply (wire_run_prefix false b k). rewrite Hb.
    change (wire_run false AfterClose (nl ++ (lane l :: [48; 58; quote]) ++ encoded l))
      with (wire_run false AtLine (lane l :: [48; 58; quote] ++ encoded l)).
    by rewrite Hrun.
Qed.

Lemma text_search_tail (cons : list content_line) (l : content_line) (rest : list N) :
  valid_line l ->
  text_search ((leftover cons ++ render_line l) ++ rest) = Some (encoded l, rest).
Proof.
  intros Hv. destruct (text_search_line l rest Hv) as [H1 H2].
  rewrite <- app_assoc. by destruct (leftover_cases cons) as [-> | ->].
Qed.

Lemma text_search_drained (cons rem : list content_line) :
  Forall valid_line rem ->
  text_search (leftover cons ++ wire_of rem) = None -> rem = [].
Proof.
  intros Hv Hs. destruct rem as [|l rem]; [done|]. exfalso.
  apply Forall_cons in Hv as [Hl _].
  rewrite wire_of_cons, app_assoc, (text_search_tail cons l _ Hl) in Hs. done.
Qed.

Lemma text_loop_drained (fuel : nat) (b : list N) :
  text_search b = None -> text_loop fuel b = ([], Drained b).
Proof. intros Hs. destruct fuel; cbn [text_loop]; [done|]. by rewrite Hs. Qed.

Lemma text_loop_line (f : nat) (b k : list N) (l : content_line) :
  text_search b = Some (encoded l, k) ->
  detect_rate_limit_error (decoded l) = false ->
  text_loop (S f) b = let '(evs, e) := text_loop f k in (content_events [l] ++ evs, e).
Proof.
  intros Hs Hd. cbn [text_loop]. rewrite Hs.
  unfold content_events, decoded in *. cbn [flat_map].
  destruct (json_loads ([quote] ++ encoded l ++ [quote])) as [v|];
    [destruct v as [|?|?|?|s|?|?]|]; try (by destruct (text_loop f k)).
  destruct s as [|c t]; [by destruct (text_loop f k)|].
  rewrite Hd. by destruct (text_loop f k).
Qed.

(** The [while] loop on a buffer that is a prefix of what is left of a wire
    text: it yields the text of every line the buffer holds in full, and
    leaves what follows the last of them. *)
Lemma text_loop_lines (rem : list content_line) :
  Forall valid_line rem ->
  Forall (fun l => detect_rate_limit_error (decoded l) = false) rem ->
  forall (cons : list content_line) (b u : list N) (fuel : nat),
  b ++ u = leftover cons ++ wire_of rem ->
  (length b <= fuel)%nat ->
  exists got rem' b' p,
    rem = got ++ rem' /\
    text_loop fuel b = (content_events got, Drained b') /\
    b' ++ u = leftover (cons ++ got) ++ wire_of rem' /\
    b = p ++ b' /\
    text_search b' = None.
Proof.
  induction rem as [|l rem IH]; intros Hv Hd cons b u fuel Hb Hlen.
  - exists [], [], b, [].
    assert (Hs : text_search b = None).
    { destruct (leftover_cases cons) as [Hj|Hj]; rewrite Hj in Hb; cbn in Hb.
      - by apply app_eq_nil in Hb as [-> _].
      - destruct b as [|x [|y b]]; [done| |done]. by injection Hb as ->. }
    split; [done|]. split; [by rewrite text_loop_drained|].
    split; [by rewrite (app_nil_r cons)|done].
  - apply Forall_cons in Hv as [Hl Hv]. apply Forall_cons in Hd as [Hdl Hd].
    rewrite wire_of_cons, app_assoc in Hb.
    assert (Hcase : (exists k, k <> [] /\ b ++ k = leftover cons ++ render_line l) \/
                    (exists k, b = (leftover cons ++ render_line l) ++ k /\
                               nl ++ wire_of rem = k ++ u)).
    { apply app_eq_inv in Hb as [(k & Hk1 & Hk2)|(k & Hk1 & Hk2)].
      - right. exists k. by split.
      - destruct k as [|x k].
        + right. exists []. rewrite app_nil_r in Hk1. by rewrite Hk1, app_nil_r.
        + left. exists (x :: k). by split. }
    destruct Hcase as [(k & Hk & Hbk)|(k & Hbk & Hku)].
    + destruct (open_prefix_run cons l b k Hl Hk Hbk) as [st Hrun].
      pose proof (text_search_open b st Hrun) as Hs.
      exists [], (l :: rem), b, [].
      split; [done|]. split; [by rewrite text_loop_drained|].
      split; [by rewrite (app_nil_r cons), wire_of_cons, app_assoc|done].
    + pose proof (text_search_tail cons l k Hl) as Hs. rewrite <- Hbk in Hs.
      destruct fuel as [|f].
      { exfalso. rewrite Hbk in Hlen. unfold render_line in Hlen.
        rewrite !length_app in Hlen. cbn [length] in Hlen. lia. }
      assert (Hlenk : (length k <= f)%nat).
      { rewrite Hbk in Hlen. unfold render_line in Hlen.
        rewrite !length_app in Hlen. cbn [length] in Hlen. lia. }
      destruct (IH Hv Hd (cons ++ [l]) k u f) as (got & rem' & b' & p & Hrem & Htl & Hb' & Hp & Hnone);
        [by rewrite leftover_snoc|done|].
      exists (l :: got), rem', b', ((leftover cons ++ render_line l) ++ p).
      split; [by rewrite Hrem|]. split.
      { rewrite (text_loop_line f b k l Hs Hdl), Htl.
        by change (l :: got) with ([l] ++ got); rewrite content_events_app. }
      split; [by rewrite Hb', <- app_assoc|].
      split; [by rewrite Hbk, Hp, <- !app_assoc|done].
Qed.

(** *** The parser on the frames of a content stream *)

Section ContentStream.
Context `{PyLib}.

Lemma on_text_content (model_name : option (list N)) (w : World)
    (cons rem : list content_line) (W pre buffer u : list N) :
  detect_rate_limit_error W = false ->
  cloudflare_detected W = false ->
  Forall valid_line rem ->
  Forall (fun l => detect_rate_limit_error (decoded l) = false) rem ->
  W = pre ++ buffer ++ u ->
  buffer ++ u = leftover cons ++ wire_of rem ->
  exists got rem' b' p,
    rem = got ++ rem' /\
    on_text model_name buffer w = ((content_events got, Continue b'), w) /\
    b' ++ u = leftover (cons ++ got) ++ wire_of rem' /\
    buffer = p ++ b' /\
    text_search b' = None.
Proof.
  intros Hrate Hcf Hv Hd HW Hb.
  destruct (text_loop_lines rem Hv Hd cons buffer u (length buffer) Hb (le_n _))
    as (got & rem' & b' & p & Hrem & Htl & Hb' & Hp & Hnone).
  exists got, rem', b', p. split; [done|]. split; [|done].
  unfold on_text. rewrite HW in Hrate, Hcf.
  rewrite (detect_rate_limit_infix _ _ _ Hrate), (cloudflare_infix _ _ _ Hcf).
  destruct (tail_prefix_run cons rem buffer u Hv Hb) as [st Hrun].
  rewrite (error_search_wire buffer st Hrun). cbn [mbind option_bind]. rewrite Htl.
  assert (Hv' : Forall valid_line rem').
  { rewrite Hrem in Hv. by apply Forall_app in Hv as [_ ?]. }
  destruct (tail_prefix_run (cons ++ got) rem' b' u Hv' Hb') as [st' Hrun'].
  by rewrite (finish_search_wire b' st' Hrun').
Qed.

Lemma process_frame_text (rid : list N) (model_name : option (list N)) (buffer : list N)
    (f : frame) (w : World) :
  is_text_frame f = true ->
  process_frame rid model_name buffer f w = on_text model_name (buffer ++ frame_text f) w.
Proof.
  destruct f as [s|l|d]; cbn; [|done|done].
  by destruct (str_eqb s DONE_MARK).
Qed.

(** The loop over the frames of a content stream yields the texts of its
    lines, in order, and goes on with what follows the last line in the
    buffer, in the same world. *)
Lemma parser_loop_content (rid : list N) (model_name : option (list N)) (timeout : Z)
    (rest : list frame) (w : World) (W : list N) (frames : list frame) :
  detect_rate_limit_error W = false ->
  cloudflare_detected W = false ->
  forall (cons rem : list content_line) (b pre : list N),
  Forall valid_line rem ->
  Forall (fun l => detect_rate_limit_error (decoded l) = false) rem ->
  forallb is_text_frame frames = true ->
  text_search b = None ->
  b ++ flat_map frame_text frames = leftover cons ++ wire_of rem ->
  W = pre ++ b ++ flat_map frame_text frames ->
  parser_loop rid model_name timeout b (frames ++ rest) w =
  let '((evs, why), w') := parser_loop rid model_name timeout (leftover (cons ++ rem)) rest w in
  ((content_events rem ++ evs, why), w').
Proof.
  intros Hrate Hcf.
  induction frames as [|f frames IH]; intros cons rem b pre Hv Hd Hf Hnone Hb HW.
  - cbn [flat_map] in Hb. rewrite app_nil_r in Hb. rewrite Hb in Hnone.
    rewrite (text_search_drained cons rem Hv Hnone) in Hb |- *.
    unfold wire_of in Hb. cbn [flat_map] in Hb. rewrite !app_nil_r in Hb |- *. rewrite Hb.
    cbn [app content_events flat_map].
    by destruct (parser_loop rid model_name timeout (leftover cons) rest w) as [[evs why] w'].
  - cbn [forallb] in Hf. apply andb_true_iff in Hf as [Hf Hfs].
    cbn [flat_map] in Hb, HW. rewrite app_assoc in Hb.
    rewrite (app_assoc b) in HW.
    destruct (on_text_content model_name w cons rem W pre (b ++ frame_text f)
                (flat_map frame_text frames) Hrate Hcf Hv Hd HW Hb)
      as (got & rem' & b' & p & Hrem & Hon & Hb' & Hp & Hnone').
    cbn [app parser_loop]. rewrite (process_frame_text _ _ _ _ _ Hf), Hon.
    assert (Hv' : Forall valid_line rem').
    { rewrite Hrem in Hv. by apply Forall_app in Hv as [_ ?]. }
    assert (Hd' : Forall (fun l => detect_rate_limit_error (decoded l) = false) rem').
    { rewrite Hrem in Hd. by apply Forall_app in Hd as [_ ?]. }
    rewrite (IH (cons ++ got) rem' b' (pre ++ p) Hv' Hd' Hfs Hnone' Hb').
    + rewrite Hrem, content_events_app, <- (app_assoc cons got rem').
      destruct (parser_loop rid model_name timeout (leftover (cons ++ got ++ rem')) rest w)
        as [[evs why] w']. by rewrite app_assoc.
    + by rewrite HW, Hp, <- !app_assoc.
Qed.

(** The chunks written for the events of content lines carry the decoded
    text of the lines. *)
Lemma stream_events_content (lines : list content_line) (evs : list event) (r0 : json) :
  exists chunks,
    stream_events r0 (content_events lines ++ evs) =
    (chunks ++ fst (fst (stream_events r0 evs)),
     snd (fst (stream_events r0 evs)), snd (stream_events r0 evs)) /\
    response_text chunks = decoded_text lines.
Proof.
  induction lines as [|l lines (chunks & IH & Htext)].
  - exists []. split; [|done]. cbn [content_events flat_map app].
    by destruct (stream_events r0 evs) as [[? ?] ?].
  - change (l :: lines) with ([l] ++ lines).
    rewrite content_events_app. unfold decoded_text. rewrite flat_map_app.
    fold (decoded_text lines). unfold content_events at 1. cbn [flat_map].
    destruct (decoded l) as [|c t] eqn:Hdec.
    + exists chunks. by split.
    + exists (format_openai_chunk (ContentStr (c :: t)) :: chunks). split.
      * cbn [app stream_events]. by rewrite IH.
      * unfold response_text in *. cbn [flat_map delta_text format_openai_chunk app].
        rewrite Htext. by rewrite app_nil_r.
Qed.

Lemma on_text_finish (model_name : option (list N)) (buffer : list N) (reason : json)
    (w : World) :
  reads_as_finish buffer reason ->
  exists rest, on_text model_name buffer w = (([EvFinish reason], Continue rest), w).
Proof.
  intros (Hstops & Hnone & group & rest & finish_data & Hfs & Hj & Hr).
  exists rest. unfold text_stops in Hstops.
  apply orb_false_iff in Hstops as [Hstops _].
  apply orb_false_iff in Hstops as [Hstops Herr].
  apply orb_false_iff in Hstops as [Hrate Hcf].
  unfold on_text. rewrite Hrate, Hcf, (text_loop_drained _ _ Hnone), Hfs, Hj, Hr.
  destruct (error_search buffer ≫= json_loads) as [[| | | | | |?]|]; done.
Qed.

Lemma response_text_app (a b : list sse_chunk) :
  response_text (a ++ b) = response_text a ++ response_text b.
Proof. apply flat_map_app. Qed.

End ContentStream.

Section ContentStreamResponse.
Context `{PyLib}.

Lemma stream_events_finish (r0 r : json) :
  stream_events r0 [EvFinish r] =
  (if json_is_str r (lit "content-filter")
   then [format_openai_chunk (ContentStr sse_warning)] else [], r, false).
Proof. cbn [stream_events]. reflexivity. Qed.

Lemma response_text_delta (s : list N) :
  response_text [format_openai_chunk (ContentStr s)] = s.
Proof.
  unfold response_text, format_openai_chunk. cbn [flat_map delta_text]. apply app_nil_r.
Qed.

Lemma response_text_closing (r : json) : response_text [format_openai_finish_chunk r] = [].
Proof. reflexivity. Qed.

Lemma response_text_prefill (prefill : list N) :
  response_text (if content_truthy (ContentStr prefill)
                 then [format_openai_chunk (ContentStr prefill)] else []) = prefill.
Proof. destruct prefill as [|c p]; [reflexivity|]. cbn [content_truthy]. apply response_text_delta. Qed.

Lemma detect_rate_limit_app_r (a s : list N) :
  detect_rate_limit_error s = true -> detect_rate_limit_error (a ++ s) = true.
Proof.
  unfold detect_rate_limit_error. intros Hd. apply andb_true_iff in Hd as [H1 H2].
  by rewrite !str_in_app_r.
Qed.

(** The pass of the loop on a text frame that holds both rate-limit
    markers: the pool of the model is rotated and the parser stops with the
    notice, whatever the buffer held. *)
Lemma process_frame_rate_limited (rid model buffer : list N) (f : frame) (w w1 : World)
    (ok : bool) :
  is_text_frame f = true ->
  detect_rate_limit_error (frame_text f) = true ->
  model <> [] ->
  rotate_model_session model w = (Return ok, w1) ->
  process_frame rid (Some model) buffer f w =
  (([EvContent (generate_rotation_message model ok); EvFinish reason_stop],
    Stop StopRateLimit), w1).
Proof.
  intros Hf Hd Hm Hrot. rewrite (process_frame_text _ _ _ _ _ Hf).
  unfold on_text. rewrite (detect_rate_limit_app_r _ _ Hd).
  unfold rate_limit_reply. destruct model as [|c m]; [done|]. by rewrite Hrot.
Qed.

(** C2, amended.  Content lines, each followed by a newline, are delivered
    in text frames that cut the wire text anywhere; the rate-limit markers
    are not both present in the wire text nor in one decoded fragment, and
    the wire text holds no Cloudflare marker.  When the response then ends
    with an optional finish frame and the end marker, the content deltas of
    the streamed response concatenate to the prefill, the decoded text of
    the lines and, when the finish reason recorded is content-filter, the
    fixed warning.  When instead a text frame follows that itself holds both
    rate-limit markers, nothing of that frame nor of later ones is streamed:
    for a model name that is not empty and whose rotation returns, the
    deltas concatenate to the prefill, the decoded text of the lines and the
    rotation notice, and the response closes with a stop chunk. *)
Theorem content_stream_concatenates (lines : list content_line) (frames : list frame)
    (prefill rid model : list N) (w : World) (q : nat) :
  Forall valid_line lines ->
  Forall (fun l => detect_rate_limit_error (decoded l) = false) lines ->
  detect_rate_limit_error (wire_of lines) = false ->
  cloudflare_detected (wire_of lines) = false ->
  forallb is_text_frame frames = true ->
  flat_map frame_text frames = wire_of lines ->
  response_channels w !! rid = Some q ->
  (forall (fin : option (list N)) (reason : json),
     closes_with lines fin reason ->
     response_text (chunks_of (stream_generator rid model (ContentStr prefill)
                                 (frames ++ closing_frames fin) w))
     = prefill ++ decoded_text lines ++
       (if json_is_str reason (lit "content-filter") then sse_warning else [])) /\
  (forall (f : frame) (rest : list frame) (ok : bool) (w1 : World),
     is_text_frame f = true ->
     detect_rate_limit_error (frame_text f) = true ->
     model <> [] ->
     rotate_model_session model w = (Return ok, w1) ->
     response_text (chunks_of (stream_generator rid model (ContentStr prefill)
                                 (frames ++ f :: rest) w))
     = prefill ++ decoded_text lines ++ generate_rotation_message model ok /\
     last (chunks_of (stream_generator rid model (ContentStr prefill)
                        (frames ++ f :: rest) w))
     = Some (ChunkFinish reason_stop) /\
     snd (fst (stream_generator rid model (ContentStr prefill) (frames ++ f :: rest) w))
     = None /\
     snd (stream_generator rid model (ContentStr prefill) (frames ++ f :: rest) w)
     = parser_finally rid w1).
Proof.
  intros Hv Hd Hrate Hcf Hf Hparts Hq. split.
  - intros fin reason Hclose.
    unfold chunks_of, stream_generator, _process_lmarena_stream. rewrite Hq.
    rewrite (parser_loop_content rid (Some model) _ (closing_frames fin) w (wire_of lines)
               frames Hrate Hcf [] lines [] [] Hv Hd Hf eq_refl);
      [|by rewrite <- Hparts|by rewrite <- Hparts].
    cbn [app].
    destruct fin as [f|]; cbn [closing_frames closes_with] in *.
    + destruct Hclose as [Hnd Hread].
      destruct (on_text_finish (Some model) _ reason w Hread) as [rest Hon].
      cbn [parser_loop process_frame]. rewrite Hnd, Hon.
      cbn [parser_loop process_frame]. rewrite str_eqb_refl. cbn [app].
      destruct (stream_events_content lines [EvFinish reason] reason_stop)
        as (chunks & Hse & Htext).
      rewrite Hse, stream_events_finish. cbn [fst snd].
      rewrite !response_text_app, response_text_prefill, Htext, response_text_closing.
      rewrite app_nil_r. do 2 f_equal.
      destruct (json_is_str reason (lit "content-filter")); [apply response_text_delta|reflexivity].
    + subst reason. cbn [parser_loop process_frame]. rewrite str_eqb_refl.
      destruct (stream_events_content lines [] reason_stop) as (chunks & Hse & Htext).
      rewrite Hse. cbn [stream_events fst snd].
      rewrite !response_text_app, response_text_prefill, Htext, response_text_closing.
      replace (json_is_str reason_stop (lit "content-filter")) with false by (by vm_compute).
      change (response_text []) with (@nil N). by rewrite !app_nil_r.
  - intros f rest ok w1 Hft Hdf Hm Hrot.
    set (notice := generate_rotation_message model ok).
    assert (Hsg : exists chunks,
              stream_generator rid model (ContentStr prefill) (frames ++ f :: rest) w =
              (((if content_truthy (ContentStr prefill)
                 then [format_openai_chunk (ContentStr prefill)] else []) ++
                (chunks ++ [format_openai_chunk (ContentStr notice)]) ++
                [format_openai_finish_chunk reason_stop], None), parser_finally rid w1) /\
              response_text chunks = decoded_text lines).
    { unfold stream_generator, _process_lmarena_stream. rewrite Hq.
      rewrite (parser_loop_content rid (Some model) _ (f :: rest) w (wire_of lines)
                 frames Hrate Hcf [] lines [] [] Hv Hd Hf eq_refl);
        [|by rewrite <- Hparts|by rewrite <- Hparts].
      cbn [app parser_loop].
      rewrite (process_frame_rate_limited rid model _ f w w1 ok Hft Hdf Hm Hrot).
      fold notice.
      destruct (stream_events_content lines [EvContent notice; EvFinish reason_stop] reason_stop)
        as (chunks & Hse & Htext).
      rewrite Hse. cbn [stream_events fst snd].
      replace (json_is_str reason_stop (lit "content-filter")) with false by (by vm_compute).
      by exists chunks. }
    destruct Hsg as (chunks & -> & Htext). unfold chunks_of. cbn [fst snd].
    split; [|split; [|done]].
    + rewrite !response_text_app, response_text_prefill, Htext, response_text_closing.
      rewrite response_text_delta. by rewrite app_nil_r.
    + rewrite !app_assoc. apply last_snoc.
Qed.

End ContentStreamResponse.

Section ContentStreamExamples.
#[local] Existing Instance example_lib.

(** C2, the claim as stated fails for a text that holds both rate-limit
    markers: the parser takes the line for a rate-limit error and answers
    with its notice instead of the text. *)
Lemma rate_limit_text_is_replaced : ~ content_always_concatenates.
Proof.
  intros Hclaim.
  specialize (Hclaim example_lib
                [{| lane := 97; encoded := lit "429 Too Many Requests" |}]
                [FrameStr (wire "a0:'429 Too Many Requests'" ++ nl)]
                (lit "request-0") sonnet35 streaming_world 0%nat).
  assert (Heq := Hclaim ltac:(repeat constructor; by vm_compute) eq_refl
                  ltac:(by vm_compute) ltac:(by vm_compute)).
  clear Hclaim. vm_compute in Heq. discriminate.
Qed.

(** Scenario 1 of the specification, with a prefill: the lines [Hel] and
    [lo] cut across three frames, closed by a content-filter finish, or
    followed by a frame that holds both rate-limit markers. *)
Lemma content_stream_concatenates_witness :
  response_text
    (chunks_of
       (stream_generator (lit "request-0") sonnet35 (ContentStr (lit "Sure, "))
          ([FrameStr (wire "a0:'He");
            FrameList [wire "l'"; nl ++ wire "a0:'lo"];
            FrameStr (wire "'" ++ nl)] ++
           closing_frames (Some (wire "ad:{'finishReason':'content-filter'}" ++ nl)))
          streaming_world))
  = lit "Sure, " ++
    decoded_text [{| lane := 97; encoded := lit "Hel" |};
                  {| lane := 97; encoded := lit "lo" |}] ++
    (if json_is_str (JStr (lit "content-filter")) (lit "content-filter")
     then sse_warning else []) /\
  response_text
    (chunks_of
       (stream_generator (lit "request-0") sonnet35 (ContentStr (lit "Sure, "))
          ([FrameStr (wire "a0:'He");
            FrameList [wire "l'"; nl ++ wire "a0:'lo"];
            FrameStr (wire "'" ++ nl)] ++
           FrameStr (wire "a0:'429 Too Many Requests'" ++ nl) :: [FrameStr DONE_MARK])
          streaming_world))
  = lit "Sure, " ++
    decoded_text [{| lane := 97; encoded := lit "Hel" |};
                  {| lane := 97; encoded := lit "lo" |}] ++
    generate_rotation_message sonnet35 false.
Proof.
  destruct (content_stream_concatenates
              [{| lane := 97; encoded := lit "Hel" |}; {| lane := 97; encoded := lit "lo" |}]
              [FrameStr (wire "a0:'He");
               FrameList [wire "l'"; nl ++ wire "a0:'lo"];
               FrameStr (wire "'" ++ nl)]
              (lit "Sure, ") (lit "request-0") sonnet35 streaming_world 0%nat)
    as [Hdone Hlimit].
  - repeat constructor; by vm_compute.
  - repeat constructor; by vm_compute.
  - by vm_compute.
  - by vm_compute.
  - by vm_compute.
  - by vm_compute.
  - by vm_compute.
  - split.
    + apply Hdone.
      split; [by vm_compute|]. split; [by vm_compute|]. split; [by vm_compute|].
      eexists _, _, _. split; [vm_compute; reflexivity|].
      split; [vm_compute; reflexivity|by vm_compute].
    + apply (Hlimit _ _ false streaming_world).
      * by vm_compute.
      * by vm_compute.
      * by vm_compute.
      * by vm_compute.
Defined.

End ContentStreamExamples.

(** * Further properties *)

(** ** The pool: adding identifiers and rotating *)

Lemma message_key_inj (i j : nat) :
  message_key (str_of_nat i) = message_key (str_of_nat j) -> i = j.
Proof. unfold message_key. intros Heq. apply app_inv_head in Heq. by apply str_of_nat_inj. Qed.

Lemma session_key_not_message_key (x y : list N) : session_key x <> message_key y.
Proof. unfold session_key, message_key. intros Heq. vm_compute in Heq. discriminate. Qed.

Lemma current_index_not_message_key (x : list N) : lit "current_index" <> message_key x.
Proof. unfold message_key. intros Heq. vm_compute in Heq. discriminate. Qed.

Lemma mode_not_session_key (x : list N) : lit "mode" <> session_key x.
Proof. unfold session_key. intros Heq. vm_compute in Heq. discriminate. Qed.

Lemma mode_not_message_key (x : list N) : lit "mode" <> message_key x.
Proof. unfold message_key. intros Heq. vm_compute in Heq. discriminate. Qed.

Lemma battle_target_not_session_key (x : list N) : lit "battle_target" <> session_key x.
Proof. unfold session_key. intros Heq. vm_compute in Heq. discriminate. Qed.

Lemma battle_target_not_message_key (x : list N) : lit "battle_target" <> message_key x.
Proof. unfold message_key. intros Heq. vm_compute in Heq. discriminate. Qed.

Lemma has_pair_insert (m : gmap (list N) pool_value) (k : list N) (v : pool_value) (i : nat) :
  has_pair m i = true -> has_pair (<[k := v]> m) i = true.
Proof.
  unfold has_pair. rewrite !andb_true_iff, !bool_decide_eq_true. intros [Hs Hm].
  split.
  - destruct (decide (k = session_key (str_of_nat i))) as [->|Hne];
      [rewrite lookup_insert_eq; by eexists|by rewrite lookup_insert_ne].
  - destruct (decide (k = message_key (str_of_nat i))) as [->|Hne];
      [rewrite lookup_insert_eq; by eexists|by rewrite lookup_insert_ne].
Qed.

Lemma has_pair_insert_other (m : gmap (list N) pool_value) (k : list N) (v : pool_value)
    (i : nat) :
  k <> session_key (str_of_nat i) -> k <> message_key (str_of_nat i) ->
  has_pair (<[k := v]> m) i = has_pair m i.
Proof. intros Hs Hm. unfold has_pair. by rewrite !lookup_insert_ne. Qed.

Lemma session_count_loop_ge (m : gmap (list N) pool_value) (fuel index : nat) :
  (index <= session_count_loop fuel m index)%nat.
Proof.
  revert index. induction fuel as [|fuel IH]; intros index; simpl; [lia|].
  destruct (has_pair m index); [|lia]. specialize (IH (S index)). lia.
Qed.

(** Distinctness of the keys of a pool entry. *)
Ltac pool_keys :=
  first [ apply mode_not_session_key | apply mode_not_message_key
        | apply session_key_not_message_key
        | apply current_index_not_session_key | apply current_index_not_message_key
        | apply battle_target_not_session_key | apply battle_target_not_message_key
        | (let Heq := fresh in intros Heq; apply session_key_inj in Heq; lia)
        | (let Heq := fresh in intros Heq; apply message_key_inj in Heq; lia)
        | (let Heq := fresh in
           intros Heq; by apply (session_key_not_message_key _ _ (eq_sym Heq)))
        | (let Heq := fresh in intros Heq; vm_compute in Heq; discriminate) ].

(** The loop counts at least the pairs that are there without a gap. *)
Lemma session_count_loop_lower (m : gmap (list N) pool_value) (k : nat) :
  (forall i, (i < k)%nat -> has_pair m i = true) ->
  forall fuel index, (index <= k)%nat -> (k - index <= fuel)%nat ->
  (k <= session_count_loop fuel m index)%nat.
Proof.
  intros Hall. induction fuel as [|fuel IH]; intros index Hle Hfuel; simpl; [lia|].
  destruct (has_pair m index) eqn:Hp.
  - destruct (decide (index = k)) as [->|Hne].
    + pose proof (session_count_loop_ge m fuel (S k)). lia.
    + apply IH; lia.
  - destruct (decide (index = k)) as [->|Hne]; [lia|]. rewrite Hall in Hp by lia. done.
Qed.

Lemma get_available_session_count_lower (m : gmap (list N) pool_value) (k : nat) :
  (forall i, (i < k)%nat -> has_pair m i = true) -> (k <= get_available_session_count m)%nat.
Proof.
  intros Hall. apply session_count_loop_lower; [done|lia|].
  pose proof (pairs_bounded_by_size m k Hall). lia.
Qed.

(** X1.  Adding identifiers to an entry that holds the pairs 0 to n-1 and
    none at n stores them as pair n and returns n: the entry gains that pair
    and the mode, keeps every other key (cursor and older pairs included),
    and the number of pairs that the server counts grows, to n+1 when no
    pair n+1 was lying beyond the gap. *)
Theorem add_ids_appends_pair (model_map : gmap (list N) pool_entry) (model_name : list N)
    (m : gmap (list N) pool_value) (n : nat) (session_id message_id mode : pool_value) :
  model_map !! model_name = Some (PoolDict m) ->
  pairs_up_to m n ->
  exists m',
    add_ids_to_model model_map model_name session_id message_id mode =
      (Return n, <[model_name := PoolDict m']> model_map) /\
    m' !! session_key (str_of_nat n) = Some session_id /\
    m' !! message_key (str_of_nat n) = Some message_id /\
    m' !! lit "mode" = Some mode /\
    (forall k, k <> session_key (str_of_nat n) -> k <> message_key (str_of_nat n) ->
               k <> lit "mode" -> m' !! k = m !! k) /\
    (n < get_available_session_count m')%nat /\
    (has_pair m (S n) = false -> get_available_session_count m' = S n).
Proof.
  intros Hentry [Hlt Hn].
  assert (Hnext : get_next_index_for_model m = n).
  { by apply get_available_session_count_spec. }
  eexists. split.
  { unfold add_ids_to_model. rewrite Hentry, Hnext. reflexivity. }
  assert (Hall : forall i, (i < S n)%nat ->
            has_pair (<[lit "mode" := mode]>
                       (<[message_key (str_of_nat n) := message_id]>
                        (<[session_key (str_of_nat n) := session_id]> m))) i = true).
  { intros i Hi. destruct (decide (i = n)) as [->|Hne].
    - unfold has_pair.
      rewrite !(lookup_insert_ne _ (lit "mode")) by
        (apply mode_not_session_key || apply mode_not_message_key).
      rewrite lookup_insert_eq.
      rewrite lookup_insert_ne by (intros Heq; by apply (session_key_not_message_key _ _ (eq_sym Heq))).
      rewrite lookup_insert_eq. by rewrite !bool_decide_eq_true_2 by eauto.
    - do 3 apply has_pair_insert. apply Hlt. lia. }
  split; [|split; [|split; [|split; [|split]]]].
  - rewrite lookup_insert_ne by apply mode_not_session_key.
    rewrite lookup_insert_ne by (intros Heq; by apply (session_key_not_message_key _ _ (eq_sym Heq))).
    apply lookup_insert_eq.
  - rewrite lookup_insert_ne by apply mode_not_message_key. apply lookup_insert_eq.
  - apply lookup_insert_eq.
  - intros k Hs Hm Hmode. by rewrite !lookup_insert_ne.
  - pose proof (get_available_session_count_lower _ (S n) Hall). lia.
  - intros Hgap. apply get_available_session_count_spec; [done|].
    rewrite !has_pair_insert_other; try done; pool_keys.
Qed.

Lemma add_ids_appends_pair_witness :
  exists m',
    add_ids_to_model {[ opus := PoolDict two_pairs ]} opus
      (VStr (lit "session-two")) (VStr (lit "message-two")) (VStr (lit "battle")) =
      (Return 2%nat, <[opus := PoolDict m']> {[ opus := PoolDict two_pairs ]}) /\
    get_available_session_count m' = 3%nat.
Proof.
  destruct (add_ids_appends_pair {[ opus := PoolDict two_pairs ]} opus two_pairs 2
              (VStr (lit "session-two")) (VStr (lit "message-two")) (VStr (lit "battle")))
    as (m' & Hadd & _ & _ & _ & _ & _ & Hcount).
  - by vm_compute.
  - split; [|by vm_compute]. intros i Hi. destruct i as [|[|i]]; [by vm_compute|by vm_compute|lia].
  - exists m'. split; [exact Hadd|]. apply Hcount. by vm_compute.
Defined.

Lemma numbered_pairs_up_to (m : gmap (list N) pool_value) (n : nat) :
  numbered_pairs m n -> pairs_up_to m n.
Proof.
  intros Hn. split; [|apply Hn]. intros i Hi. by eapply numbered_pairs_has_pair.
Qed.

Lemma numbered_pairs_cursor (m : gmap (list N) pool_value) (n : nat) (v : pool_value) :
  numbered_pairs m n -> numbered_pairs (<[lit "current_index" := v]> m) n.
Proof.
  intros [Hp Hn]. split.
  - intros i Hi. destruct (Hp i Hi) as (s & t & Hs & Ht). exists s, t.
    rewrite !lookup_insert_ne by pool_keys. done.
  - rewrite has_pair_insert_other by pool_keys. done.
Qed.

(** One rotation in a pool of at least two pairs. *)
Lemma rotate_model_session_next (w : World) (model : list N) (m : gmap (list N) pool_value)
    (old : Z) (n : nat) :
  MODEL_ENDPOINT_MAP w !! model = Some (PoolDict m) ->
  m !! lit "current_index" = Some (VInt old) ->
  numbered_pairs m n -> (2 <= n)%nat ->
  is_VInt (m !! session_key (str_of_Z old)) = false ->
  rotate_model_session model w =
  (Return true,
   save_model_endpoint_map
     (set_MODEL_ENDPOINT_MAP
        (<[model := PoolDict (<[lit "current_index" := VInt ((old + 1) mod Z.of_nat n)]> m)]>
           (MODEL_ENDPOINT_MAP w)) w)).
Proof.
  intros Hentry Hci Hpairs Hn Hold.
  pose proof (numbered_pairs_count m n Hpairs) as Hcount.
  unfold rotate_model_session. rewrite Hentry, Hci, Hcount.
  destruct (n <=? 1)%nat eqn:Hle; [apply Nat.leb_le in Hle; lia|].
  set (next := ((old + 1) mod Z.of_nat n)%Z).
  assert (Hrange : (0 <= next < Z.of_nat n)%Z) by (apply Z.mod_pos_bound; lia).
  assert (Hnext : str_of_Z next = str_of_nat (Z.to_nat next)).
  { rewrite <- str_of_Z_of_nat. f_equal. lia. }
  destruct Hpairs as [Hp _].
  destruct (Hp (Z.to_nat next) ltac:(lia)) as (s & t & Hs & Ht).
  rewrite Hnext, Hs, Ht.
  rewrite !bool_decide_eq_true_2 by eauto. cbn [negb orb].
  rewrite !lookup_insert_ne by apply current_index_not_session_key.
  rewrite Hold, Hs. reflexivity.
Qed.

Lemma numbered_pair_not_int (m : gmap (list N) pool_value) (n : nat) (c : Z) :
  numbered_pairs m n -> (0 <= c < Z.of_nat n)%Z ->
  is_VInt (m !! session_key (str_of_Z c)) = false.
Proof.
  intros [Hp _] Hc. destruct (Hp (Z.to_nat c) ltac:(lia)) as (s & t & Hs & _).
  replace (str_of_Z c) with (str_of_nat (Z.to_nat c)).
  - by rewrite Hs.
  - rewrite <- str_of_Z_of_nat. f_equal. lia.
Qed.

Lemma rotate_times_spec (model : list N) (n : nat) (k : nat) :
  (2 <= n)%nat ->
  forall (w : World) (m : gmap (list N) pool_value) (old : Z),
  MODEL_ENDPOINT_MAP w !! model = Some (PoolDict m) ->
  m !! lit "current_index" = Some (VInt old) ->
  numbered_pairs m n ->
  is_VInt (m !! session_key (str_of_Z old)) = false ->
  fst (rotate_times (S k) model w) = replicate (S k) (Return true) /\
  MODEL_ENDPOINT_MAP (snd (rotate_times (S k) model w)) =
    <[model := PoolDict (<[lit "current_index" := VInt ((old + Z.of_nat (S k)) mod Z.of_nat n)]> m)]>
      (MODEL_ENDPOINT_MAP w) /\
  length (effects (snd (rotate_times (S k) model w))) = (length (effects w) + S k)%nat.
Proof.
  intros Hn. induction k as [|k IH]; intros w m old Hentry Hci Hpairs Hold.
  - cbn [rotate_times]. rewrite (rotate_model_session_next w model m old n) by done.
    cbn. split; [done|]. split; [done|]. rewrite length_app. cbn. lia.
  - change (rotate_times (S (S k)) model w)
      with (let '(r, w1) := rotate_model_session model w in
            let '(rs, w2) := rotate_times (S k) model w1 in (r :: rs, w2)).
    rewrite (rotate_model_session_next w model m old n) by done.
    set (c1 := ((old + 1) mod Z.of_nat n)%Z).
    set (w1 := save_model_endpoint_map _).
    assert (Hrange : (0 <= c1 < Z.of_nat n)%Z) by (apply Z.mod_pos_bound; lia).
    destruct (IH w1 (<[lit "current_index" := VInt c1]> m) c1) as (Hres & Hmap & Heff).
    + unfold w1. cbn. apply lookup_insert_eq.
    + apply lookup_insert_eq.
    + by apply numbered_pairs_cursor.
    + apply numbered_pair_not_int with (n := n); [|done]. by apply numbered_pairs_cursor.
    + destruct (rotate_times (S k) model w1) as [rs w2]. cbn [fst snd] in *.
      split; [by rewrite Hres|]. split.
      * rewrite Hmap. unfold w1. cbn. rewrite !insert_insert_eq.
        replace ((c1 + Z.of_nat (S k)) mod Z.of_nat n)%Z
          with ((old + Z.of_nat (S (S k))) mod Z.of_nat n)%Z; [done|].
        unfold c1. rewrite Zplus_mod_idemp_l. f_equal. lia.
      * rewrite Heff. unfold w1. cbn. rewrite length_app. cbn. lia.
Qed.

(** X2.  Rotation is cyclic.  In a pool of n >= 2 pairs, k rate-limit
    rotations in a row all succeed, move the cursor to (old + k) mod n and
    write the pool k times; after n of them a cursor that was within the
    pool is back where it started and the pool is as it was. *)
Theorem rotation_is_cyclic (w : World) (model : list N) (m : gmap (list N) pool_value)
    (old : Z) (n k : nat) :
  MODEL_ENDPOINT_MAP w !! model = Some (PoolDict m) ->
  m !! lit "current_index" = Some (VInt old) ->
  numbered_pairs m n -> (2 <= n)%nat ->
  is_VInt (m !! session_key (str_of_Z old)) = false ->
  (fst (rotate_times (S k) model w) = replicate (S k) (Return true) /\
   MODEL_ENDPOINT_MAP (snd (rotate_times (S k) model w)) =
     <[model := PoolDict (<[lit "current_index" := VInt ((old + Z.of_nat (S k)) mod Z.of_nat n)]> m)]>
       (MODEL_ENDPOINT_MAP w) /\
   length (effects (snd (rotate_times (S k) model w))) = (length (effects w) + S k)%nat) /\
  ((0 <= old < Z.of_nat n)%Z ->
   MODEL_ENDPOINT_MAP (snd (rotate_times n model w)) = MODEL_ENDPOINT_MAP w).
Proof.
  intros Hentry Hci Hpairs Hn Hold. split; [by apply rotate_times_spec|].
  intros Hrange. destruct n as [|n]; [lia|].
  destruct (rotate_times_spec model (S n) n Hn w m old) as (_ & Hmap & _); try done.
  rewrite Hmap.
  replace ((old + Z.of_nat (S n)) mod Z.of_nat (S n))%Z with old.
  - by rewrite (insert_id m), (insert_id (MODEL_ENDPOINT_MAP w)).
  - rewrite <- (Z.mul_1_l (Z.of_nat (S n))) at 1. rewrite Z.mod_add by lia.
    symmetry. apply Z.mod_small. lia.
Qed.

Lemma rotation_is_cyclic_witness :
  MODEL_ENDPOINT_MAP (snd (rotate_times 2 opus rotation_world)) =
  MODEL_ENDPOINT_MAP rotation_world.
Proof.
  destruct (rotation_is_cyclic rotation_world opus two_pairs 0 2 0) as [_ Hback].
  - reflexivity.
  - reflexivity.
  - exact two_pairs_numbered.
  - lia.
  - reflexivity.
  - apply Hback. lia.
Defined.

Section PoolProperties.
Context `{PyLib}.

(** X3.  Adding identifiers for a model that the map does not hold creates
    an entry that a server holding that map resolves to these identifiers
    and this mode, with no battle target; the entry has a single pair, so a
    rotation in it is refused and changes nothing.  The other entries of
    the map are left alone. *)
Theorem new_model_resolves (w : World) (model_name : list N)
    (session_id message_id mode : pool_value) :
  MODEL_ENDPOINT_MAP w !! model_name = None ->
  let r := add_ids_to_model (MODEL_ENDPOINT_MAP w) model_name session_id message_id mode in
  let w' := set_MODEL_ENDPOINT_MAP (snd r) w in
  fst r = Return 0%nat /\
  get_current_session_ids (Some model_name) w' =
    ((Some session_id, Some message_id, Some mode, None), w') /\
  rotate_model_session model_name w' = (Return false, w') /\
  (forall other, other <> model_name -> snd r !! other = MODEL_ENDPOINT_MAP w !! other).
Proof.
  intros Hnone r w'. subst r w'. unfold add_ids_to_model. rewrite Hnone. cbn [fst snd].
  set (entry := <[lit "session_id0" := session_id]> _).
  split; [done|]. split; [|split].
  - unfold get_current_session_ids. cbn [mbind option_bind MODEL_ENDPOINT_MAP set_MODEL_ENDPOINT_MAP].
    rewrite lookup_insert_eq.
    replace (entry !! lit "current_index") with (Some (VInt 0)) by (by vm_compute).
    replace (entry !! session_key (pool_value_str (VInt 0))) with (Some session_id)
      by (by vm_compute).
    replace (entry !! message_key (pool_value_str (VInt 0))) with (Some message_id)
      by (by vm_compute).
    replace (entry !! lit "mode") with (Some mode) by (by vm_compute).
    replace (entry !! lit "battle_target") with (@None pool_value) by (by vm_compute).
    done.
  - unfold rotate_model_session. cbn [MODEL_ENDPOINT_MAP set_MODEL_ENDPOINT_MAP].
    rewrite lookup_insert_eq.
    replace (entry !! lit "current_index") with (Some (VInt 0)) by (by vm_compute).
    replace (get_available_session_count entry) with 1%nat by (by vm_compute).
    done.
  - intros other Hne. by rewrite lookup_insert_ne.
Qed.


End PoolProperties.

Section PoolExamples.
#[local] Existing Instance example_lib.

Lemma new_model_resolves_witness :
  fst (get_current_session_ids (Some opus)
         (set_MODEL_ENDPOINT_MAP
            (snd (add_ids_to_model (MODEL_ENDPOINT_MAP empty_world) opus
                    (VStr (lit "session-new")) (VStr (lit "message-new"))
                    (VStr (lit "direct_chat"))))
            empty_world))
  = (Some (VStr (lit "session-new")), Some (VStr (lit "message-new")),
     Some (VStr (lit "direct_chat")), None).
Proof.
  destruct (new_model_resolves empty_world opus (VStr (lit "session-new"))
              (VStr (lit "message-new")) (VStr (lit "direct_chat"))) as (_ & Hids & _).
  - reflexivity.
  - rewrite Hids. reflexivity.
Defined.


End PoolExamples.

(** ** Administration panel *)

Lemma validate_admin_token_valid (token : list N) (st : AdminState) (w : World) :
  session_valid token st w -> validate_admin_token token st w = (true, st, snd (now w)).
Proof.
  intros (Hne & session & Hs & Hle). unfold validate_admin_token.
  destruct token as [|c t]; [done|]. rewrite Hs. cbn.
  destruct (clock w (clock_reads w) >? expires_at session)%Z eqn:Hgt; [lia|done].
Qed.

Lemma get_admin_token_valid (token : list N) (st : AdminState) (w : World) :
  session_valid token st w ->
  get_admin_token (Some token) st w = (inr token, st, snd (now w)).
Proof.
  intros Hv. unfold get_admin_token. by rewrite validate_admin_token_valid.
Qed.

(** A bearer that names no unexpired session is refused, and the refusal
    leaves the registry and the outside world alone. *)
Lemma get_admin_token_invalid (credentials : option (list N)) (st : AdminState) (w : World) :
  (forall token, credentials = Some token -> ~ session_valid token st w) ->
  exists detail st1 w1,
    get_admin_token credentials st w = (inl (AdminDenied 401 detail), st1, w1) /\
    API_KEYS_DATA w1 = API_KEYS_DATA w /\ effects w1 = effects w /\ CONFIG w1 = CONFIG w.
Proof.
  intros Hno. unfold get_admin_token. destruct credentials as [token|]; [|by eexists _, _, _].
  specialize (Hno token eq_refl). unfold validate_admin_token.
  destruct token as [|c t]; [by eexists _, _, _|].
  destruct (ADMIN_SESSIONS st !! (c :: t)) as [session|] eqn:Hs; [|by eexists _, _, _].
  cbn. destruct (clock w (clock_reads w) >? expires_at session)%Z eqn:Hgt;
    [by eexists _, _, _|].
  exfalso. apply Hno. split; [done|]. exists session. split; [done|lia].
Qed.

(** X5.  A session of the panel lives eight hours from its creation: the
    token is accepted at every reading of the clock up to the expiry (the
    second reading of the creation plus eight hours), and the first
    validation after the expiry removes the session, so that the token is
    refused from then on whatever the clock reads. *)
Theorem admin_session_lifetime (token : list N) (st : AdminState) (w : World) :
  token <> [] ->
  let st1 := fst (create_admin_session token st w) in
  let expiry := (clock w (S (clock_reads w)) + eight_hours)%Z in
  ADMIN_SESSIONS st1 !! token =
    Some {| created_at := clock w (clock_reads w); expires_at := expiry |} /\
  forall w2,
    ((clock w2 (clock_reads w2) <= expiry)%Z ->
       validate_admin_token token st1 w2 = (true, st1, snd (now w2))) /\
    ((clock w2 (clock_reads w2) > expiry)%Z ->
       exists st2, validate_admin_token token st1 w2 = (false, st2, snd (now w2)) /\
                   ADMIN_SESSIONS st2 !! token = None /\
                   forall w3, validate_admin_token token st2 w3 = (false, st2, w3)).
Proof.
  intros Hne st1 expiry.
  assert (Hs : ADMIN_SESSIONS st1 !! token =
               Some {| created_at := clock w (clock_reads w); expires_at := expiry |}).
  { unfold st1, create_admin_session. cbn. apply lookup_insert_eq. }
  split; [done|]. intros w2. split.
  - intros Hle. apply validate_admin_token_valid. split; [done|]. by eexists.
  - intros Hgt. unfold validate_admin_token. destruct token as [|c t]; [done|].
    rewrite Hs. cbn.
    destruct (clock w2 (clock_reads w2) >? expiry)%Z eqn:Hcmp; [|lia].
    eexists. split; [reflexivity|]. cbn. split; [apply lookup_delete_eq|].
    intros w3. by rewrite lookup_delete_eq.
Qed.

Lemma admin_session_lifetime_witness :
  validate_admin_token (lit "tok") (fst (create_admin_session (lit "tok") admin_state empty_world))
    empty_world
  = (true, fst (create_admin_session (lit "tok") admin_state empty_world), snd (now empty_world)).
Proof.
  destruct (admin_session_lifetime (lit "tok") admin_state empty_world) as [_ Hlife].
  - discriminate.
  - apply Hlife. by vm_compute.
Defined.

(** X6.  A login succeeds exactly when the panel is enabled and the body
    carries, as a non-empty string, the password that the configuration
    sets; without a configured password no body opens a session.  A login
    that fails neither reads the clock nor touches the sessions. *)
Theorem admin_login_guard (request_json : option (option (list N))) (token : list N)
    (st : AdminState) (w : World) :
  ((exists tok e, fst (fst (admin_login request_json token st w)) = LoginOk tok e) <->
   default true (cfg_admin_enabled st) = true /\
   exists p, p <> [] /\ request_json = Some (Some p) /\ cfg_admin_password st = Some p) /\
  ((forall tok e, fst (fst (admin_login request_json token st w)) <> LoginOk tok e) ->
   snd (fst (admin_login request_json token st w)) = st /\
   snd (admin_login request_json token st w) = w).
Proof.
  unfold admin_login, verify_admin_password.
  assert (Hrefuse : forall (r : admin_response) (P : Prop),
            (forall tok e, r <> LoginOk tok e) -> ~ P ->
            ((exists tok e, fst (fst (r, st, w)) = LoginOk tok e) <-> P) /\
            ((forall tok e, fst (fst (r, st, w)) <> LoginOk tok e) ->
             snd (fst (r, st, w)) = st /\ snd (r, st, w) = w)).
  { intros r P Hr HP. split; [|done]. split; [|done].
    intros (tok & e & Heq). by destruct (Hr tok e). }
  destruct (default true (cfg_admin_enabled st)) eqn:Hen; cbn [negb].
  - destruct request_json as [[[|c p]|]|]; cbn [truthy_str negb default from_option id].
    + apply Hrefuse; [done|]. intros [_ (q & Hq & [= <-] & _)]. done.
    + destruct (cfg_admin_password st) as [[|c' p']|] eqn:Hpw.
      * apply Hrefuse; [done|]. intros [_ (q & _ & [= <-] & [=])].
      * destruct (str_eqb (c :: p) (c' :: p')) eqn:Heq; cbn [negb].
        -- apply str_eqb_eq in Heq as [= <- <-].
           destruct (cleanup_expired_admin_sessions st w) as [st1 w1].
           destruct (create_admin_session token st1 w1) as [st2 w2]. cbn [fst snd].
           split.
           ++ split; [|by eexists _, _]. intros _. split; [done|]. by exists (c :: p).
           ++ intros Hno. by destruct (Hno token 28800%Z).
        -- apply Hrefuse; [done|]. intros [_ (q & _ & [= <-] & [= <- <-])].
           by rewrite str_eqb_refl in Heq.
      * apply Hrefuse; [done|]. intros [_ (q & _ & _ & [=])].
    + apply Hrefuse; [done|]. intros [_ (q & _ & [=] & _)].
    + apply Hrefuse; [done|]. intros [_ (q & _ & [=] & _)].
  - apply Hrefuse; [done|]. intros [[=] _].
Qed.

(** ** Administration of the keys *)

Lemma validate_api_key_ext (key : list N) (model : option (list N)) (w w' : World) :
  CONFIG w' = CONFIG w -> API_KEYS_DATA w' = API_KEYS_DATA w ->
  MODEL_NAME_TO_ID_MAP w' = MODEL_NAME_TO_ID_MAP w ->
  validate_api_key key model w' = validate_api_key key model w.
Proof.
  intros Hc Hk Hm. unfold validate_api_key, catalog_names. by rewrite Hc, Hk, Hm.
Qed.

(** X7.  Without a bearer that names an unexpired session of the panel,
    the toggle and delete endpoints answer 401, and neither the registry
    nor the keys file changes. *)
Theorem key_administration_needs_a_session (key_id : list N) (credentials : option (list N))
    (st : AdminState) (w : World) :
  (forall token, credentials = Some token -> ~ session_valid token st w) ->
  ((exists detail, fst (fst (toggle_api_key key_id credentials st w)) = AdminDenied 401 detail) /\
   API_KEYS_DATA (snd (toggle_api_key key_id credentials st w)) = API_KEYS_DATA w /\
   effects (snd (toggle_api_key key_id credentials st w)) = effects w) /\
  ((exists detail, fst (fst (delete_api_key key_id credentials st w)) = AdminDenied 401 detail) /\
   API_KEYS_DATA (snd (delete_api_key key_id credentials st w)) = API_KEYS_DATA w /\
   effects (snd (delete_api_key key_id credentials st w)) = effects w).
Proof.
  intros Hno.
  destruct (get_admin_token_invalid credentials st w Hno)
    as (detail & st1 & w1 & Hdenied & Hk & He & _).
  unfold toggle_api_key, delete_api_key. rewrite Hdenied. cbn [fst snd].
  split; (split; [by exists detail|done]).
Qed.

Lemma key_administration_needs_a_session_witness :
  API_KEYS_DATA (snd (delete_api_key (lit "sk-managed") None admin_state keyed_world))
  = API_KEYS_DATA keyed_world.
Proof.
  destruct (key_administration_needs_a_session (lit "sk-managed") None admin_state keyed_world)
    as [_ (_ & Hk & _)].
  - intros token [=].
  - exact Hk.
Defined.

(** X8.  Toggling an enabled managed key with a valid session disables it:
    the key is refused as disabled for every model.  Toggling it again
    restores the registry, and so the verdict on the key; the keys file is
    written at each toggle. *)
Theorem toggle_disables_then_restores (key_id token : list N) (kd : KeyData)
    (st : AdminState) (w : World) (model : option (list N)) :
  session_valid token st w ->
  session_valid token st (snd (now w)) ->
  API_KEYS_DATA w !! key_id = Some kd ->
  cfg_api_key (CONFIG w) <> Some key_id ->
  key_id <> [] ->
  kd_enabled kd = Some true ->
  let r1 := toggle_api_key key_id (Some token) st w in
  let r2 := toggle_api_key key_id (Some token) (snd (fst r1)) (snd r1) in
  validate_api_key key_id model (snd r1) = KeyInvalid (lit "API key deshabilitada") /\
  API_KEYS_DATA (snd r2) = API_KEYS_DATA w /\
  validate_api_key key_id model (snd r2) = validate_api_key key_id model w /\
  effects (snd r2) =
    effects w ++ [WriteApiKeys (API_KEYS_DATA (snd r1)); WriteApiKeys (API_KEYS_DATA w)].
Proof.
  intros Hv1 Hv2 Hk Hne Hkey Hen r1 r2.
  assert (Hr1 : r1 = (AdminMessage (lit "API key " ++ lit "deshabilitada" ++ lit " exitosamente"),
                      st,
                      save_api_keys
                        (set_API_KEYS_DATA
                           (<[key_id := {| kd_enabled := Some false;
                                           kd_usage_limit := kd_usage_limit kd;
                                           kd_usage_count := kd_usage_count kd;
                                           kd_models := kd_models kd;
                                           kd_last_used := kd_last_used kd |}]>
                              (API_KEYS_DATA w)) (snd (now w))))).
  { unfold r1, toggle_api_key. rewrite (get_admin_token_valid token st w Hv1).
    change (API_KEYS_DATA (snd (now w))) with (API_KEYS_DATA w). rewrite Hk, Hen. done. }
  set (w1 := save_api_keys _) in Hr1.
  assert (Hv2' : session_valid token st w1) by exact Hv2.
  assert (Hk1 : API_KEYS_DATA (snd (now w1)) !! key_id =
                Some {| kd_enabled := Some false; kd_usage_limit := kd_usage_limit kd;
                        kd_usage_count := kd_usage_count kd; kd_models := kd_models kd;
                        kd_last_used := kd_last_used kd |}).
  { unfold w1. cbn. apply lookup_insert_eq. }
  assert (Hr2 : snd r2 = save_api_keys (set_API_KEYS_DATA (API_KEYS_DATA w) (snd (now w1)))).
  { unfold r2. rewrite Hr1. cbn [fst snd]. unfold toggle_api_key.
    rewrite (get_admin_token_valid token st w1 Hv2'), Hk1. cbn [fst snd].
    f_equal. f_equal. unfold w1. cbn. rewrite insert_insert_eq.
    rewrite <- Hen. destruct kd. cbn. by apply insert_id. }
  rewrite Hr2, Hr1. cbn [snd]. split; [|split; [done|split]].
  - unfold validate_api_key. destruct key_id as [|c k]; [done|]. cbn [str_eqb].
    change (CONFIG w1) with (CONFIG w). rewrite (not_global (c :: k) w Hne).
    unfold w1. cbn. by rewrite lookup_insert_eq.
  - by apply validate_api_key_ext.
  - unfold w1, save_api_keys, emit. cbn. by rewrite <- app_assoc.
Qed.

(** X9.  Deleting a managed key with a valid session removes it from the
    registry and writes the keys file; from then on the key is refused as
    unknown, for every model, and lists no model. *)
Theorem deleted_key_is_refused (key_id token : list N) (kd : KeyData)
    (st : AdminState) (w : World) (model : option (list N)) :
  session_valid token st w ->
  API_KEYS_DATA w !! key_id = Some kd ->
  cfg_api_key (CONFIG w) <> Some key_id ->
  key_id <> [] ->
  let w1 := snd (delete_api_key key_id (Some token) st w) in
  API_KEYS_DATA w1 = delete key_id (API_KEYS_DATA w) /\
  effects w1 = effects w ++ [WriteApiKeys (API_KEYS_DATA w1)] /\
  validate_api_key key_id model w1 = KeyInvalid (lit "API key inválida") /\
  get_models_for_api_key key_id w1 = [].
Proof.
  intros Hv Hk Hne Hkey w1.
  assert (Hw1 : w1 = save_api_keys (set_API_KEYS_DATA (delete key_id (API_KEYS_DATA w))
                                      (snd (now w)))).
  { unfold w1, delete_api_key. rewrite (get_admin_token_valid token st w Hv).
    change (API_KEYS_DATA (snd (now w))) with (API_KEYS_DATA w). by rewrite Hk. }
  rewrite Hw1. split; [done|]. split; [done|].
  assert (Hval : forall mo, validate_api_key key_id mo
                   (save_api_keys (set_API_KEYS_DATA (delete key_id (API_KEYS_DATA w))
                                     (snd (now w)))) = KeyInvalid (lit "API key inválida")).
  { intros mo. unfold validate_api_key. destruct key_id as [|c k]; [done|]. cbn [str_eqb].
    change (CONFIG (save_api_keys _)) with (CONFIG w). rewrite (not_global (c :: k) w Hne).
    cbn. by rewrite lookup_delete_eq. }
  split; [apply Hval|]. unfold get_models_for_api_key. by rewrite Hval.
Qed.

Section KeyExamples.
#[local] Existing Instance example_lib.

Lemma toggle_disables_then_restores_witness :
  validate_api_key (lit "sk-managed") (Some sonnet35)
    (snd (toggle_api_key (lit "sk-managed") (Some (lit "tok")) admin_session_state keyed_world))
  = KeyInvalid (lit "API key deshabilitada").
Proof.
  destruct (toggle_disables_then_restores (lit "sk-managed") (lit "tok")
              {| kd_enabled := Some true; kd_usage_limit := Some 2%Z;
                 kd_usage_count := Some 1%Z; kd_models := []; kd_last_used := None |}
              admin_session_state keyed_world (Some sonnet35)) as (Hoff & _).
  - split; [discriminate|]. eexists. split; [by vm_compute|]. cbn. lia.
  - split; [discriminate|]. eexists. split; [by vm_compute|]. cbn. lia.
  - by vm_compute.
  - discriminate.
  - discriminate.
  - reflexivity.
  - exact Hoff.
Defined.

Lemma deleted_key_is_refused_witness :
  validate_api_key (lit "sk-managed") (Some sonnet35)
    (snd (delete_api_key (lit "sk-managed") (Some (lit "tok")) admin_session_state keyed_world))
  = KeyInvalid (lit "API key inválida").
Proof.
  destruct (deleted_key_is_refused (lit "sk-managed") (lit "tok")
              {| kd_enabled := Some true; kd_usage_limit := Some 2%Z;
                 kd_usage_count := Some 1%Z; kd_models := []; kd_last_used := None |}
              admin_session_state keyed_world (Some sonnet35)) as (_ & _ & Hval & _).
  - split; [discriminate|]. eexists. split; [by vm_compute|]. cbn. lia.
  - by vm_compute.
  - discriminate.
  - discriminate.
  - exact Hval.
Defined.

End KeyExamples.

Section OpenServer.
Context `{PyLib}.

(** X10.  Authentication is on only while a key is configured.  When the
    registry holds a single key and config.jsonc sets no global key, a call
    without a bearer is answered 401; once that key has been deleted, every
    call is handed to the dispatcher unauthenticated, whatever its
    Authorization header. *)
Theorem deleting_the_last_key_opens_the_server (key_id token : list N) (kd : KeyData)
    (st : AdminState) (w : World) (request : http_request) (req : openai_request) :
  session_valid token st w ->
  API_KEYS_DATA w = {[ key_id := kd ]} ->
  truthy_str (cfg_api_key (default empty_config (config_jsonc w))) = false ->
  body request = Some req ->
  let w1 := snd (delete_api_key key_id (Some token) st w) in
  fst (chat_completions {| authorization := None; body := Some req |} w)
    = HTTPException 401 no_key_provided /\
  chat_completions request w1 = dispatch req (entered w1).
Proof.
  intros Hv Hreg Hglobal Hbody w1. split.
  - rewrite chat_completions_eq. cbn [body].
    rewrite (registry_key_configures key_id kd (entered w)); [done|].
    change (API_KEYS_DATA (entered w)) with (API_KEYS_DATA w).
    rewrite Hreg. apply lookup_singleton_eq.
  - assert (Hw1 : w1 = save_api_keys (set_API_KEYS_DATA (delete key_id (API_KEYS_DATA w))
                                        (snd (now w)))).
    { unfold w1, delete_api_key. rewrite (get_admin_token_valid token st w Hv).
      change (API_KEYS_DATA (snd (now w))) with (API_KEYS_DATA w).
      by rewrite Hreg, lookup_singleton_eq. }
    rewrite chat_completions_eq, Hbody.
    assert (Hoff : keys_configured (entered w1) = false).
    { unfold keys_configured. rewrite Hw1.
      change (CONFIG (entered _)) with (default empty_config (config_jsonc w)).
      rewrite Hglobal. cbn [orb].
      change (API_KEYS_DATA (entered _)) with (delete key_id (API_KEYS_DATA w)).
      rewrite Hreg, delete_singleton_eq. by rewrite bool_decide_eq_true_2. }
    by rewrite Hoff.
Qed.

End OpenServer.

Section OpenServerExamples.
#[local] Existing Instance example_lib.

Lemma deleting_the_last_key_opens_the_server_witness :
  fst (chat_completions {| authorization := None; body := Some hi_request |}
         (set_API_KEYS_DATA
            {[ lit "sk-managed" := {| kd_enabled := Some true; kd_usage_limit := None;
                                      kd_usage_count := None; kd_models := [];
                                      kd_last_used := None |} ]} empty_world))
  = HTTPException 401 no_key_provided.
Proof.
  destruct (deleting_the_last_key_opens_the_server (lit "sk-managed") (lit "tok")
              {| kd_enabled := Some true; kd_usage_limit := None; kd_usage_count := None;
                 kd_models := []; kd_last_used := None |}
              admin_session_state
              (set_API_KEYS_DATA
                 {[ lit "sk-managed" := {| kd_enabled := Some true; kd_usage_limit := None;
                                           kd_usage_count := None; kd_models := [];
                                           kd_last_used := None |} ]} empty_world)
              {| authorization := None; body := Some hi_request |} hi_request) as [H401 _].
  - split; [discriminate|]. eexists. split; [by vm_compute|]. cbn. lia.
  - reflexivity.
  - reflexivity.
  - reflexivity.
  - exact H401.
Defined.

End OpenServerExamples.

(** ** Pagination of the key listing *)

Lemma py_slice_window {A : Type} (l : list A) (a n : Z) :
  (0 <= a)%Z -> (0 <= n)%Z ->
  py_slice l a (a + n) = take (Z.to_nat n) (drop (Z.to_nat a) l).
Proof.
  intros Ha Hn. unfold py_slice, slice_index.
  destruct (a <? 0)%Z eqn:Ha'; [lia|]. destruct (a + n <? 0)%Z eqn:Hb'; [lia|].
  destruct (decide (Z.of_nat (length l) <= a)%Z) as [Hout|Hin].
  - rewrite (drop_ge l (Z.to_nat a)) by lia.
    rewrite drop_ge by lia. by rewrite !take_nil.
  - replace (Z.min (Z.of_nat (length l)) a) with a by lia.
    destruct (decide (a + n <= Z.of_nat (length l))%Z) as [Hfit|Hover].
    + f_equal. lia.
    + rewrite !take_ge; [done| |]; rewrite length_drop; lia.
Qed.

Lemma pages_upto_take {A : Type} (l : list A) (limit : Z) (k : nat) :
  (1 <= limit)%Z -> pages_upto l limit k = take (k * Z.to_nat limit) l.
Proof.
  intros Hl. unfold pages_upto. induction k as [|k IH]; [done|].
  rewrite seq_S, flat_map_app, IH. cbn [flat_map]. rewrite app_nil_r.
  unfold paginate. destruct (limit =? 0)%Z eqn:Hz; [lia|]. cbn [page_keys].
  rewrite py_slice_window by lia.
  replace (Z.to_nat ((Z.of_nat (1 + k) - 1) * limit)) with (k * Z.to_nat limit)%nat by nia.
  rewrite take_take_drop. f_equal. lia.
Qed.

(** X11.  With a positive page size the pages partition the listing: the
    pages 1 to total_pages, put end to end, are the filtered keys in their
    order; every page before the last is full and announces a next page,
    the last page is not empty and announces none, and the pages beyond it,
    like page 0, are empty. *)
Theorem pages_partition_the_listing {A : Type} (filtered_keys : list A) (limit : Z) :
  (1 <= limit)%Z ->
  exists tp,
    (forall page, exists pg,
       paginate filtered_keys page limit = Some pg /\ total_pages pg = tp /\
       total_keys pg = Z.of_nat (length filtered_keys)) /\
    pages_upto filtered_keys limit (Z.to_nat tp) = filtered_keys /\
    forall page pg, paginate filtered_keys page limit = Some pg ->
      (page = 0%Z -> page_keys pg = []) /\
      ((1 <= page < tp)%Z ->
         length (page_keys pg) = Z.to_nat limit /\ has_next pg = true) /\
      ((1 <= page)%Z -> page = tp -> page_keys pg <> [] /\ has_next pg = false) /\
      ((tp < page)%Z -> page_keys pg = [] /\ has_next pg = false).
Proof.
  intros Hl. set (L := Z.of_nat (length filtered_keys)).
  exists ((L + limit - 1) / limit)%Z.
  assert (Hlow : (limit * ((L + limit - 1) / limit) <= L + limit - 1)%Z)
    by (apply Z.mul_div_le; lia).
  assert (Hhigh : (L + limit - 1 < limit * Z.succ ((L + limit - 1) / limit))%Z)
    by (apply Z.mul_succ_div_gt; lia).
  set (tp := ((L + limit - 1) / limit)%Z) in *.
  assert (Htp : (0 <= tp)%Z) by (apply Z.div_pos; lia).
  unfold paginate. destruct (limit =? 0)%Z eqn:Hz; [lia|].
  split; [intros page; by eexists|]. split.
  - rewrite pages_upto_take by done. apply take_ge. nia.
  - intros page pg [= <-]. cbn [page_keys has_next]. fold L. fold tp.
    split; [|split; [|split]].
    + intros ->. unfold py_slice, slice_index. fold L.
      replace ((0 - 1) * limit + limit)%Z with 0%Z by lia.
      destruct ((0 - 1) * limit <? 0)%Z eqn:Hneg; [|lia]. cbn [Z.ltb Z.compare].
      replace (Z.to_nat (Z.min L 0 - Z.max 0 (L + (0 - 1) * limit))) with 0%nat by lia.
      done.
    + intros Hp. rewrite py_slice_window by nia. rewrite length_take, length_drop.
      split; [nia|]. apply Z.ltb_lt. lia.
    + intros Hp ->. rewrite py_slice_window by nia. split.
      * intros Hnil. apply (f_equal length) in Hnil.
        rewrite length_take, length_drop in Hnil. cbn in Hnil. nia.
      * apply Z.ltb_ge. lia.
    + intros Hp. rewrite py_slice_window by nia. split.
      * rewrite drop_ge; [by rewrite take_nil|]. nia.
      * apply Z.ltb_ge. lia.
Qed.

Lemma pages_partition_the_listing_witness :
  pages_upto [1; 2; 3; 4; 5]%nat 2 3 = [1; 2; 3; 4; 5]%nat.
Proof.
  destruct (pages_partition_the_listing [1; 2; 3; 4; 5]%nat 2) as (tp & Htp & Hall & _).
  - lia.
  - destruct (Htp 1%Z) as (pg & Hpg & <- & _).
    vm_compute in Hpg. injection Hpg as <-. exact Hall.
Defined.

(** ** Streamed and aggregated responses *)

Section Responses.
Context `{PyLib}.

Lemma joined_app (a b : list content) : joined (a ++ b) = joined a ++ joined b.
Proof. apply flat_map_app. Qed.

(** The two consumers of the events of the parser read them alike. *)
Lemma aggregate_events_stream_events (events : list event) :
  forall r0,
  match aggregate_events r0 events with
  | (parts, reason, None) =>
    exists chunks, stream_events r0 events = (chunks, reason, false) /\
                   response_text chunks = joined parts
  | (_, _, Some data) =>
    exists pre r, stream_events r0 events =
                  (pre ++ [format_openai_error_chunk (str_of_data data);
                           format_openai_finish_chunk reason_stop], r, true)
  end.
Proof.
  induction events as [|e events IH]; intros r0; [by exists []|].
  destruct e as [data|data|data]; cbn [aggregate_events stream_events].
  - specialize (IH r0). destruct (aggregate_events r0 events) as [[parts reason] [err|]].
    + destruct IH as (pre & r & ->). by exists (format_openai_chunk (ContentStr data) :: pre), r.
    + destruct IH as (chunks & -> & Htext). eexists. split; [done|].
      unfold response_text, joined in *. cbn [flat_map delta_text format_openai_chunk].
      by rewrite Htext.
  - specialize (IH data). destruct (aggregate_events data events) as [[parts reason] [err|]].
    + destruct IH as (pre & r & ->).
      destruct (json_is_str data (lit "content-filter")); [|by exists pre, r].
      by exists (format_openai_chunk (ContentStr sse_warning) :: pre), r.
    + destruct IH as (chunks & -> & Htext).
      destruct (json_is_str data (lit "content-filter")); eexists; (split; [done|]); [|done].
      unfold response_text, joined in *. cbn [flat_map delta_text format_openai_chunk].
      by rewrite Htext.
  - by exists [], r0.
Qed.

(** X12.  Streaming and aggregation agree.  On the same queue items and
    in the same world, with a text prefill: when the aggregated response is
    a completion, the deltas of the streamed response put end to end are its
    content and the closing chunk carries its finish reason; when it is an
    error response, the streamed response ends with the error delta and a
    stop chunk; when the parser raises, both propagate the exception.  Both
    leave the same world. *)
Theorem streaming_and_aggregation_agree (rid model p : list N) (frames : list frame)
    (w : World) :
  snd (non_stream_response rid model (ContentStr p) frames w) =
  snd (stream_generator rid model (ContentStr p) frames w) /\
  match fst (non_stream_response rid model (ContentStr p) frames w) with
  | Completion parts reason =>
    snd (fst (stream_generator rid model (ContentStr p) frames w)) = None /\
    response_text (chunks_of (stream_generator rid model (ContentStr p) frames w)) =
      joined parts /\
    last (chunks_of (stream_generator rid model (ContentStr p) frames w)) =
      Some (ChunkFinish reason)
  | BridgeError code data =>
    snd (fst (stream_generator rid model (ContentStr p) frames w)) = None /\
    exists pre, chunks_of (stream_generator rid model (ContentStr p) frames w) =
                pre ++ [format_openai_error_chunk (str_of_data data);
                        format_openai_finish_chunk reason_stop]
  | Propagated e =>
    snd (fst (stream_generator rid model (ContentStr p) frames w)) = Some e
  end.
Proof.
  unfold non_stream_response, stream_generator, chunks_of.
  destruct (_process_lmarena_stream rid (Some model) frames w) as [[events why] w1].
  pose proof (aggregate_events_stream_events events reason_stop) as Hagree.
  destruct (aggregate_events reason_stop events) as [[parts reason] [data|]].
  - destruct Hagree as (pre & r & ->). cbn [fst snd]. split; [done|]. split; [done|].
    exists ((if content_truthy (ContentStr p) then [format_openai_chunk (ContentStr p)] else [])
            ++ pre). by rewrite <- app_assoc.
  - destruct Hagree as (chunks & -> & Htext).
    assert (Hfirst : joined (if content_truthy (ContentStr p) then [ContentStr p] else []) = p).
    { destruct p as [|c p]; [done|]. unfold joined. cbn [content_truthy flat_map].
      apply app_nil_r. }
    destruct why; cbn [fst snd]; try done;
      (split; [done|]; split; [done|]; split;
       [ rewrite !response_text_app, response_text_prefill, Htext, joined_app, Hfirst,
           response_text_closing; by rewrite app_nil_r
       | by rewrite !app_assoc, last_snoc ]).
Qed.

(** ** The end marker *)

(** X13.  Nothing that follows the end marker on a queue is read: the
    streamed response is the same whatever the browser sends after
    [[DONE]]. *)
Theorem nothing_is_read_after_done (rid model : list N) (prefill : content)
    (pre post : list frame) (w : World) :
  _process_lmarena_stream rid (Some model) (pre ++ FrameStr DONE_MARK :: post) w =
  _process_lmarena_stream rid (Some model) (pre ++ [FrameStr DONE_MARK]) w /\
  stream_generator rid model prefill (pre ++ FrameStr DONE_MARK :: post) w =
  stream_generator rid model prefill (pre ++ [FrameStr DONE_MARK]) w.
Proof.
  assert (Hloop : forall timeout buffer w0,
            parser_loop rid (Some model) timeout buffer (pre ++ FrameStr DONE_MARK :: post) w0 =
            parser_loop rid (Some model) timeout buffer (pre ++ [FrameStr DONE_MARK]) w0).
  { intros timeout. induction pre as [|f pre IH]; intros buffer w0.
    - cbn [app parser_loop process_frame]. by rewrite str_eqb_refl.
    - cbn [app parser_loop].
      destruct (process_frame rid (Some model) buffer f w0) as [[evs [b1|why]] w1]; [|done].
      by rewrite IH. }
  assert (Hp : _process_lmarena_stream rid (Some model) (pre ++ FrameStr DONE_MARK :: post) w =
               _process_lmarena_stream rid (Some model) (pre ++ [FrameStr DONE_MARK]) w).
  { unfold _process_lmarena_stream. by rewrite Hloop. }
  split; [done|]. unfold stream_generator. by rewrite Hp.
Qed.

End Responses.

(** ** Multiplexer: routing *)

(** X14.  The receive loop is a faithful multiplexer.  For a request
    whose queue no other request shares, the items that the browser sends
    under its identifier are appended to its queue in the order of arrival,
    and nothing else is: items for other requests, items without data and
    items without a request identifier never reach it.  The channel table
    is not changed. *)
Theorem frames_are_queued_in_order (msgs : list ws_inbound) :
  forall (w : World) (rid : list N) (q : nat) (items : list frame),
  rid <> [] ->
  response_channels w !! rid = Some q ->
  queues w !! q = Some items ->
  (forall r, response_channels w !! r = Some q -> r = rid) ->
  response_channels (receive_all msgs w) = response_channels w /\
  queues (receive_all msgs w) !! q = Some (items ++ addressed_to rid msgs).
Proof.
  induction msgs as [|m msgs IH]; intros w rid q items Hrid Hch Hq Hapart.
  - cbn. by rewrite app_nil_r.
  - unfold receive_all in *. cbn [foldl].
    assert (Hstep : response_channels (websocket_receive m w) = response_channels w /\
                    queues (websocket_receive m w) !! q =
                    Some (items ++ addressed_to rid [m])).
    { unfold websocket_receive, addressed_to. cbn [flat_map]. rewrite app_nil_r.
      destruct (in_request_id m) as [[|c r]|], (in_data m) as [data|];
        try (by rewrite app_nil_r).
      - case_bool_decide as Heq; [by subst|by rewrite app_nil_r].
      - destruct (response_channels w !! (c :: r)) as [q'|] eqn:Hq'.
        + cbn. split; [done|]. unfold queue_put. case_bool_decide as Heq.
          * rewrite Heq, Hch in Hq'. injection Hq' as <-.
            by rewrite lookup_alter_eq, Hq.
          * rewrite lookup_alter_ne; [by rewrite app_nil_r|].
            intros ->. by apply Heq, Hapart.
        + split; [done|]. case_bool_decide as Heq; [|by rewrite app_nil_r].
          rewrite Heq, Hch in Hq'. done. }
    destruct Hstep as [Hch1 Hq1].
    destruct (IH (websocket_receive m w) rid q (items ++ addressed_to rid [m])) as [Hch2 Hq2];
      try done; try by rewrite Hch1.
    rewrite Hch2, Hq2, Hch1. split; [done|].
    rewrite <- app_assoc. f_equal. f_equal. unfold addressed_to. cbn [flat_map].
    by rewrite app_nil_r.
Qed.

Lemma frames_are_queued_in_order_witness :
  queues (receive_all
            [ {| in_request_id := Some (lit "request-0"); in_data := Some (FrameStr (lit "a")) |};
              {| in_request_id := Some (lit "request-1"); in_data := Some (FrameStr (lit "x")) |};
              {| in_request_id := Some (lit "request-0"); in_data := Some (FrameStr (lit "b")) |} ]
            connected_world) !! 0%nat
  = Some ([] ++ addressed_to (lit "request-0")
            [ {| in_request_id := Some (lit "request-0"); in_data := Some (FrameStr (lit "a")) |};
              {| in_request_id := Some (lit "request-1"); in_data := Some (FrameStr (lit "x")) |};
              {| in_request_id := Some (lit "request-0"); in_data := Some (FrameStr (lit "b")) |} ]).
Proof.
  eapply frames_are_queued_in_order.
  - discriminate.
  - by vm_compute.
  - by vm_compute.
  - intros r Hr. unfold connected_world in Hr. cbn in Hr.
    apply lookup_singleton_Some in Hr as [<- _]. done.
Defined.

(** ** Payload translator: roles and contents *)

Lemma Forall_filter_keep {A : Type} (P Q : A -> Prop) `{!forall x, Decision (Q x)}
    (l : list A) :
  Forall P l -> Forall P (filter Q l).
Proof.
  intros Hall. apply Forall_forall. intros x Hin.
  apply list_elem_of_filter in Hin as [_ Hin]. by apply (proj1 (Forall_forall _ _) Hall).
Qed.

Section TranslatorShape.
Context `{PyLib}.

Lemma process_openai_message_role (m : message) (draw : nat) :
  pm_role (fst (_process_openai_message m draw)) = role m.
Proof.
  unfold _process_openai_message.
  destruct (match msg_content m with
            | Some (ContentParts parts) => _
            | Some (ContentStr s) => _
            | _ => _
            end) as [[text atts] d]. done.
Qed.

Lemma process_openai_message_user (m : message) (draw : nat) :
  role m = lit "user" -> pm_content (fst (_process_openai_message m draw)) <> [].
Proof.
  intros Hrole. unfold _process_openai_message.
  destruct (match msg_content m with
            | Some (ContentParts parts) => _
            | Some (ContentStr s) => _
            | _ => _
            end) as [[text atts] d]. cbn [fst pm_content].
  rewrite Hrole, str_eqb_refl.
  replace (str_eqb (lit "user") (lit "assistant")) with false by (by vm_compute).
  cbn [andb]. destruct (strip_is_empty text) eqn:Hblank; [by vm_compute|].
  intros ->. done.
Qed.

Lemma process_messages_users (messages : list message) :
  forall draw,
  Forall (fun pm => pm_role pm = lit "user" -> pm_content pm <> [])
         (fst (process_messages messages draw)).
Proof.
  induction messages as [|m messages IH]; intros draw; cbn [process_messages]; [done|].
  pose proof (process_openai_message_role m draw) as Hrole.
  pose proof (process_openai_message_user m draw) as Huser.
  destruct (_process_openai_message m draw) as [pm d1]. cbn [fst] in *.
  specialize (IH d1). destruct (process_messages messages d1) as [pms d2]. cbn [fst] in *.
  constructor; [|done]. intros Hu. apply Huser. by rewrite <- Hrole.
Qed.

(** What the steps 2, 4, 5 and 6 of the translation make of the processed
    messages. *)
Lemma convert_templates (req : openai_request) (sid mid : pool_value)
    (mo bo : option pool_value) (a : bool) (w w' : World) (p : payload) :
  convert_openai_to_lmarena_payload req sid mid mo bo a w = (Return p, w') ->
  exists (messages : list message) (mode tp : list N),
    let pms := fst (process_messages messages (random_draws w)) in
    let staged :=
      if cfg_tavern_mode_enabled (CONFIG w) then
        let merged :=
          str_join (nl ++ nl)
            (map pm_content (filter (fun m => is_system (pm_role m)) pms)) in
        match merged with
        | [] => filter (fun m => negb (is_system (pm_role m))) pms
        | _ => {| pm_role := lit "system"; pm_content := merged; pm_attachments := [] |}
               :: filter (fun m => negb (is_system (pm_role m))) pms
        end
      else pms in
    let templates :=
      map (fun m => {| t_role := pm_role m; t_content := pm_content m;
                       t_attachments := pm_attachments m; participantPosition := None |})
          staged in
    message_templates p =
    map (assign_position mode tp)
        (if cfg_bypass_enabled (CONFIG w) then templates ++ [bypass_template] else templates).
Proof.
  unfold convert_openai_to_lmarena_payload.
  destruct (extract_assistant_prefill _ _) as [messages prefill].
  unfold build_payload. intros Hc. exists messages.
  destruct prefill; try discriminate;
    destruct (process_messages messages (random_draws w)) as [pms draws];
    match type of Hc with
    | match ?t with VInt _ => _ | VStr _ => _ end = _ => destruct t as [z|tp]; [discriminate|]
    end;
    injection Hc as <- <-; by eexists _, _.
Qed.

(** X15.  No user turn of a translated payload has an empty content: an
    empty or blank user message goes upstream as a single space, and the
    turn that bypass mode appends is a single space as well. *)
Theorem user_turns_are_never_empty (req : openai_request) (sid mid : pool_value)
    (mo bo : option pool_value) (a : bool) (w w' : World) (p : payload) :
  convert_openai_to_lmarena_payload req sid mid mo bo a w = (Return p, w') ->
  Forall (fun t => t_role t = lit "user" -> t_content t <> []) (message_templates p).
Proof.
  intros Hc. destruct (convert_templates _ _ _ _ _ _ _ _ _ Hc) as (messages & mode & tp & ->).
  pose proof (process_messages_users messages (random_draws w)) as Hpms.
  set (pms := fst (process_messages messages (random_draws w))) in *.
  assert (Hstaged : forall staged,
            Forall (fun pm => pm_role pm = lit "user" -> pm_content pm <> []) staged ->
            Forall (fun t => t_role t = lit "user" -> t_content t <> [])
              (map (assign_position mode tp)
                 (if cfg_bypass_enabled (CONFIG w)
                  then map (fun m => {| t_role := pm_role m; t_content := pm_content m;
                                        t_attachments := pm_attachments m;
                                        participantPosition := None |}) staged
                       ++ [bypass_template]
                  else map (fun m => {| t_role := pm_role m; t_content := pm_content m;
                                        t_attachments := pm_attachments m;
                                        participantPosition := None |}) staged))).
  { intros staged Hst. apply Forall_fmap.
    assert (Hmap : Forall (fun t => t_role (assign_position mode tp t) = lit "user" ->
                                    t_content (assign_position mode tp t) <> [])
                     (map (fun m => {| t_role := pm_role m; t_content := pm_content m;
                                       t_attachments := pm_attachments m;
                                       participantPosition := None |}) staged)).
    { apply Forall_fmap. eapply Forall_impl; [exact Hst|]. intros pm Hpm. exact Hpm. }
    destruct (cfg_bypass_enabled (CONFIG w)); [|exact Hmap].
    apply Forall_app. split; [exact Hmap|]. constructor; [|done]. intros _. by vm_compute. }
  destruct (cfg_tavern_mode_enabled (CONFIG w)); [|by apply Hstaged].
  destruct (str_join _ _) as [|c merged].
  - apply Hstaged. by apply Forall_filter_keep.
  - apply Hstaged. constructor; [|by apply Forall_filter_keep].
    cbn [pm_role pm_content]. intros Heq. vm_compute in Heq. discriminate.
Qed.

(** X16.  In tavern mode the system prompts are merged: a translated
    payload has no system turn after its first template. *)
Theorem tavern_mode_leaves_one_system_turn (req : openai_request) (sid mid : pool_value)
    (mo bo : option pool_value) (a : bool) (w w' : World) (p : payload) :
  cfg_tavern_mode_enabled (CONFIG w) = true ->
  convert_openai_to_lmarena_payload req sid mid mo bo a w = (Return p, w') ->
  Forall (fun t => t_role t <> lit "system") (tail (message_templates p)).
Proof.
  intros Htavern Hc.
  destruct (convert_templates _ _ _ _ _ _ _ _ _ Hc) as (messages & mode & tp & ->).
  rewrite Htavern.
  set (others := filter (fun m => negb (is_system (pm_role m))) _).
  assert (Hothers : Forall (fun pm => pm_role pm <> lit "system") others).
  { apply Forall_forall. intros pm Hin. apply list_elem_of_filter in Hin as [Hns _].
    intros Heq. unfold is_system in Hns. by rewrite Heq, str_eqb_refl in Hns. }
  clearbody others.
  assert (Hrest : Forall (fun t => t_role t <> lit "system")
            (map (assign_position mode tp)
               (if cfg_bypass_enabled (CONFIG w)
                then map (fun m => {| t_role := pm_role m; t_content := pm_content m;
                                      t_attachments := pm_attachments m;
                                      participantPosition := None |}) others
                     ++ [bypass_template]
                else map (fun m => {| t_role := pm_role m; t_content := pm_content m;
                                      t_attachments := pm_attachments m;
                                      participantPosition := None |}) others))).
  { apply Forall_fmap.
    assert (Hmap : Forall (fun t => t_role (assign_position mode tp t) <> lit "system")
                     (map (fun m => {| t_role := pm_role m; t_content := pm_content m;
                                       t_attachments := pm_attachments m;
                                       participantPosition := None |}) others)).
    { apply Forall_fmap. eapply Forall_impl; [exact Hothers|]. intros pm Hpm. exact Hpm. }
    destruct (cfg_bypass_enabled (CONFIG w)); [|exact Hmap].
    apply Forall_app. split; [exact Hmap|]. constructor; [|done].
    intros Heq. vm_compute in Heq. discriminate. }
  destruct (str_join _ _) as [|c merged].
  - destruct (map _ _) as [|t ts]; [done|]. cbn [tail]. by apply Forall_cons in Hrest as [_ ?].
  - cbn [map] in *. destruct (cfg_bypass_enabled (CONFIG w)); cbn [map app tail]; exact Hrest.
Qed.

End TranslatorShape.

Section TranslatorShapeExamples.
#[local] Existing Instance example_lib.

Lemma user_turns_are_never_empty_witness :
  match fst (convert_openai_to_lmarena_payload
               {| req_model := Some sonnet35;
                  req_messages := [{| role := lit "user"; msg_content := Some (ContentStr []) |}];
                  req_stream := None |}
               (VStr (lit "session-global")) (VStr (lit "message-global"))
               None None false battle_b_world) with
  | Return p => Forall (fun t => t_role t = lit "user" -> t_content t <> [])
                       (message_templates p)
  | Raised _ => False
  end.
Proof.
  destruct (convert_openai_to_lmarena_payload _ _ _ _ _ _ _) as [[p|e] w'] eqn:Hc.
  - cbn [fst]. by apply (user_turns_are_never_empty _ _ _ _ _ _ _ _ _ Hc).
  - vm_compute in Hc. discriminate.
Defined.

Lemma tavern_mode_leaves_one_system_turn_witness :
  match fst (convert_openai_to_lmarena_payload
               {| req_model := Some sonnet35;
                  req_messages := [{| role := lit "system"; msg_content := Some (ContentStr (lit "a")) |};
                                   {| role := lit "user"; msg_content := Some (ContentStr (lit "hi")) |};
                                   {| role := lit "system"; msg_content := Some (ContentStr (lit "b")) |}];
                  req_stream := None |}
               (VStr (lit "session-global")) (VStr (lit "message-global"))
               None None false
               (set_CONFIG {| cfg_api_key := None; cfg_assistant_prefill_enabled := None;
                              cfg_tavern_mode_enabled := true; cfg_bypass_enabled := false;
                              cfg_id_updater_last_mode := None;
                              cfg_id_updater_battle_target := None;
                              cfg_use_default_ids_if_mapping_not_found := None;
                              cfg_session_id := None; cfg_message_id := None;
                              cfg_stream_response_timeout_seconds := None |} empty_world)) with
  | Return p => Forall (fun t => t_role t <> lit "system") (tail (message_templates p))
  | Raised _ => False
  end.
Proof.
  destruct (convert_openai_to_lmarena_payload _ _ _ _ _ _ _) as [[p|e] w'] eqn:Hc.
  - cbn [fst]. eapply tavern_mode_leaves_one_system_turn; [|exact Hc]. reflexivity.
  - vm_compute in Hc. discriminate.
Defined.

End TranslatorShapeExamples.

(** ** Keys: listing, bearer and limits *)

Lemma str_mem_elem (x : list N) (l : list (list N)) : x ∈ l -> str_mem x l = true.
Proof.
  intros Hin. unfold str_mem. apply existsb_exists. exists x.
  split; [by apply list_elem_of_In|apply str_eqb_refl].
Qed.

Lemma catalog_get_names (name : list N) (catalog : list (list N * list N)) :
  name ∈ map fst catalog -> is_Some (catalog_get name catalog).
Proof.
  induction catalog as [|[k v] catalog IH]; cbn [map catalog_get fst].
  - intros Hin. by apply elem_of_nil in Hin.
  - intros Hin. destruct (str_eqb k name) eqn:Hk; [by eexists|].
    apply elem_of_cons in Hin as [->|Hin]; [by rewrite str_eqb_refl in Hk|by apply IH].
Qed.

(** X17.  The listing and the authorisation agree: every model that
    /v1/models lists for a key is in the catalogue, and a chat completion
    for that model with that key passes the validation. *)
Theorem listed_models_are_usable (api_key : list N) (w : World) (model : list N) :
  model ∈ get_models_for_api_key api_key w ->
  in_catalog model w = true /\
  exists key_data, validate_api_key api_key (Some model) w = KeyValid key_data.
Proof.
  unfold get_models_for_api_key. intros Hin.
  assert (Hcat : forall key_data,
            model ∈ match kd_models key_data with
                    | [] => catalog_names w
                    | allowed_models => filter (fun model => in_catalog model w) allowed_models
                    end ->
            in_catalog model w = true /\
            (kd_models key_data = [] \/ model ∈ kd_models key_data)).
  { intros key_data Hm. destruct (kd_models key_data) as [|a allowed] eqn:Hal.
    - split; [|by left]. unfold in_catalog. apply bool_decide_eq_true.
      by apply catalog_get_names.
    - apply list_elem_of_filter in Hm as [Hc Hm]. split; [|by right].
      by apply Is_true_true. }
  unfold validate_api_key in *.
  destruct (str_eqb api_key []); [by apply elem_of_nil in Hin|].
  destruct (truthy_str (cfg_api_key (CONFIG w)) &&
            bool_decide (Some api_key = cfg_api_key (CONFIG w))).
  { destruct (Hcat _ Hin) as [Hc _]. split; [done|]. by eexists. }
  destruct (API_KEYS_DATA w !! api_key) as [key_data|]; [|by apply elem_of_nil in Hin].
  destruct (negb (default true (kd_enabled key_data))); [by apply elem_of_nil in Hin|].
  destruct (match kd_usage_limit key_data with
            | Some limit => (default 0%Z (kd_usage_count key_data) >=? limit)%Z
            | None => false
            end); [by apply elem_of_nil in Hin|].
  destruct (Hcat _ Hin) as [Hc Hallowed]. split; [done|].
  destruct model as [|c m]; [by eexists|].
  destruct Hallowed as [->|Hmem].
  - rewrite bool_decide_eq_true_2 by done. by eexists.
  - rewrite (str_mem_elem _ _ Hmem). rewrite andb_false_r. by eexists.
Qed.

Lemma listed_models_are_usable_witness :
  exists key_data,
    validate_api_key (lit "sk-managed") (Some sonnet35) keyed_world = KeyValid key_data.
Proof.
  apply (listed_models_are_usable (lit "sk-managed") keyed_world sonnet35).
  vm_compute. left.
Defined.

Section Bearer.
Context `{PyLib}.

(** X18.  A bearer with nothing between the first and the second space
    yields the empty key.  The models endpoint takes the empty key for no
    key at all and lists the whole catalogue, also when keys are
    configured, while the chat endpoint refuses it with 401. *)
Theorem empty_bearer_lists_every_model (tail : list N) (w : World) (req : openai_request) :
  tail = [] \/ (exists rest, tail = 32 :: rest) ->
  MODEL_NAME_TO_ID_MAP w <> [] ->
  let request := {| authorization := Some (lit "Bearer " ++ tail); body := Some req |} in
  get_api_key_from_header request = Some [] /\
  get_models request w = (ModelList (catalog_names w), w) /\
  (keys_configured (entered w) = true ->
   fst (chat_completions request w) = HTTPException 401 (lit "API key requerida")).
Proof.
  intros Htail Hcat request.
  assert (Hkey : get_api_key_from_header request = Some []).
  { unfold get_api_key_from_header, request. cbn [authorization].
    rewrite startswith_app. destruct Htail as [->|[rest ->]]; by vm_compute. }
  split; [done|]. split.
  - unfold get_models. rewrite Hkey.
    destruct (MODEL_NAME_TO_ID_MAP w) as [|m ms]; [done|].
    by destruct (keys_configured w).
  - intros Hon. rewrite chat_completions_eq. cbn [body request]. fold request.
    rewrite Hon, Hkey. done.
Qed.

Lemma validate_counts_below_limit (key : list N) (model : option (list N)) (kd kd0 : KeyData)
    (limit : Z) (w : World) :
  API_KEYS_DATA w !! key = Some kd ->
  truthy_str (cfg_api_key (CONFIG w)) && bool_decide (Some key = cfg_api_key (CONFIG w)) = false ->
  validate_api_key key model w = KeyValid kd0 ->
  kd_usage_limit kd = Some limit ->
  (default 0 (kd_usage_count kd) < limit)%Z.
Proof.
  intros Hk Hg. unfold validate_api_key. rewrite Hg, Hk.
  destruct (str_eqb key []); [done|].
  destruct (negb (default true (kd_enabled kd))); [done|].
  intros Hv Hl. rewrite Hl in Hv.
  destruct (default 0%Z (kd_usage_count kd) >=? limit)%Z eqn:Hge; [done|lia].
Qed.

(** X19.  No counter ever passes its limit: if every key of the registry
    has a usage count within its limit before a chat-completions call, so
    it has after the call, whatever the request and its outcome. *)
Theorem usage_never_exceeds_the_limit (request : http_request) (w : World) :
  within_limits w -> within_limits (snd (chat_completions request w)).
Proof.
  intros Hin.
  assert (Hext : forall w1 w2, API_KEYS_DATA w2 = API_KEYS_DATA w1 ->
                               within_limits w1 -> within_limits w2).
  { intros w1 w2 Heq Hw1 key kd limit. rewrite Heq. apply Hw1. }
  assert (Hent : within_limits (entered w)) by (by apply (Hext w)).
  assert (Hdisp : forall req w0, within_limits w0 -> within_limits (snd (dispatch req w0))).
  { intros req w0. apply Hext. apply dispatch_effects. }
  rewrite chat_completions_eq.
  destruct (body request) as [req|]; [|done].
  destruct (keys_configured (entered w)); [|by apply Hdisp].
  destruct (get_api_key_from_header request) as [key|]; [|done].
  destruct (validate_api_key key (req_model req) (entered w)) as [kd0|error] eqn:Hval; [|done].
  apply Hdisp. unfold increment_api_key_usage.
  destruct (truthy_str (cfg_api_key (CONFIG (entered w))) &&
            bool_decide (Some key = cfg_api_key (CONFIG (entered w)))) eqn:Hg; [done|].
  destruct (API_KEYS_DATA (entered w) !! key) as [kd|] eqn:Hk; [|done].
  intros key' kd' limit. cbn.
  destruct (decide (key' = key)) as [->|Hne].
  - rewrite lookup_insert_eq. intros [= <-]. cbn. intros Hl.
    pose proof (validate_counts_below_limit key _ kd kd0 limit _ Hk Hg Hval Hl). lia.
  - rewrite lookup_insert_ne by done. apply Hent.
Qed.

End Bearer.

Section BearerExamples.
#[local] Existing Instance example_lib.

Lemma empty_bearer_lists_every_model_witness :
  get_models {| authorization := Some (lit "Bearer " ++ 32 :: lit "anything");
                body := Some hi_request |} keyed_world
  = (ModelList (catalog_names keyed_world), keyed_world).
Proof.
  destruct (empty_bearer_lists_every_model (32 :: lit "anything") keyed_world hi_request)
    as (_ & Hall & _).
  - right. by eexists.
  - discriminate.
  - exact Hall.
Defined.

Lemma usage_never_exceeds_the_limit_witness :
  within_limits (snd (chat_completions {| authorization := Some (lit "Bearer sk-managed");
                                          body := Some hi_request |}
                        (set_browser_ws (Some 3%nat) keyed_world))).
Proof.
  apply usage_never_exceeds_the_limit.
  intros key kd limit Hk Hl. cbn in Hk.
  apply lookup_singleton_Some in Hk as [_ <-]. injection Hl as <-. cbn. lia.
Defined.

End BearerExamples.

(** ** The parser and the channel table *)

Lemma same_channels_refl (w : World) : same_channels w w.
Proof. by split. Qed.

Lemma same_channels_trans (w1 w2 w3 : World) :
  same_channels w1 w2 -> same_channels w2 w3 -> same_channels w1 w3.
Proof. intros [A1 B1] [A2 B2]. split; congruence. Qed.

Lemma rotate_model_session_channels (model : list N) (w : World) :
  same_channels w (snd (rotate_model_session model w)).
Proof. unfold rotate_model_session. repeat case_match; by split. Qed.

Lemma rate_limit_reply_channels (model_name : option (list N)) (w : World) :
  same_channels w (snd (rate_limit_reply model_name w)).
Proof.
  unfold rate_limit_reply. destruct model_name as [[|c m]|]; try apply same_channels_refl.
  pose proof (rotate_model_session_channels (c :: m) w) as Hr.
  by destruct (rotate_model_session (c :: m) w) as [[b|e] w1].
Qed.

Lemma is_available_channels (p : list N) (w : World) :
  same_channels w (snd (is_model_available_for_auto_claude p w)).
Proof.
  unfold is_model_available_for_auto_claude.
  destruct (AUTO_CLAUDE_DISABLED_MODELS w !! p) as [u|]; [|apply same_channels_refl].
  cbn. by destruct (clock w (clock_reads w) >? u)%Z.
Qed.

Lemma first_available_channels (models : list (list N)) :
  forall w, same_channels w (snd (first_available models w)).
Proof.
  induction models as [|p models IH]; intros w; cbn [first_available];
    [apply same_channels_refl|].
  pose proof (is_available_channels p w) as Hq.
  destruct (is_model_available_for_auto_claude p w) as [a w1]. cbn [snd] in Hq.
  destruct (a && in_catalog p w1); [done|].
  eapply same_channels_trans; [exact Hq|apply IH].
Qed.

Lemma get_best_channels (w : World) :
  same_channels w (snd (get_best_available_claude_model w)).
Proof.
  unfold get_best_available_claude_model.
  pose proof (first_available_channels AUTO_CLAUDE_PRIORITY
                (cleanup_expired_auto_claude_disables w)) as Hq.
  assert (Hc : same_channels w (cleanup_expired_auto_claude_disables w)) by by split.
  destruct (first_available AUTO_CLAUDE_PRIORITY (cleanup_expired_auto_claude_disables w))
    as [[r|] w2]; cbn [snd] in *; by eapply same_channels_trans.
Qed.

Lemma is_available_catalog (p : list N) (w : World) :
  MODEL_NAME_TO_ID_MAP (snd (is_model_available_for_auto_claude p w)) = MODEL_NAME_TO_ID_MAP w.
Proof.
  unfold is_model_available_for_auto_claude.
  destruct (AUTO_CLAUDE_DISABLED_MODELS w !! p) as [u|]; [|done].
  cbn. by destruct (clock w (clock_reads w) >? u)%Z.
Qed.

Lemma first_available_catalog (models : list (list N)) :
  forall w, MODEL_NAME_TO_ID_MAP (snd (first_available models w)) = MODEL_NAME_TO_ID_MAP w.
Proof.
  induction models as [|p models IH]; intros w; cbn [first_available]; [done|].
  pose proof (is_available_catalog p w) as Hq.
  destruct (is_model_available_for_auto_claude p w) as [a w1]. cbn [snd] in Hq.
  destruct (a && in_catalog p w1); [done|]. by rewrite IH.
Qed.

Lemma get_best_catalog (w : World) :
  MODEL_NAME_TO_ID_MAP (snd (get_best_available_claude_model w)) = MODEL_NAME_TO_ID_MAP w.
Proof.
  unfold get_best_available_claude_model.
  pose proof (first_available_catalog AUTO_CLAUDE_PRIORITY
                (cleanup_expired_auto_claude_disables w)) as Hq.
  by destruct (first_available AUTO_CLAUDE_PRIORITY (cleanup_expired_auto_claude_disables w))
    as [[r|] w2].
Qed.

Section ParserChannels.
Context `{PyLib}.

Lemma get_current_session_ids_channels (model_name : option (list N)) (w : World) :
  same_channels w (snd (get_current_session_ids model_name w)).
Proof.
  unfold get_current_session_ids.
  destruct (model_name ≫= (MODEL_ENDPOINT_MAP w !!.)) as [[m|l]|];
    [| |apply same_channels_refl].
  - destruct (m !! lit "current_index"); apply same_channels_refl.
  - destruct (l !! random_choice (random_draws w) (length l)); by split.
Qed.

Lemma on_rate_limit_signal_channels (rid : list N) (d : control) (w : World) :
  same_channels w (snd (on_rate_limit_signal rid d w)).
Proof.
  unfold on_rate_limit_signal.
  assert (Hplain : same_channels w
            (snd (match match ctl_model_id d with
                        | Some (c :: m) => name_of_model_id (c :: m) (MODEL_NAME_TO_ID_MAP w)
                        | _ => None
                        end with
                  | Some (c :: m) => rate_limit_reply (Some (c :: m)) w
                  | _ => (([EvContent fallback_message; EvFinish reason_stop],
                           Stop StopRateLimit), w)
                  end))).
  { destruct (match ctl_model_id d with
              | Some (c :: m) => _
              | _ => None
              end) as [[|c m]|]; try apply same_channels_refl.
    apply rate_limit_reply_channels. }
  destruct (AUTO_CLAUDE_ACTIVE_REQUESTS w !! rid) as [[|c m]|]; try exact Hplain.
  set (w1 := disable_model_for_auto_claude (c :: m) w).
  assert (H1 : same_channels w w1) by by split.
  pose proof (get_best_channels w1) as H2.
  destruct (get_best_available_claude_model w1) as [next w2]. cbn [snd] in H2.
  set (w3 := set_AUTO_CLAUDE_ACTIVE_REQUESTS _ w2).
  assert (H3 : same_channels w2 w3) by by split.
  pose proof (get_current_session_ids_channels (Some next) w3) as H4.
  destruct (get_current_session_ids (Some next) w3) as [[[[sid mid] mo] bo] w4].
  cbn [snd] in H4.
  assert (H04 : same_channels w w4).
  { eapply same_channels_trans; [exact H1|]. eapply same_channels_trans; [exact H2|].
    eapply same_channels_trans; [exact H3|exact H4]. }
  destruct (browser_ws w4); [|exact H04].
  cbn [snd]. eapply same_channels_trans; [exact H04|]. by split.
Qed.

Lemma send_refresh_channels (w : World) : same_channels w (send_refresh w).
Proof. unfold send_refresh. by destruct (browser_ws w). Qed.

Lemma on_error_object_channels (error_msg : json) (w : World) :
  same_channels w (snd (on_error_object error_msg w)).
Proof.
  unfold on_error_object. destruct error_msg; try apply same_channels_refl.
  destruct (_ || _); [apply same_channels_refl|].
  destruct (cloudflare_detected s); [apply send_refresh_channels|apply same_channels_refl].
Qed.

Lemma on_text_channels (model_name : option (list N)) (buffer : list N) (w : World) :
  same_channels w (snd (on_text model_name buffer w)).
Proof.
  unfold on_text.
  destruct (detect_rate_limit_error buffer); [apply rate_limit_reply_channels|].
  destruct (cloudflare_detected buffer); [apply send_refresh_channels|].
  pose proof (rate_limit_reply_channels model_name w) as Hr.
  destruct (rate_limit_reply model_name w) as [[evs st] w1]. cbn [snd] in Hr.
  destruct (error_search buffer ≫= json_loads) as [[]|];
    destruct (text_loop (length buffer) buffer) as [contents [b1|]];
    try apply same_channels_refl; try exact Hr;
    destruct (finish_search b1) as [[group b2]|]; try apply same_channels_refl;
    destruct (json_loads group) as [[]|]; apply same_channels_refl.
Qed.

Lemma process_frame_channels (rid : list N) (model_name : option (list N)) (buffer : list N)
    (raw_data : frame) (w : World) :
  same_channels w (snd (process_frame rid model_name buffer raw_data w)).
Proof.
  unfold process_frame. destruct raw_data as [s|l|d].
  - destruct (str_eqb s DONE_MARK); [apply same_channels_refl|apply on_text_channels].
  - apply on_text_channels.
  - destruct (rate_limit_detected d); [apply on_rate_limit_signal_channels|].
    destruct (ctl_error d); [apply on_error_object_channels|apply same_channels_refl].
Qed.

Lemma parser_loop_channels (rid : list N) (model_name : option (list N)) (timeout : Z)
    (frames : list frame) :
  forall buffer w, same_channels w (snd (parser_loop rid model_name timeout buffer frames w)).
Proof.
  induction frames as [|f frames IH]; intros buffer w; cbn [parser_loop];
    [apply same_channels_refl|].
  pose proof (process_frame_channels rid model_name buffer f w) as Hf.
  destruct (process_frame rid model_name buffer f w) as [[evs [b1|why]] w1]; [|exact Hf].
  cbn [snd] in Hf. specialize (IH b1 w1).
  destruct (parser_loop rid model_name timeout b1 frames w1) as [[evs' why] w2].
  cbn [snd] in *. by eapply same_channels_trans.
Qed.

(** X20.  The parser of a request closes the channel of that request and
    no other: whatever the queue delivers and however the parser ends, the
    request has no channel afterwards, every other request keeps its own,
    no queue is written, and when the request had a channel its auto-claude
    entry is gone as well. *)
Theorem parser_closes_only_its_own_channel (rid : list N) (model_name : option (list N))
    (frames : list frame) (w : World) :
  response_channels (snd (_process_lmarena_stream rid model_name frames w)) !! rid = None /\
  (forall r, r <> rid ->
     response_channels (snd (_process_lmarena_stream rid model_name frames w)) !! r =
     response_channels w !! r) /\
  queues (snd (_process_lmarena_stream rid model_name frames w)) = queues w /\
  (is_Some (response_channels w !! rid) ->
   AUTO_CLAUDE_ACTIVE_REQUESTS (snd (_process_lmarena_stream rid model_name frames w)) !! rid
     = None).
Proof.
  unfold _process_lmarena_stream.
  destruct (response_channels w !! rid) as [q|] eqn:Hch.
  - pose proof (parser_loop_channels rid model_name
                  (default 360%Z (cfg_stream_response_timeout_seconds (CONFIG w)))
                  frames [] w) as [Hc Hq].
    destruct (parser_loop _ _ _ _ _ _) as [res w1]. cbn [snd] in *.
    unfold parser_finally. cbn.
    split; [apply lookup_delete_eq|]. split; [|split; [done|]].
    + intros r Hr. by rewrite lookup_delete_ne, Hc.
    + intros _. apply lookup_delete_eq.
  - cbn [snd]. split; [done|]. split; [done|]. split; [done|]. by intros [? ?].
Qed.

End ParserChannels.
Section ParserSwitch.
Context `{PyLib}.

(** X21.  A model switch ends the request.  When the userscript signals a
    rate limit on an auto-claude request while the browser is connected,
    the response is the switch notice followed by a stop chunk, the one
    message sent to the browser is the switch command, and the request
    loses its channel and its auto-claude entry at once: whatever the
    browser sends under its identifier afterwards is dropped. *)
Theorem model_switch_ends_the_request (rid model current : list N) (d : control)
    (rest : list frame) (w : World) (q ws : nat) :
  response_channels w !! rid = Some q ->
  AUTO_CLAUDE_ACTIVE_REQUESTS w !! rid = Some current ->
  current <> [] ->
  browser_ws w = Some ws ->
  rate_limit_detected d = true ->
  exists next sid mid,
    fst (stream_generator rid model (ContentStr []) (FrameDict d :: rest) w) =
      ([ChunkContent (ContentStr (switch_notice current next)); ChunkFinish reason_stop], None) /\
    effects (snd (stream_generator rid model (ContentStr []) (FrameDict d :: rest) w)) =
      effects w ++ [WsSend ws (MsgSwitchModel rid sid mid
                                 (catalog_get next (MODEL_NAME_TO_ID_MAP w)))] /\
    response_channels (snd (stream_generator rid model (ContentStr []) (FrameDict d :: rest) w))
      !! rid = None /\
    AUTO_CLAUDE_ACTIVE_REQUESTS
      (snd (stream_generator rid model (ContentStr []) (FrameDict d :: rest) w)) !! rid = None /\
    forall data,
      websocket_receive {| in_request_id := Some rid; in_data := Some data |}
        (snd (stream_generator rid model (ContentStr []) (FrameDict d :: rest) w)) =
      snd (stream_generator rid model (ContentStr []) (FrameDict d :: rest) w).
Proof.
  intros Hch Hactive Hcur Hws Hsig.
  assert (Hsg : exists next sid mid w4,
            stream_generator rid model (ContentStr []) (FrameDict d :: rest) w =
            (([ChunkContent (ContentStr (switch_notice current next)); ChunkFinish reason_stop],
              None),
             parser_finally rid
               (emit (WsSend ws (MsgSwitchModel rid sid mid
                                   (catalog_get next (MODEL_NAME_TO_ID_MAP w)))) w4)) /\
            effects w4 = effects w).
  { unfold stream_generator, _process_lmarena_stream. rewrite Hch.
    cbn [parser_loop process_frame]. rewrite Hsig.
    unfold on_rate_limit_signal. rewrite Hactive. destruct current as [|c m]; [done|].
    set (w1 := disable_model_for_auto_claude (c :: m) w).
    assert (Hq1 : quiet w w1) by by repeat split.
    pose proof (get_best_quiet w1) as Hq2.
    assert (Hm2 : MODEL_NAME_TO_ID_MAP (snd (get_best_available_claude_model w1)) =
                  MODEL_NAME_TO_ID_MAP w) by (by rewrite get_best_catalog).
    destruct (get_best_available_claude_model w1) as [next w2]. cbn [snd] in Hq2, Hm2.
    set (w3 := set_AUTO_CLAUDE_ACTIVE_REQUESTS _ w2).
    assert (Hq3 : quiet w2 w3) by by repeat split.
    pose proof (get_current_session_ids_quiet (Some next) w3) as Hq4.
    assert (Hm4 : MODEL_NAME_TO_ID_MAP (snd (get_current_session_ids (Some next) w3)) =
                  MODEL_NAME_TO_ID_MAP w3).
    { unfold get_current_session_ids.
      destruct (Some next ≫= (MODEL_ENDPOINT_MAP w3 !!.)) as [[m0|l]|]; [| |done].
      - by destruct (m0 !! lit "current_index").
      - by destruct (l !! random_choice (random_draws w3) (length l)). }
    destruct (get_current_session_ids (Some next) w3) as [[[[sid mid] mo] bo] w4].
    cbn [snd] in Hq4, Hm4.
    assert (Hq : quiet w w4).
    { eapply quiet_trans; [exact Hq1|]. eapply quiet_trans; [exact Hq2|].
      eapply quiet_trans; [exact Hq3|exact Hq4]. }
    destruct Hq as (_ & Heff & Hws4 & _).
    rewrite Hws4, Hws, Hm4. change (MODEL_NAME_TO_ID_MAP w3) with (MODEL_NAME_TO_ID_MAP w2).
    rewrite Hm2. unfold format_openai_finish_chunk.
    cbn [stream_events content_truthy app format_openai_chunk].
    exists next, (pool_value_str <$> sid), (pool_value_str <$> mid), w4.
    unfold switch_notice. split; [reflexivity|exact Heff]. }
  destruct Hsg as (next & sid & mid & w4 & -> & Heff).
  exists next, sid, mid. cbn [fst snd]. split; [reflexivity|].
  unfold parser_finally, emit.
  cbn [effects response_channels AUTO_CLAUDE_ACTIVE_REQUESTS set_effects
       set_response_channels set_AUTO_CLAUDE_ACTIVE_REQUESTS].
  rewrite Heff. split; [reflexivity|]. split; [apply lookup_delete_eq|].
  split; [apply lookup_delete_eq|].
  intros data. unfold websocket_receive.
  cbn [in_request_id in_data response_channels set_effects set_response_channels
       set_AUTO_CLAUDE_ACTIVE_REQUESTS].
  destruct rid as [|x rid']; [reflexivity|]. by rewrite lookup_delete_eq.
Qed.

End ParserSwitch.
Section ParserErrors.
Context `{PyLib}.

(** X22.  An error of the browser that mentions 413 or too large is
    answered as an attachment that is too large: the aggregated response has
    status 413 and the streamed one ends with the same friendly message and
    a stop chunk. *)
Theorem attachment_too_large_is_413 (rid model msg : list N) (prefill : content)
    (rest : list frame) (w : World) (q : nat) :
  response_channels w !! rid = Some q ->
  str_in (lit "413") msg || str_in (lit "too large") (str_lower msg) = true ->
  non_stream_response rid model prefill (error_frame msg :: rest) w =
    (BridgeError 413 (JStr attachment_too_large_message), parser_finally rid w) /\
  exists first,
    stream_generator rid model prefill (error_frame msg :: rest) w =
    ((first ++ [format_openai_error_chunk attachment_too_large_message;
                format_openai_finish_chunk reason_stop], None), parser_finally rid w).
Proof.
  intros Hch Hbig.
  unfold non_stream_response, stream_generator, _process_lmarena_stream. rewrite Hch.
  unfold error_frame. cbn [parser_loop process_frame rate_limit_detected ctl_error].
  unfold on_error_object. rewrite Hbig.
  cbn [aggregate_events stream_events str_of_data fst snd].
  replace (str_in (lit "El tamaño del adjunto excede") attachment_too_large_message)
    with true by (by vm_compute).
  split; [done|]. by eexists.
Qed.

End ParserErrors.

Section ParserChannelsExamples.
#[local] Existing Instance example_lib.

Lemma model_switch_ends_the_request_witness :
  response_channels
    (snd (stream_generator (lit "request-0") sonnet35 (ContentStr [])
            [rate_limit_signal None] auto_claude_world)) !! lit "request-0" = None.
Proof.
  destruct (model_switch_ends_the_request (lit "request-0") sonnet35
              (lit "claude-opus-4-1-20250805-thinking-16k")
              {| rate_limit_detected := true; ctl_model_id := None; ctl_error := None |}
              [] auto_claude_world 0 1) as (next & sid & mid & _ & _ & Hgone & _).
  - by vm_compute.
  - by vm_compute.
  - discriminate.
  - reflexivity.
  - reflexivity.
  - exact Hgone.
Defined.

Lemma attachment_too_large_is_413_witness :
  fst (non_stream_response (lit "request-0") sonnet35 (ContentStr [])
         [error_frame (lit "upload failed: 413 Payload Too Large")] streaming_world)
  = BridgeError 413 (JStr attachment_too_large_message).
Proof.
  destruct (attachment_too_large_is_413 (lit "request-0") sonnet35
              (lit "upload failed: 413 Payload Too Large") (ContentStr []) []
              streaming_world 0) as [Hns _].
  - by vm_compute.
  - by vm_compute.
  - by rewrite Hns.
Defined.

End ParserChannelsExamples.

(** ** The parser of the external client *)

Lemma external_text_loop_drained (fuel : nat) (b : list N) :
  text_search b = None -> External.text_loop fuel b = ([], b).
Proof. intros Hs. destruct fuel; cbn [External.text_loop]; [done|]. by rewrite Hs. Qed.

Lemma external_text_loop_line (f : nat) (b k : list N) (l : content_line) :
  text_search b = Some (encoded l, k) ->
  External.text_loop (S f) b =
  let '(evs, b') := External.text_loop f k in (content_events [l] ++ evs, b').
Proof.
  intros Hs. cbn [External.text_loop]. rewrite Hs.
  unfold content_events, decoded. cbn [flat_map].
  destruct (json_loads ([quote] ++ encoded l ++ [quote])) as [v|];
    [destruct v as [|?|?|?|s|?|?]|]; try (by destruct (External.text_loop f k)).
  destruct s as [|c t]; by destruct (External.text_loop f k).
Qed.

(** The loop of the external client on a buffer that is a prefix of what
    is left of a wire text: every line held in full is yielded, whatever
    its text. *)
Lemma external_text_loop_lines (rem : list content_line) :
  Forall valid_line rem ->
  forall (cons : list content_line) (b u : list N) (fuel : nat),
  b ++ u = leftover cons ++ wire_of rem ->
  (length b <= fuel)%nat ->
  exists got rem' b',
    rem = got ++ rem' /\
    External.text_loop fuel b = (content_events got, b') /\
    b' ++ u = leftover (cons ++ got) ++ wire_of rem' /\
    text_search b' = None.
Proof.
  induction rem as [|l rem IH]; intros Hv cons b u fuel Hb Hlen.
  - exists [], [], b.
    assert (Hs : text_search b = None).
    { destruct (leftover_cases cons) as [Hj|Hj]; rewrite Hj in Hb; cbn in Hb.
      - by apply app_eq_nil in Hb as [-> _].
      - destruct b as [|x [|y b]]; [done| |done]. by injection Hb as ->. }
    split; [done|]. split; [by rewrite external_text_loop_drained|].
    split; [by rewrite (app_nil_r cons)|done].
  - apply Forall_cons in Hv as [Hl Hv].
    rewrite wire_of_cons, app_assoc in Hb.
    assert (Hcase : (exists k, k <> [] /\ b ++ k = leftover cons ++ render_line l) \/
                    (exists k, b = (leftover cons ++ render_line l) ++ k /\
                               nl ++ wire_of rem = k ++ u)).
    { apply app_eq_inv in Hb as [(k & Hk1 & Hk2)|(k & Hk1 & Hk2)].
      - right. exists k. by split.
      - destruct k as [|x k].
        + right. exists []. rewrite app_nil_r in Hk1. by rewrite Hk1, app_nil_r.
        + left. exists (x :: k). by split. }
    destruct Hcase as [(k & Hk & Hbk)|(k & Hbk & Hku)].
    + destruct (open_prefix_run cons l b k Hl Hk Hbk) as [st Hrun].
      pose proof (text_search_open b st Hrun) as Hs.
      exists [], (l :: rem), b.
      split; [done|]. split; [by rewrite external_text_loop_drained|].
      split; [by rewrite (app_nil_r cons), wire_of_cons, app_assoc|done].
    + pose proof (text_search_tail cons l k Hl) as Hs. rewrite <- Hbk in Hs.
      destruct fuel as [|f].
      { exfalso. rewrite Hbk in Hlen. unfold render_line in Hlen.
        rewrite !length_app in Hlen. cbn [length] in Hlen. lia. }
      assert (Hlenk : (length k <= f)%nat).
      { rewrite Hbk in Hlen. unfold render_line in Hlen.
        rewrite !length_app in Hlen. cbn [length] in Hlen. lia. }
      destruct (IH Hv (cons ++ [l]) k u f) as (got & rem' & b' & Hrem & Htl & Hb' & Hnone);
        [by rewrite leftover_snoc|done|].
      exists (l :: got), rem', b'.
      split; [by rewrite Hrem|]. split.
      { rewrite (external_text_loop_line f b k l Hs), Htl.
        by change (l :: got) with ([l] ++ got); rewrite content_events_app. }
      split; [by rewrite Hb', <- app_assoc|done].
Qed.

Lemma external_on_text_content (cons rem : list content_line) (buffer u : list N) :
  Forall valid_line rem ->
  buffer ++ u = leftover cons ++ wire_of rem ->
  exists got rem' b',
    rem = got ++ rem' /\
    External.on_text buffer = (content_events got, Continue b') /\
    b' ++ u = leftover (cons ++ got) ++ wire_of rem' /\
    text_search b' = None.
Proof.
  intros Hv Hb.
  destruct (external_text_loop_lines rem Hv cons buffer u (length buffer) Hb (le_n _))
    as (got & rem' & b' & Hrem & Htl & Hb' & Hnone).
  exists got, rem', b'. split; [done|]. split; [|done].
  unfold External.on_text.
  destruct (tail_prefix_run cons rem buffer u Hv Hb) as [st Hrun].
  rewrite (error_search_wire buffer st Hrun). cbn [mbind option_bind]. rewrite Htl.
  assert (Hv' : Forall valid_line rem').
  { rewrite Hrem in Hv. by apply Forall_app in Hv as [_ ?]. }
  destruct (tail_prefix_run (cons ++ got) rem' b' u Hv' Hb') as [st' Hrun'].
  by rewrite (finish_search_wire b' st' Hrun').
Qed.

Lemma external_process_frame_text (buffer : list N) (f : frame) :
  is_text_frame f = true ->
  External.process_frame buffer f = External.on_text (buffer ++ frame_text f).
Proof.
  destruct f as [s|l|d]; cbn; [|done|done].
  by destruct (str_eqb s DONE_MARK).
Qed.

Lemma external_parser_loop_content (timeout : Z) (rest : list frame) (frames : list frame) :
  forall (cons rem : list content_line) (b : list N),
  Forall valid_line rem ->
  forallb is_text_frame frames = true ->
  text_search b = None ->
  b ++ flat_map frame_text frames = leftover cons ++ wire_of rem ->
  External.parser_loop timeout b (frames ++ rest) =
  let '(evs, why) := External.parser_loop timeout (leftover (cons ++ rem)) rest in
  (content_events rem ++ evs, why).
Proof.
  induction frames as [|f frames IH]; intros cons rem b Hv Hf Hnone Hb.
  - cbn [flat_map] in Hb. rewrite app_nil_r in Hb. rewrite Hb in Hnone.
    rewrite (text_search_drained cons rem Hv Hnone) in Hb |- *.
    unfold wire_of in Hb. cbn [flat_map] in Hb. rewrite !app_nil_r in Hb |- *. rewrite Hb.
    cbn [app content_events flat_map].
    by destruct (External.parser_loop timeout (leftover cons) rest) as [evs why].
  - cbn [forallb] in Hf. apply andb_true_iff in Hf as [Hf Hfs].
    cbn [flat_map] in Hb. rewrite app_assoc in Hb.
    destruct (external_on_text_content cons rem (b ++ frame_text f)
                (flat_map frame_text frames) Hv Hb)
      as (got & rem' & b' & Hrem & Hon & Hb' & Hnone').
    cbn [app External.parser_loop]. rewrite (external_process_frame_text _ _ Hf), Hon.
    assert (Hv' : Forall valid_line rem').
    { rewrite Hrem in Hv. by apply Forall_app in Hv as [_ ?]. }
    rewrite (IH (cons ++ got) rem' b' Hv' Hfs Hnone' Hb').
    rewrite Hrem, content_events_app, <- (app_assoc cons got rem').
    destruct (External.parser_loop timeout (leftover (cons ++ got ++ rem')) rest)
      as [evs why]. by rewrite app_assoc.
Qed.

Section ExternalStream.
Context `{PyLib}.

Lemma external_stream_events_content (lines : list content_line) (r0 : json) :
  exists chunks,
    External.stream_events r0 (content_events lines) = (chunks, r0, false) /\
    response_text chunks = decoded_text lines.
Proof.
  induction lines as [|l lines (chunks & IH & Htext)]; [by exists []|].
  change (l :: lines) with ([l] ++ lines).
  rewrite content_events_app. unfold decoded_text. rewrite flat_map_app.
  fold (decoded_text lines). unfold content_events at 1. cbn [flat_map].
  destruct (decoded l) as [|c t] eqn:Hdec.
  - exists chunks. by split.
  - exists (format_openai_chunk (ContentStr (c :: t)) :: chunks). split.
    + cbn [app External.stream_events]. by rewrite IH.
    + unfold response_text in *. cbn [flat_map delta_text format_openai_chunk app].
      rewrite Htext. by rewrite app_nil_r.
Qed.

(** X23.  The external client streams content verbatim.  For content
    lines delivered in text frames that cut the wire text anywhere, and
    whatever the text says, the deltas of the response of the external
    client put end to end are the decoded text of the lines, the response
    closes with a stop chunk, and the channel of the request is removed: its
    parser has neither the rate-limit nor the Cloudflare check of the main
    server. *)
Theorem external_client_streams_content_verbatim (lines : list content_line)
    (frames : list frame) (rid model : list N) (w : World) (q : nat) :
  Forall valid_line lines ->
  forallb is_text_frame frames = true ->
  flat_map frame_text frames = wire_of lines ->
  response_channels w !! rid = Some q ->
  response_text
    (chunks_of (External.stream_generator rid model (frames ++ [FrameStr DONE_MARK]) w))
    = decoded_text lines /\
  last (chunks_of (External.stream_generator rid model (frames ++ [FrameStr DONE_MARK]) w))
    = Some (ChunkFinish reason_stop) /\
  snd (fst (External.stream_generator rid model (frames ++ [FrameStr DONE_MARK]) w)) = None /\
  response_channels
    (snd (External.stream_generator rid model (frames ++ [FrameStr DONE_MARK]) w)) !! rid = None.
Proof.
  intros Hv Hf Hparts Hq.
  assert (Hsg : exists chunks,
            External.stream_generator rid model (frames ++ [FrameStr DONE_MARK]) w =
            ((chunks ++ [format_openai_finish_chunk reason_stop], None),
             set_response_channels (delete rid (response_channels w)) w) /\
            response_text chunks = decoded_text lines).
  { unfold External.stream_generator, External._process_lmarena_stream. rewrite Hq.
    rewrite (external_parser_loop_content _ [FrameStr DONE_MARK] frames [] lines [] Hv Hf eq_refl)
      by (by rewrite <- Hparts).
    cbn [app External.parser_loop External.process_frame]. rewrite str_eqb_refl, app_nil_r.
    destruct (external_stream_events_content lines reason_stop) as (chunks & -> & Htext).
    by exists chunks. }
  destruct Hsg as (chunks & -> & Htext). unfold chunks_of. cbn [fst snd].
  split; [|split; [apply last_snoc|split; [done|]]].
  - by rewrite response_text_app, Htext, response_text_closing, app_nil_r.
  - cbn. apply lookup_delete_eq.
Qed.

End ExternalStream.

Section ExternalStreamExamples.
#[local] Existing Instance example_lib.

(** The line that the main server answers with its rate-limit notice
    passes through the external client as it is. *)
Lemma external_client_streams_content_verbatim_witness :
  response_text
    (chunks_of (External.stream_generator (lit "request-0") sonnet35
                  ([FrameStr (wire "a0:'429 Too Many Requests'" ++ nl)] ++ [FrameStr DONE_MARK])
                  streaming_world))
  = decoded_text [{| lane := 97; encoded := lit "429 Too Many Requests" |}].
Proof.
  apply (external_client_streams_content_verbatim
           [{| lane := 97; encoded := lit "429 Too Many Requests" |}] _ _ _ _ 0%nat).
  - repeat constructor; by vm_compute.
  - by vm_compute.
  - by vm_compute.
  - by vm_compute.
Defined.

End ExternalStreamExamples.
